(** * Tourist itinerary optimizer (QuestionNo5/WeatherApp.py)

    A shallow embedding of the optimisation core of the program: the
    [TouristSpot] and [Itinerary] classes and the three static methods of
    [ItineraryOptimizer] ([greedy_heuristic], [_nearest_neighbor] and
    [brute_force]), followed by the properties the specification states
    about them.

    Modelling choices.
    - Python [int] is [Z].  Python [float] is IEEE binary64, modelled by
      [spec_float] with the operations of [SpecFloat] at precision 53 and
      maximal exponent 1024 (these are executable and axiom free).
    - A [TouristSpot] is a Python object: lists hold references to it.  A
      reference is the object's identity ([id(obj)], a [positive]); the
      object store [heap] maps a reference to the object's fields.  The
      class defines neither [__eq__] nor [__hash__], so sets of spots
      compare and hash by identity, which is equality of references.
    - The iteration order of a Python [set] of such objects depends on
      their hashes (addresses) and is not fixed by the language.  It is a
      parameter [set_order] of the model.
    - Exceptions are explicit: a computation yields an [outcome].
    - The planners are first written over lists as values, which is what
      the properties about costs, times and scores need.  They are then
      written a second time over a store of list objects ([Module Imp]),
      where [append] and [pop] mutate and a list can be aliased; the
      second version is shown to compute what the first does
      ([Imp_greedy_sim], [Imp_brute_force_sim]) and carries the
      properties about mutation. *)

From Stdlib Require Import ZArith Lia SpecFloat.
From stdpp Require Import base gmap sets list strings sorting.

(** ** Python numbers *)

Module Py.

Definition float := spec_float.

Definition prec : Z := 53.
Definition emax : Z := 1024.

Definition fadd : float → float → float := SFadd prec emax.
Definition fsub : float → float → float := SFsub prec emax.
Definition fmul : float → float → float := SFmul prec emax.
Definition fsqrt : float → float := SFsqrt prec emax.
(** [x < y] and [x <= y] on floats; both are [false] when an operand is NaN. *)
Definition flt : float → float → bool := SFltb.
Definition fle : float → float → bool := SFleb.

(** [float(n)] for an [int] that fits (round to nearest, ties to even).
    It is used for the values of [len(...)] and for interest scores, which
    are bounded by the size of a collection and so never overflow. *)
Definition float_of_int (z : Z) : float := binary_normalize prec emax z 0 false.

Global Arguments fadd : simpl never.
Global Arguments fsub : simpl never.
Global Arguments fmul : simpl never.
Global Arguments fsqrt : simpl never.
Global Arguments flt : simpl never.
Global Arguments fle : simpl never.
Global Arguments float_of_int : simpl never.

Definition zero : float := S754_zero false.                         (* 0.0 *)
Definition half : float := binary_normalize prec emax 1 (-1) false. (* 0.5 *)
Definition two : float := float_of_int 2.                           (* 2.0 *)
Definition twenty : float := float_of_int 20.                       (* float(20) *)
Definition minus_one : float := float_of_int (-1).                  (* float(-1) *)
Definition inf : float := S754_infinity false.                      (* float('inf') *)

Definition is_nan (x : float) : bool :=
  match x with S754_nan => true | _ => false end.
(** [math.isfinite] *)
Definition is_finite (x : float) : bool :=
  match x with S754_zero _ | S754_finite _ _ _ => true | _ => false end.
(** [x >= 0.0], with the zero of either sign. *)
Definition is_nonneg (x : float) : bool :=
  match x with
  | S754_zero _ | S754_infinity false | S754_finite false _ _ => true
  | _ => false
  end.

Inductive exn :=
  | OverflowError | ZeroDivisionError | TypeError | ValueError | KeyError | IndexError.

(** What running a piece of code gives: a value, a raised exception, or
    (for the model's bounded loops only) exhaustion of the loop bound. *)
Inductive outcome (A : Type) : Type :=
  | Ret (a : A)
  | Raise (e : exn)
  | OutOfFuel.
Global Arguments Ret {A} a.
Global Arguments Raise {A} e.
Global Arguments OutOfFuel {A}.

Global Instance outcome_ret : MRet outcome := @Ret.
Global Instance outcome_bind : MBind outcome := λ A B f m,
  match m with
  | Ret a => f a
  | Raise e => Raise e
  | OutOfFuel => OutOfFuel
  end.

(** [a / b] on two [int]s (true division): the exact quotient rounded once
    to the nearest float, [ZeroDivisionError] for [b = 0], [OverflowError]
    when the rounded quotient is not finite.  The quotient is taken with
    [k] extra binary digits, enough for it to have more than 64 bits, and a
    sticky last bit that records a non-zero remainder. *)
Definition int_truediv (a b : Z) : outcome float :=
  if (b =? 0)%Z then Raise ZeroDivisionError else
  let negate := xorb (a <? 0)%Z (b <? 0)%Z in
  let k := (Z.log2 (Z.abs b) + 65)%Z in
  let n := (Z.abs a * 2 ^ k)%Z in
  let q := (n / Z.abs b)%Z in
  let sticky := if (n mod Z.abs b =? 0)%Z then 0%Z else 1%Z in
  let m := (2 * q + sticky)%Z in
  match binary_normalize prec emax (if negate then (- m)%Z else m) (- (k + 1)) negate with
  | S754_infinity _ => Raise OverflowError
  | f => Ret f
  end.

(** [for x in l: s = f(s, x)] where the body may raise. *)
Fixpoint foldM {A S : Type} (f : S → A → outcome S) (s : S) (l : list A) : outcome S :=
  match l with
  | [] => Ret s
  | x :: xs => s' ← f s x; foldM f s' xs
  end.

(** [min(l, key=key)]: the first item whose key is not above any later
    key; a later item replaces the current one only when its key is
    strictly smaller ([<]).  [ValueError] on an empty iterable. *)
Fixpoint min_from {A : Type} (key : A → float) (best : A) (l : list A) : A :=
  match l with
  | [] => best
  | x :: xs => min_from key (if flt (key x) (key best) then x else best) xs
  end.

Definition min_by {A : Type} (key : A → float) (l : list A) : outcome A :=
  match l with
  | [] => Raise ValueError
  | x :: xs => Ret (min_from key x xs)
  end.

(** [l.sort(reverse=True, key=key)]: descending, stable (items with equal
    keys keep their order), comparing keys with [<] only. *)
Fixpoint insert_desc {A : Type} (key : A → float) (x : A) (l : list A) : list A :=
  match l with
  | [] => [x]
  | y :: ys => if flt (key x) (key y) then y :: insert_desc key x ys else x :: l
  end.

Definition sort_desc {A : Type} (key : A → float) (l : list A) : list A :=
  foldr (insert_desc key) [] l.

End Py.

(** ** itertools *)

Module Itertools.

(** [itertools.combinations(l, r)]: the sublists of length [r], in
    lexicographic order of positions. *)
Fixpoint combinations {A : Type} (l : list A) (r : nat) : list (list A) :=
  match r, l with
  | O, _ => [[]]
  | S _, [] => []
  | S r', x :: xs => map (cons x) (combinations xs r') ++ combinations xs r
  end.

(** Every way to take one element out of [l], with the rest in order. *)
Fixpoint picks {A : Type} (l : list A) : list (A * list A) :=
  match l with
  | [] => []
  | x :: xs => (x, xs) :: map (λ p, (p.1, x :: p.2)) (picks xs)
  end.

Fixpoint perms_upto {A : Type} (n : nat) (l : list A) : list (list A) :=
  match n with
  | O => [[]]
  | S n' => flat_map (λ p, map (cons p.1) (perms_upto n' p.2)) (picks l)
  end.

(** [itertools.permutations(l)]: all orderings, in lexicographic order of
    positions. *)
Definition permutations {A : Type} (l : list A) : list (list A) :=
  perms_upto (length l) l.

End Itertools.

Import Py.

(** ** Data model *)

(** Identity of a Python object. *)
Definition ref := positive.

Record TouristSpot := {
  name : string;
  latitude : float;
  longitude : float;
  entry_fee : Z;
  open_time : string;
  close_time : string;
  tags : gset string;
}.

Record Itinerary := {
  spots : list ref;
  algorithm : string;
  total_cost : Z;
  total_time : float;
}.

(** [TouristSpot.distance_to] *)
Definition distance_to (self other : TouristSpot) : float :=
  let dx := fsub (latitude self) (latitude other) in
  let dy := fsub (longitude self) (longitude other) in
  fsqrt (fadd (fmul dx dx) (fmul dy dy)).

(** [TouristSpot.interest_score] *)
Definition interest_score (self : TouristSpot) (user_interests : gset string) : Z :=
  Z.of_nat (size (tags self ∩ user_interests)) * 10.

(** Latitude and longitude are numbers: neither an infinity nor a NaN. *)
Definition finite_coordinates (s : TouristSpot) : Prop :=
  is_finite (latitude s) = true ∧ is_finite (longitude s) = true.

Section Optimizer.

(** The object store: the fields of the spot behind each reference. *)
Variable heap : ref → TouristSpot.
(** The order in which iterating over a set of spots yields its members. *)
Variable set_order : gset ref → list ref.

(** [sum(spot.entry_fee for spot in spots)] *)
Definition sum_fees (l : list ref) : Z :=
  foldr (λ r acc, entry_fee (heap r) + acc)%Z 0%Z l.

(** [sum(s.interest_score(interests) for s in l)] *)
Definition sum_interest (interests : gset string) (l : list ref) : Z :=
  foldr (λ r acc, interest_score (heap r) interests + acc)%Z 0%Z l.

(** [for i in range(1, len(l)): time += l[i-1].distance_to(l[i]) * 20] *)
Fixpoint add_travel (time : float) (l : list ref) : float :=
  match l with
  | a :: (b :: _) as tl =>
      add_travel (fadd time (fmul (distance_to (heap a) (heap b)) twenty)) tl
  | _ => time
  end.

(** The time of a route as both the [Itinerary] and the brute-force loop
    compute it: two hours a spot, then the travel legs in order. *)
Definition route_time (l : list ref) : float :=
  add_travel (fmul (float_of_int (Z.of_nat (length l))) two) l.

(** [Itinerary._calculate_time] *)
Definition _calculate_time (l : list ref) : float :=
  match l with
  | [] => zero
  | _ => route_time l
  end.

(** [Itinerary.__init__] *)
Definition Itinerary_init (l : list ref) (alg : string) : Itinerary :=
  {| spots := l; algorithm := alg;
     total_cost := sum_fees l; total_time := _calculate_time l |}.

(** *** [_nearest_neighbor] *)

(** The [while remaining:] loop.  Each round removes one member of
    [remaining], so [size remaining] rounds are enough. *)
Fixpoint nn_loop (fuel : nat) (route : list ref) (remaining : gset ref)
  : outcome (list ref) :=
  if decide (remaining = ∅) then Ret route else
  match fuel with
  | O => OutOfFuel
  | S fuel' =>
      match last route with
      | None => Raise IndexError
      | Some current =>
          nearest ← min_by (λ s, distance_to (heap current) (heap s))
                           (set_order remaining);
          if decide (nearest ∈ remaining)
          then nn_loop fuel' (route ++ [nearest]) (remaining ∖ {[nearest]})
          else Raise KeyError
      end
  end.

Definition _nearest_neighbor (l : list ref) : outcome (list ref) :=
  match l with
  | s0 :: (_ :: _) as rest =>
      let remaining : gset ref := list_to_set rest in
      nn_loop (size remaining) [s0] remaining
  | _ => Ret l
  end.

(** *** [greedy_heuristic] *)

(** Lines 140-145: the list of [(total_score, spot)] pairs. *)
Fixpoint score_spots (l : list ref) (interests : gset string)
  : outcome (list (float * ref)) :=
  match l with
  | [] => Ret []
  | spot :: rest =>
      let interest := interest_score (heap spot) interests in
      cost_score ← int_truediv (- entry_fee (heap spot)) 100;
      let total_score := fadd (float_of_int interest) cost_score in
      scored ← score_spots rest interests;
      Ret ((total_score, spot) :: scored)
  end.

Record selection := {
  selected : list ref;
  remaining_budget : Z;
  remaining_time : float;
}.

(** Lines 155-168: one round of the greedy selection. *)
Definition select_step (st : selection) (spot : ref) : selection :=
  let visit_time := two in
  let travel_time :=
    match last (selected st) with
    | None => half
    | Some last_spot => fmul (distance_to (heap last_spot) (heap spot)) twenty
    end in
  let total_time_needed := fadd visit_time travel_time in
  if bool_decide (entry_fee (heap spot) ≤ remaining_budget st)%Z
     && fle total_time_needed (remaining_time st)
  then {| selected := selected st ++ [spot];
          remaining_budget := (remaining_budget st - entry_fee (heap spot))%Z;
          remaining_time := fsub (remaining_time st) total_time_needed |}
  else st.

Definition select (sorted : list (float * ref)) (budget : Z) (time_available : float)
  : selection :=
  foldl (λ st p, select_step st p.2)
        {| selected := []; remaining_budget := budget; remaining_time := time_available |}
        sorted.

(** Lines 176-191: the repair loop.  Each round pops one spot, so
    [length current_selection] rounds are enough. *)
Fixpoint repair (fuel : nat) (current_selection : list ref) (time_available : float)
  : outcome Itinerary :=
  match current_selection with
  | [] => Ret (Itinerary_init [] "Greedy Heuristic")
  | _ :: _ =>
      match fuel with
      | O => OutOfFuel
      | S fuel' =>
          route ← _nearest_neighbor current_selection;
          let itinerary := Itinerary_init route "Greedy Heuristic" in
          if fle (total_time itinerary) time_available
          then Ret itinerary
          else repair fuel' (removelast current_selection) time_available
      end
  end.

Definition greedy_heuristic (l : list ref) (budget : Z) (time_available : float)
    (interests : gset string) : outcome Itinerary :=
  scored_spots ← score_spots l interests;
  let sorted := sort_desc fst scored_spots in
  let sel := selected (select sorted budget time_available) in
  match sel with
  | [] => Ret (Itinerary_init [] "Greedy Heuristic")
  | _ => repair (length sel) sel time_available
  end.

(** *** [brute_force] *)

(** Lines 230-243: the first permutation of least time, [None] when no
    permutation has a time below infinity. *)
Definition best_perm_step (st : option (list ref) * float) (perm_list : list ref)
  : option (list ref) * float :=
  let time := route_time perm_list in
  if flt time st.2 then (Some perm_list, time) else st.

Definition best_perm (subset : list ref) : option (list ref) * float :=
  foldl best_perm_step (None, inf) (Itertools.permutations subset).

(** Lines 224-253: the body of the loop over subsets; the state is
    [(best_itinerary, best_score)]. *)
Definition subset_step (budget : Z) (time_available : float) (interests : gset string)
    (st : Itinerary * float) (subset : list ref) : outcome (Itinerary * float) :=
  let subset_cost := sum_fees subset in
  if bool_decide (subset_cost > budget)%Z then Ret st else
  let '(best_perm_for_subset, min_time_for_subset) := best_perm subset in
  if fle min_time_for_subset time_available then
    match best_perm_for_subset with
    | None => Raise TypeError
    | Some perm =>
        let score_sum := sum_interest interests perm in
        penalty ← int_truediv subset_cost 100;
        let score := fsub (float_of_int score_sum) penalty in
        if flt st.2 score
        then Ret (Itinerary_init perm "Brute Force", score)
        else Ret st
    end
  else Ret st.

(** The subsets in the order the two outer loops visit them. *)
Definition subsets (l : list ref) : list (list ref) :=
  let n := Nat.min (length l) 6 in
  let spots_subset := take n l in
  flat_map (Itertools.combinations spots_subset) (seq 1 n).

Definition brute_force (l : list ref) (budget : Z) (time_available : float)
    (interests : gset string) : outcome Itinerary :=
  st ← foldM (subset_step budget time_available interests)
             (Itinerary_init [] "Brute Force", minus_one) (subsets l);
  Ret st.1.

(** The score the specification assigns to an itinerary: the summed
    interest scores minus [total_cost / 100]; [0] for the empty one. *)
Definition score (interests : gset string) (it : Itinerary) : outcome float :=
  match spots it with
  | [] => Ret zero
  | _ =>
      penalty ← int_truediv (total_cost it) 100;
      Ret (fsub (float_of_int (sum_interest interests (spots it))) penalty)
  end.

(** The score the brute-force loop gives a subset (lines 248-249). *)
Definition subset_score (interests : gset string) (subset : list ref) : outcome float :=
  penalty ← int_truediv (sum_fees subset) 100;
  Ret (fsub (float_of_int (sum_interest interests subset)) penalty).

(** A subset the brute-force loop accepts: within the budget, and with its
    fastest ordering within the time budget (lines 226 and 246). *)
Definition feasible (budget : Z) (time_available : float) (subset : list ref) : Prop :=
  (sum_fees subset ≤ budget)%Z ∧ fle (best_perm subset).2 time_available = true.

End Optimizer.

(** ** The same code over a store of list objects

    The functions above take the spots of a list as a value.  In Python a
    list is an object: [greedy_heuristic] and [brute_force] receive the
    caller's catalog by reference, build and mutate lists of their own
    ([selected.append], [current_selection.pop], [route.append]), and
    [_nearest_neighbor] returns its very argument when it has at most one
    element.  Here every list of spots is an object in a store and is
    handled through its identity, so that mutation and aliasing are
    explicit.  The list of scored pairs and the set [remaining] are local
    to one call and handled as values. *)

Module Imp.

(** Identity of a list object. *)
Definition loc := nat.

Record store := {
  objs : ref → TouristSpot;     (* the fields of every spot object *)
  lists : gmap loc (list ref);  (* the elements of every list object *)
  next : loc;                   (* the identity the next new list gets *)
}.

(** A computation reads and writes the store. *)
Definition M (A : Type) : Type := store → outcome (A * store).

Definition ret {A : Type} (a : A) : M A := λ σ, Ret (a, σ).

Definition bind {A B : Type} (m : M A) (k : A → M B) : M B := λ σ,
  match m σ with
  | Ret (a, σ') => k a σ'
  | Raise e => Raise e
  | OutOfFuel => OutOfFuel
  end.

Global Instance M_ret : MRet M := @ret.
Global Instance M_bind : MBind M := λ A B k m, bind m k.

Definition raise {A : Type} (e : exn) : M A := λ _, Raise e.
Definition out_of_fuel {A : Type} : M A := λ _, OutOfFuel.

(** A computation that does not touch the store. *)
Definition lift {A : Type} (o : outcome A) : M A := λ σ,
  match o with
  | Ret a => Ret (a, σ)
  | Raise e => Raise e
  | OutOfFuel => OutOfFuel
  end.

(** Reading fields of spots. *)
Definition get_objs : M (ref → TouristSpot) := λ σ, Ret (objs σ, σ).

Definition set_list (a : loc) (l : list ref) (σ : store) : store :=
  {| objs := objs σ; lists := <[a := l]> (lists σ); next := next σ |}.

Definition new_list (l : list ref) (σ : store) : store :=
  {| objs := objs σ; lists := <[next σ := l]> (lists σ); next := S (next σ) |}.

(** A new list object: [[]], [[x]], [list(t)], [l[:n]]. *)
Definition alloc (l : list ref) : M loc := λ σ, Ret (next σ, new_list l σ).

(** The elements of a list object (an identity that names no list cannot
    arise in Python; it is an error of the model). *)
Definition load (a : loc) : M (list ref) := λ σ,
  match lists σ !! a with
  | Some l => Ret (l, σ)
  | None => Raise TypeError
  end.

(** [a.append(x)] *)
Definition append (a : loc) (x : ref) : M unit := λ σ,
  match lists σ !! a with
  | Some l => Ret (tt, set_list a (l ++ [x]) σ)
  | None => Raise TypeError
  end.

(** [a.pop()] *)
Definition pop (a : loc) : M unit := λ σ,
  match lists σ !! a with
  | Some [] => Raise IndexError
  | Some l => Ret (tt, set_list a (removelast l) σ)
  | None => Raise TypeError
  end.

(** [for x in l: s = f(s, x)] *)
Fixpoint forM {A S : Type} (f : S → A → M S) (s : S) (l : list A) : M S :=
  match l with
  | [] => ret s
  | x :: xs => s' ← f s x; forM f s' xs
  end.

(** An [Itinerary] object: [self.spots] is the list it was given, not a
    copy. *)
Record Itinerary := {
  spots : loc;
  algorithm : string;
  total_cost : Z;
  total_time : float;
}.

(** [Itinerary.__init__] *)
Definition Itinerary_init (a : loc) (alg : string) : M Itinerary :=
  l ← load a;
  h ← get_objs;
  mret {| spots := a; algorithm := alg;
          total_cost := sum_fees h l; total_time := _calculate_time h l |}.

Section Optimizer.

Variable set_order : gset ref → list ref.

(** The [while remaining:] loop; [route] is mutated in place. *)
Fixpoint nn_loop (fuel : nat) (route : loc) (remaining : gset ref) : M unit :=
  if decide (remaining = ∅) then mret tt else
  match fuel with
  | O => out_of_fuel
  | S fuel' =>
      r ← load route;
      match last r with
      | None => raise IndexError
      | Some current =>
          h ← get_objs;
          nearest ← lift (min_by (λ s, distance_to (h current) (h s))
                                 (set_order remaining));
          _ ← append route nearest;
          if decide (nearest ∈ remaining)
          then nn_loop fuel' route (remaining ∖ {[nearest]})
          else raise KeyError
      end
  end.

(** [_nearest_neighbor]: the result is the argument itself for a list of
    at most one spot, a new list otherwise. *)
Definition _nearest_neighbor (spots : loc) : M loc :=
  l ← load spots;
  match l with
  | s0 :: (_ :: _) as rest =>
      route ← alloc [s0];
      let remaining : gset ref := list_to_set rest in
      _ ← nn_loop (size remaining) route remaining;
      mret route
  | _ => mret spots
  end.

(** Lines 155-168; the state is [(remaining_budget, remaining_time)] and
    [selected] is mutated in place. *)
Definition select_step (selected : loc) (st : Z * float) (spot : ref) : M (Z * float) :=
  sel ← load selected;
  h ← get_objs;
  let visit_time := two in
  let travel_time :=
    match last sel with
    | None => half
    | Some last_spot => fmul (distance_to (h last_spot) (h spot)) twenty
    end in
  let total_time_needed := fadd visit_time travel_time in
  if bool_decide (entry_fee (h spot) ≤ st.1)%Z && fle total_time_needed st.2
  then _ ← append selected spot;
       mret ((st.1 - entry_fee (h spot))%Z, fsub st.2 total_time_needed)
  else mret st.

(** Lines 176-191; [current_selection] is mutated in place. *)
Fixpoint repair (fuel : nat) (current_selection : loc) (time_available : float)
  : M Itinerary :=
  l ← load current_selection;
  match l with
  | [] => empty ← alloc []; Itinerary_init empty "Greedy Heuristic"
  | _ :: _ =>
      match fuel with
      | O => out_of_fuel
      | S fuel' =>
          route ← _nearest_neighbor current_selection;
          itinerary ← Itinerary_init route "Greedy Heuristic";
          if fle (total_time itinerary) time_available
          then mret itinerary
          else _ ← pop current_selection;
               repair fuel' current_selection time_available
      end
  end.

Definition greedy_heuristic (spots : loc) (budget : Z) (time_available : float)
    (interests : gset string) : M Itinerary :=
  l ← load spots;
  h ← get_objs;
  scored_spots ← lift (score_spots h l interests);
  let sorted := sort_desc fst scored_spots in
  selected ← alloc [];
  _ ← forM (λ st p, select_step selected st p.2) (budget, time_available) sorted;
  sel ← load selected;
  match sel with
  | [] => empty ← alloc []; Itinerary_init empty "Greedy Heuristic"
  | _ =>
      current_selection ← alloc sel;
      repair (length sel) current_selection time_available
  end.

(** Lines 233-243: [perm_list = list(perm)] is a new list each time. *)
Definition best_perm_step (st : option loc * float) (perm : list ref)
  : M (option loc * float) :=
  perm_list ← alloc perm;
  l ← load perm_list;
  h ← get_objs;
  let time := route_time h l in
  if flt time st.2 then mret (Some perm_list, time) else mret st.

(** Lines 224-253 *)
Definition subset_step (budget : Z) (time_available : float) (interests : gset string)
    (st : Itinerary * float) (subset : list ref) : M (Itinerary * float) :=
  h ← get_objs;
  let subset_cost := sum_fees h subset in
  if bool_decide (subset_cost > budget)%Z then mret st else
  best ← forM best_perm_step (None, inf) (Itertools.permutations subset);
  if fle best.2 time_available then
    match best.1 with
    | None => raise TypeError
    | Some best_perm_for_subset =>
        l ← load best_perm_for_subset;
        let score_sum := sum_interest h interests l in
        penalty ← lift (int_truediv subset_cost 100);
        let score := fsub (float_of_int score_sum) penalty in
        if flt st.2 score
        then itinerary ← Itinerary_init best_perm_for_subset "Brute Force";
             mret (itinerary, score)
        else mret st
    end
  else mret st.

Definition brute_force (spots : loc) (budget : Z) (time_available : float)
    (interests : gset string) : M Itinerary :=
  empty ← alloc [];
  best_itinerary ← Itinerary_init empty "Brute Force";
  l ← load spots;
  let n := Nat.min (length l) 6 in
  spots_subset ← alloc (take n l);
  sub ← load spots_subset;
  st ← forM (subset_step budget time_available interests)
            (best_itinerary, minus_one)
            (flat_map (Itertools.combinations sub) (seq 1 n));
  mret st.1.

End Optimizer.

(** A store is well formed when no list lives at an identity not yet
    given out. *)
Definition wf (σ : store) : Prop := ∀ a, next σ ≤ a → lists σ !! a = None.

(** What a call leaves as it was: the spot objects, and the list objects
    older than [n]. *)
Definition frame (n : loc) (σ σ' : store) : Prop :=
  objs σ' = objs σ ∧ next σ ≤ next σ' ∧
  ∀ a, a < n → lists σ' !! a = lists σ !! a.

End Imp.

(** The itinerary value an itinerary object stands for in a store. *)
Definition represents (σ : Imp.store) (it : Imp.Itinerary) (v : Itinerary) : Prop :=
  Imp.lists σ !! Imp.spots it = Some (spots v) ∧
  Imp.algorithm it = algorithm v ∧
  Imp.total_cost it = total_cost v ∧
  Imp.total_time it = total_time v.

(** A computation on the store against a computation on values: both
    return, with results that [Q] relates, or both raise the same
    exception, or both run out of fuel. *)
Definition sim {A B : Type} (m : Imp.M A) (σ : Imp.store) (p : outcome B)
    (Q : B → A → Imp.store → Prop) : Prop :=
  match p, m σ with
  | Ret v, Ret (a, σ') => Q v a σ'
  | Raise e, Raise e' => e = e'
  | OutOfFuel, OutOfFuel => True
  | _, _ => False
  end.
Global Arguments sim : simpl never.

(** ** Invariants of the loops

    What the proofs below maintain along the loops of the planners. *)

Section Invariants.
Variable heap : ref → TouristSpot.

(** The selection state after the greedy walk over [done] (lines 154-168). *)
Record select_inv (budget : Z) (time_available : float)
    (done : list ref) (st : selection) : Prop := {
  inv_sublist : selected st `sublist_of` done;
  inv_budget : (sum_fees heap (selected st) + remaining_budget st = budget)%Z;
  inv_nonneg : selected st ≠ [] → (0 ≤ remaining_budget st)%Z;
  inv_first : selected st ≠ [] →
    ∃ r, r ∈ done ∧ (entry_fee (heap r) ≤ budget)%Z ∧
         fle (fadd two half) time_available = true;
  inv_empty : selected st = [] →
    remaining_budget st = budget ∧ remaining_time st = time_available ∧
    ∀ r, r ∈ done →
      ¬ ((entry_fee (heap r) ≤ budget)%Z ∧ fle (fadd two half) time_available = true);
}.

(** The best itinerary and score after the subsets [done] (lines 222-253). *)
Record brute_inv (b : Z) (t : float) (I : gset string)
    (done : list (list ref)) (st : Itinerary * float) : Prop := {
  bi_not_nan : is_nan st.2 = false;
  bi_floor : fle minus_one st.2 = true;
  bi_best :
    (st.1 = Itinerary_init heap [] "Brute Force" ∧ st.2 = minus_one) ∨
    (∃ c, c ∈ done ∧ c ≠ [] ∧ feasible heap b t c ∧
          (best_perm heap c).1 = Some (spots st.1) ∧
          st.1 = Itinerary_init heap (spots st.1) "Brute Force" ∧
          subset_score heap I c = Ret st.2 ∧ flt minus_one st.2 = true);
  bi_max : ∀ c, c ∈ done → feasible heap b t c →
    ∃ s, subset_score heap I c = Ret s ∧ fle s st.2 = true;
}.

End Invariants.

(** What the planners promise about the store they ran in: it stays well
    formed, the lists older than [n] and the spots are as before, and the
    itinerary object stands for the value [v] through a list not older
    than [n]. *)
Definition planner_post (n : Imp.loc) (σ : Imp.store)
    (v : Itinerary) (it : Imp.Itinerary) (σ' : Imp.store) : Prop :=
  Imp.wf σ' ∧ Imp.frame n σ σ' ∧ represents σ' it v ∧ n ≤ Imp.spots it.

(** The loop over the permutations of a subset, on the store and on values. *)
Definition best_perm_rel (σs : Imp.store)
    (st : option (list ref) * float) (st' : option Imp.loc * float)
    (σ : Imp.store) : Prop :=
  st'.2 = st.2 ∧ Imp.wf σ ∧ Imp.frame (Imp.next σs) σs σ ∧
  match st.1, st'.1 with
  | Some p, Some a => Imp.lists σ !! a = Some p ∧ Imp.next σs ≤ a
  | None, None => True
  | _, _ => False
  end.

(** The loop over the subsets, on the store and on values. *)
Definition subset_rel (n : Imp.loc) (σ0 : Imp.store)
    (st : Itinerary * float) (st' : Imp.Itinerary * float) (σ : Imp.store) : Prop :=
  st'.2 = st.2 ∧ planner_post n σ0 st.1 st'.1 σ ∧ n ≤ Imp.next σ.

(** ** Notions used by the further properties *)

(** A list as [sort(reverse=True, key=key)] leaves it: no item comes
    before one of a greater key. *)
Definition sorted_desc {A : Type} (key : A → float) : list A → Prop :=
  StronglySorted (λ a y, fle (key y) (key a) = true).

(** A duration: a positive float in canonical form, or [inf]. *)
Definition is_duration (x : float) : bool :=
  match x with
  | S754_infinity false => true
  | S754_finite false m e => canonical_mantissa prec emax m e
  | _ => false
  end.

Section Notions.
Variable heap : ref → TouristSpot.

(** Lines 142-144: the total score of one spot. *)
Definition total_score (interests : gset string) (spot : ref) : outcome float :=
  cost_score ← int_truediv (- entry_fee (heap spot)) 100;
  Ret (fadd (float_of_int (interest_score (heap spot) interests)) cost_score).

(** The greedy selection after the sorted pairs [done]: nothing is
    selected as long as no spot passes the first test, and the first spot
    selected is the first affordable one. *)
Definition first_pick (budget : Z) (time_available : float)
    (done : list (float * ref)) (st : selection) : Prop :=
  (selected st = [] ∧ remaining_budget st = budget ∧ remaining_time st = time_available ∧
   ∀ q, q ∈ done →
     ¬ ((entry_fee (heap q.2) ≤ budget)%Z ∧ fle (fadd two half) time_available = true)) ∨
  (∃ pre p post, done = pre ++ p :: post ∧ head (selected st) = Some p.2 ∧
     (entry_fee (heap p.2) ≤ budget)%Z ∧
     ∀ q, q ∈ pre → ¬ (entry_fee (heap q.2) ≤ budget)%Z).

(** The exhaustive search after the subsets [done]: the best itinerary
    so far comes from the first of the subsets visited whose score is the
    greatest. *)
Definition first_best (b : Z) (t : float) (I : gset string)
    (done : list (list ref)) (st : Itinerary * float) : Prop :=
  (st = (Itinerary_init heap [] "Brute Force", minus_one) ∧
   ∀ c, c ∈ done → feasible heap b t c →
     ∃ s, subset_score heap I c = Ret s ∧ fle s minus_one = true) ∨
  (∃ pre c post p,
     done = pre ++ c :: post ∧ feasible heap b t c ∧
     (best_perm heap c).1 = Some p ∧ st.1 = Itinerary_init heap p "Brute Force" ∧
     subset_score heap I c = Ret st.2 ∧ flt minus_one st.2 = true ∧
     (∀ c', c' ∈ pre → feasible heap b t c' →
        ∃ s, subset_score heap I c' = Ret s ∧ flt s st.2 = true) ∧
     (∀ c', c' ∈ post → feasible heap b t c' →
        ∃ s, subset_score heap I c' = Ret s ∧ fle s st.2 = true)).

End Notions.

(** ** Concrete data *)

Module Examples.

Local Open Scope string_scope.

(** The positive double [m * 2^e]. *)
Definition double (m : positive) (e : Z) : float := S754_finite false m e.

Definition spot (n : string) (lat lon : float) (fee : Z) (opens closes : string)
    (t : list string) : TouristSpot :=
  {| name := n; latitude := lat; longitude := lon; entry_fee := fee;
     open_time := opens; close_time := closes; tags := list_to_set t |}.

(** [SAMPLE_SPOTS] (lines 69-124) as the GUI loads it: the spot built from
    the [i]-th record is the object with reference [i].  Each coordinate
    is the double nearest to the decimal in the source. *)
Definition SAMPLE_SPOTS (r : ref) : TouristSpot :=
  match r with
  | 1%positive =>
      spot "Pashupatinath Temple"
           (double 7799784194642962 (-48))  (* 27.7104 *)
           (double 6005887873070609 (-46))  (* 85.3488 *)
           100 "06:00" "18:00" ["culture"; "religious"]
  | 2%positive =>
      spot "Swayambhunath Stupa"
           (double 7801050832038160 (-48))  (* 27.7149 *)
           (double 6001792412159469 (-46))  (* 85.2906 *)
           200 "07:00" "17:00" ["culture"; "heritage"]
  | 3%positive =>
      spot "Garden of Dreams"
           (double 7800375292094054 (-48))  (* 27.7125 *)
           (double 6003650147005759 (-46))  (* 85.3170 *)
           150 "09:00" "21:00" ["nature"; "relaxation"]
  | 4%positive =>
      spot "Chandragiri Hills"
           (double 7786048215779482 (-48))  (* 27.6616 *)
           (double 5998639892420310 (-46))  (* 85.2458 *)
           700 "09:00" "17:00" ["nature"; "adventure"]
  | 5%positive =>
      spot "Kathmandu Durbar Square"
           (double 7798207934773382 (-48))  (* 27.7048 *)
           (double 6002988680810489 (-46))  (* 85.3076 *)
           100 "10:00" "17:00" ["culture"; "heritage"]
  | _ =>
      spot "Bhaktapur Durbar Square"
           (double 7789031850532615 (-48))  (* 27.6722 *)
           (double 6011587741349000 (-46))  (* 85.4298 *)
           150 "10:00" "17:00" ["culture"; "heritage"]
  end.

(** [self.spots] of the GUI. *)
Definition sample_catalog : list ref := [1; 2; 3; 4; 5; 6]%positive.

(** A small synthetic store.  Spots 2 and 3 are at the same distance
    (1/64) from spot 1; spot 4 has a fee beyond the range of a float;
    spot 5 is so far away that the distance to it overflows. *)
Definition plain (lat lon : float) (fee : Z) (t : list string) : TouristSpot :=
  spot "" lat lon fee "" "" t.

Definition grid (r : ref) : TouristSpot :=
  match r with
  | 1%positive => plain zero zero 50 []
  | 2%positive => plain (double 4503599627370496 (-58)) zero 100 ["culture"]
  | 3%positive => plain zero (double 4503599627370496 (-58)) 100 []
  | 4%positive => plain zero zero (10 ^ 400) []
  | _ => plain (double 4503599627370496 548) zero 10 []
  end.

(** Three spots at one place, two of them with a negative entry fee. *)
Definition rebates (r : ref) : TouristSpot :=
  match r with
  | 1%positive => plain zero zero (-60) []
  | 2%positive => plain zero zero (-50) []
  | _ => plain zero zero 160 []
  end.

(** Two iteration orders a set of spots may have: by increasing and by
    decreasing address. *)
Definition ascending (X : gset ref) : list ref := merge_sort Pos.le (elements X).
Definition descending (X : gset ref) : list ref := reverse (ascending X).

Definition hours (n : Z) : float := float_of_int n.

(** The two itineraries of the scenario of the specification: the sample
    catalog, a budget of 1000, eight hours, culture and heritage. *)
Definition scenario_interests : gset string := {["culture"; "heritage"]}.
Definition scenario_greedy : Itinerary :=
  Itinerary_init SAMPLE_SPOTS [5; 6]%positive "Greedy Heuristic".
Definition scenario_brute : Itinerary :=
  Itinerary_init SAMPLE_SPOTS [1; 5; 2]%positive "Brute Force".

(** The store of the GUI when it calls a planner: the spots of
    [SAMPLE_SPOTS], and one list object, [self.spots]. *)
Definition sample_store : Imp.store :=
  {| Imp.objs := SAMPLE_SPOTS; Imp.lists := {[ 0 := sample_catalog ]}; Imp.next := 1 |}.

End Examples.

(** * Properties *)

(** ** Floats: the order and the absence of NaN *)

Module PyFacts.

Ltac cmp_cases :=
  repeat match goal with
  | H : context [Z.compare ?a ?b] |- _ => destruct (Z.compare_spec a b)
  | |- context [Z.compare ?a ?b] => destruct (Z.compare_spec a b)
  | H : context [Pos.compare_cont Eq ?a ?b] |- _ =>
      change (Pos.compare_cont Eq a b) with (Pos.compare a b) in *;
      destruct (Pos.compare_spec a b)
  | |- context [Pos.compare_cont Eq ?a ?b] =>
      change (Pos.compare_cont Eq a b) with (Pos.compare a b) in *;
      destruct (Pos.compare_spec a b)
  end.

Ltac float_cases :=
  repeat match goal with
  | x : float |- _ => destruct x as [[]|[]| |[] ? ?]
  | x : spec_float |- _ => destruct x as [[]|[]| |[] ? ?]
  end.

Ltac float_order :=
  unfold flt, fle, SFltb, SFleb, is_nan in *; float_cases; simpl in *;
  try congruence; cmp_cases; simpl in *; try congruence; try lia.

Lemma flt_trans x y z : flt x y = true → flt y z = true → flt x z = true.
Proof. float_order. Qed.

Lemma fle_trans x y z : fle x y = true → fle y z = true → fle x z = true.
Proof. float_order. Qed.

Lemma flt_fle_trans x y z : flt x y = true → fle y z = true → flt x z = true.
Proof. float_order. Qed.

Lemma fle_flt_trans x y z : fle x y = true → flt y z = true → flt x z = true.
Proof. float_order. Qed.

Lemma flt_fle x y : flt x y = true → fle x y = true.
Proof. float_order. Qed.

Lemma fle_refl x : is_nan x = false → fle x x = true.
Proof. float_order. Qed.

Lemma not_flt_fle x y :
  is_nan x = false → is_nan y = false → flt x y = false → fle y x = true.
Proof. float_order. Qed.

Lemma fle_not_flt x y : fle x y = true → flt y x = false.
Proof. float_order. Qed.

Lemma flt_not_nan x y : flt x y = true → is_nan x = false ∧ is_nan y = false.
Proof. float_order; auto. Qed.

Lemma fle_not_nan x y : fle x y = true → is_nan x = false ∧ is_nan y = false.
Proof. float_order; auto. Qed.

Lemma fle_inf_l t : fle inf t = true → t = inf.
Proof. unfold inf. float_order. Qed.


(** Rounding never produces NaN. *)

Lemma shr_1_nonneg r : (0 ≤ shr_m r)%Z → (0 ≤ shr_m (shr_1 r))%Z.
Proof. destruct r as [[|[p|p|]|p] ? ?]; simpl; lia. Qed.

Lemma iter_shr_1_nonneg p : ∀ r, (0 ≤ shr_m r)%Z → (0 ≤ shr_m (SpecFloat.iter_pos shr_1 p r))%Z.
Proof.
  induction p as [p IH|p IH|]; intros r Hr; simpl.
  - apply IH, IH, shr_1_nonneg, Hr.
  - apply IH, IH, Hr.
  - apply shr_1_nonneg, Hr.
Qed.

Lemma shr_fexp_nonneg m e l :
  (0 ≤ m)%Z → (0 ≤ shr_m (shr_fexp prec emax m e l).1)%Z.
Proof.
  intros Hm. unfold shr_fexp, shr.
  assert (0 ≤ shr_m (shr_record_of_loc m l))%Z as H0 by (by destruct l as [|[]]).
  destruct (fexp prec emax (Zdigits2 m + e) - e)%Z; simpl; auto.
  by apply iter_shr_1_nonneg.
Qed.

Lemma round_nearest_even_nonneg m l : (0 ≤ m)%Z → (0 ≤ round_nearest_even m l)%Z.
Proof. intros. destruct l as [|[]]; simpl; try lia. destruct (Z.even m); lia. Qed.

Lemma binary_round_aux_not_nan sx mx ex lx :
  (0 ≤ mx)%Z → is_nan (binary_round_aux prec emax sx mx ex lx) = false.
Proof.
  intros Hm. unfold binary_round_aux.
  pose proof (shr_fexp_nonneg mx ex lx Hm) as H1.
  destruct (shr_fexp prec emax mx ex lx) as [mrs' e'] eqn:E1. simpl in H1.
  pose proof (shr_fexp_nonneg _ e' loc_Exact
                (round_nearest_even_nonneg _ (loc_of_shr_record mrs') H1)) as H2.
  destruct (shr_fexp prec emax _ e' loc_Exact) as [mrs'' e''] eqn:E2. simpl in H2.
  destruct (shr_m mrs''); try lia; try done.
  by destruct (e'' <=? emax - prec)%Z.
Qed.

Lemma binary_normalize_not_nan m e s : is_nan (binary_normalize prec emax m e s) = false.
Proof.
  destruct m as [|p|p]; simpl; try done; unfold binary_round;
    destruct (shl_align _ _ _); by apply binary_round_aux_not_nan.
Qed.

Lemma float_of_int_not_nan z : is_nan (float_of_int z) = false.
Proof. apply binary_normalize_not_nan. Qed.

Lemma int_truediv_finite a b f : int_truediv a b = Ret f → is_finite f = true.
Proof.
  unfold int_truediv. destruct (b =? 0)%Z; [done|].
  match goal with |- context [binary_normalize ?p ?e ?m ?x ?s] =>
    pose proof (binary_normalize_not_nan m x s) as Hn;
    destruct (binary_normalize p e m x s) end; try done; by intros [= <-].
Qed.

Lemma fsub_not_nan x y : is_nan x = false → is_finite y = true → is_nan (fsub x y) = false.
Proof.
  intros Hx Hy. destruct y as [sy| | |sy my ey]; try discriminate;
    destruct x as [sx|sx| |sx mx ex]; try discriminate; unfold fsub, SFsub;
    try apply binary_normalize_not_nan; try reflexivity; by destruct sx, sy.
Qed.

(** Squares, their sums and square roots: no NaN from non-negative
    operands. *)

Lemma binary_round_aux_nonneg mx ex lx :
  (0 ≤ mx)%Z → is_nonneg (binary_round_aux prec emax false mx ex lx) = true.
Proof.
  intros Hm. unfold binary_round_aux.
  pose proof (shr_fexp_nonneg mx ex lx Hm) as H1.
  destruct (shr_fexp prec emax mx ex lx) as [mrs' e'] eqn:E1. simpl in H1.
  pose proof (shr_fexp_nonneg _ e' loc_Exact
                (round_nearest_even_nonneg _ (loc_of_shr_record mrs') H1)) as H2.
  destruct (shr_fexp prec emax _ e' loc_Exact) as [mrs'' e''] eqn:E2. simpl in H2.
  destruct (shr_m mrs''); try lia; try done.
  by destruct (e'' <=? emax - prec)%Z.
Qed.

Lemma fmul_self_nonneg x : is_nan x = false → is_nonneg (fmul x x) = true.
Proof.
  destruct x as [[]|[]| |[] m e]; try done; intros _; unfold fmul, SFmul;
    by apply binary_round_aux_nonneg.
Qed.

Lemma fadd_nonneg x y :
  is_nonneg x = true → is_nonneg y = true → is_nonneg (fadd x y) = true.
Proof.
  destruct x as [[]|[]| |[] mx ex], y as [[]|[]| |[] my ey]; try done; intros _ _.
  unfold fadd, SFadd, cond_Zopp, binary_normalize.
  change (Z.pos ?a + Z.pos ?b)%Z with (Z.pos (a + b)). cbv beta iota.
  unfold binary_round. destruct (shl_align _ _ _). by apply binary_round_aux_nonneg.
Qed.

Lemma fsqrt_not_nan x : is_nonneg x = true → is_nan (fsqrt x) = false.
Proof.
  destruct x as [[]|[]| |[] m e]; try done; intros _. unfold fsqrt, SFsqrt.
  destruct (SFsqrt_core_binary prec emax (Z.pos m) e) as [[mz ez] lz] eqn:Hcore.
  apply binary_round_aux_not_nan.
  unfold SFsqrt_core_binary in Hcore.
  match type of Hcore with context [Z.sqrtrem ?n] =>
    pose proof (Z.sqrtrem_sqrt n) as Hs; destruct (Z.sqrtrem n) as [q r] end.
  simpl in Hs. injection Hcore as <- _ _. subst q. apply Z.sqrt_nonneg.
Qed.

Lemma is_finite_not_nan x : is_finite x = true → is_nan x = false.
Proof. by destruct x. Qed.

(** Induction principles for the loops. *)

Lemma bind_Ret_inv {A B} (m : outcome A) (f : A → outcome B) b :
  m ≫= f = Ret b → ∃ a, m = Ret a ∧ f a = Ret b.
Proof. destruct m; simpl; intros; try discriminate; eauto. Qed.

Lemma foldM_ind_aux {A S} (f : S → A → outcome S) (P : list A → S → Prop) (l : list A) :
  (∀ done x s1 s2, x ∈ l → P done s1 → f s1 x = Ret s2 → P (done ++ [x]) s2) →
  ∀ todo done s1 s, (∀ x, x ∈ todo → x ∈ l) →
    P done s1 → foldM f s1 todo = Ret s → P (done ++ todo) s.
Proof.
  intros Hstep. induction todo as [|x todo IH]; intros done s1 s Hin HP Hf; simpl in Hf.
  - injection Hf as <-. by rewrite app_nil_r.
  - apply bind_Ret_inv in Hf as (s2 & Hx & Hf).
    rewrite cons_middle, app_assoc. eapply IH; [|  |exact Hf].
    + intros y Hy. apply Hin. by right.
    + eapply Hstep; [|done|done]. apply Hin. left.
Qed.

(** A loop invariant [P done s] over the items already visited holds at
    the end of a loop that did not raise. *)
Lemma foldM_ind {A S} (f : S → A → outcome S) (P : list A → S → Prop) l s0 s :
  P [] s0 →
  (∀ done x s1 s2, x ∈ l → P done s1 → f s1 x = Ret s2 → P (done ++ [x]) s2) →
  foldM f s0 l = Ret s → P l s.
Proof. intros H0 Hstep Hf. by apply (foldM_ind_aux f P l Hstep l [] s0 s). Qed.

Lemma foldl_ind_aux {A S} (f : S → A → S) (P : list A → S → Prop) :
  (∀ done x s1, P done s1 → P (done ++ [x]) (f s1 x)) →
  ∀ todo done s1, P done s1 → P (done ++ todo) (foldl f s1 todo).
Proof.
  intros Hstep. induction todo as [|x todo IH]; intros done s1 HP; simpl.
  - by rewrite app_nil_r.
  - rewrite cons_middle, app_assoc. apply IH. eauto.
Qed.

Lemma foldl_ind {A S} (f : S → A → S) (P : list A → S → Prop) l s0 :
  P [] s0 → (∀ done x s1, P done s1 → P (done ++ [x]) (f s1 x)) →
  P l (foldl f s0 l).
Proof. intros H0 Hstep. by apply (foldl_ind_aux f P Hstep l [] s0). Qed.

(** The rounded quotient of a bounded [int] is finite. *)

Section Rounding.
Local Open Scope Z_scope.


Lemma digits2_pos_size p : digits2_pos p = Pos.size p.
Proof. induction p; simpl; congruence. Qed.

Lemma Zdigits2_lt_pow2 m N : 0 < m → m < 2 ^ N → Zdigits2 m ≤ N.
Proof.
  intros Hm Hlt. destruct m as [|p|p]; try lia. simpl. rewrite digits2_pos_size.
  pose proof (Pos.size_le p) as Hle.
  assert (0 ≤ N).
  { destruct (Z_lt_le_dec N 0) as [Hneg|]; [|done]. rewrite Z.pow_neg_r in Hlt; lia. }
  apply Pos2Z.pos_le_pos in Hle. rewrite Pos2Z.inj_pow in Hle.
  destruct (Z_lt_le_dec N (Z.pos (Pos.size p))) as [Hgt|]; [|done].
  assert (2 ^ (N + 1) ≤ 2 ^ Z.pos (Pos.size p)) by (apply Z.pow_le_mono_r; lia).
  rewrite Z.pow_add_r in * by lia. lia.
Qed.

Lemma Zdigits2_ge_pow2 m N : 0 ≤ N → 2 ^ N ≤ m → N < Zdigits2 m.
Proof.
  intros HN Hle. assert (0 < m) by (pose proof (Z.pow_pos_nonneg 2 N); lia).
  destruct m as [|p|p]; try lia. simpl. rewrite digits2_pos_size.
  pose proof (Pos.size_gt p) as Hgt.
  apply Pos2Z.pos_lt_pos in Hgt. rewrite Pos2Z.inj_pow in Hgt.
  destruct (Z_lt_le_dec N (Z.pos (Pos.size p))) as [|Hge]; [done|].
  assert (2 ^ Z.pos (Pos.size p) ≤ 2 ^ N) by (apply Z.pow_le_mono_r; lia). lia.
Qed.

Lemma Zdigits2_succ m : 0 ≤ m → Zdigits2 (m + 1) ≤ Zdigits2 m + 1.
Proof.
  intros Hm. destruct m as [|p|p]; try lia; [simpl; lia|].
  change (Z.pos p + 1) with (Z.pos (p + 1)). simpl. rewrite Pos.add_1_r.
  induction p as [p IH|p IH|]; simpl in *; lia.
Qed.

Lemma Zdigits2_shr_1 s :
  0 ≤ shr_m s → Zdigits2 (shr_m (shr_1 s)) = Z.max 0 (Zdigits2 (shr_m s) - 1).
Proof. destruct s as [[|[p|p|]|p] ? ?]; simpl; lia. Qed.

Lemma Zdigits2_iter_shr_1 p : ∀ s, 0 ≤ shr_m s →
  Zdigits2 (shr_m (SpecFloat.iter_pos shr_1 p s)) = Z.max 0 (Zdigits2 (shr_m s) - Z.pos p).
Proof.
  induction p as [p IH|p IH|]; intros s Hs; simpl.
  - rewrite !IH, Zdigits2_shr_1 by auto using iter_shr_1_nonneg, shr_1_nonneg. lia.
  - rewrite !IH by auto using iter_shr_1_nonneg. lia.
  - by apply Zdigits2_shr_1.
Qed.

Lemma Zdigits2_nonneg m : 0 ≤ Zdigits2 m.
Proof. destruct m; simpl; lia. Qed.

(** After [shr_fexp] the mantissa has at most [prec] digits and the
    exponent is the canonical one. *)
Lemma shr_fexp_digits m e l :
  0 ≤ m → e ≤ fexp prec emax (Zdigits2 m + e) →
  let r := shr_fexp prec emax m e l in
  r.2 = fexp prec emax (Zdigits2 m + e) ∧ 0 ≤ shr_m r.1 ∧ Zdigits2 (shr_m r.1) ≤ prec.
Proof.
  intros Hm He. unfold shr_fexp, shr.
  assert (shr_m (shr_record_of_loc m l) = m) as Hrec by (by destruct l as [|[]]).
  set (d := Zdigits2 m) in *.
  unfold fexp, SpecFloat.emin, prec, emax in *.
  destruct (Z.max (d + e - 53) (3 - 1024 - 53) - e) as [|n|n] eqn:Hn; simpl.
  - rewrite Hrec. fold d. lia.
  - split; [lia|]. split; [apply iter_shr_1_nonneg; lia|].
    rewrite Zdigits2_iter_shr_1, Hrec by lia. fold d. lia.
  - lia.
Qed.

Lemma round_nearest_even_bounds m l :
  m ≤ round_nearest_even m l ≤ m + 1.
Proof. destruct l as [|[]]; simpl; try lia. destruct (Z.even m); lia. Qed.

Lemma Zdigits2_mono a b : 0 ≤ a ≤ b → Zdigits2 a ≤ Zdigits2 b.
Proof.
  intros [Ha Hab]. destruct (decide (a = 0)) as [->|]; [apply Zdigits2_nonneg|].
  destruct (Z_lt_le_dec (Zdigits2 b) (Zdigits2 a)) as [Hlt|]; [|done]. exfalso.
  assert (b < 2 ^ Zdigits2 b).
  { destruct b as [|p|p]; try lia. simpl. rewrite digits2_pos_size.
    pose proof (Pos.size_gt p) as Hgt. apply Pos2Z.pos_lt_pos in Hgt.
    by rewrite Pos2Z.inj_pow in Hgt. }
  pose proof (Zdigits2_lt_pow2 a (Zdigits2 b)). lia.
Qed.

Lemma shr_fexp_exp m e l :
  (shr_fexp prec emax m e l).2 = Z.max e (fexp prec emax (Zdigits2 m + e)).
Proof.
  unfold shr_fexp, shr.
  destruct (fexp prec emax (Zdigits2 m + e) - e) as [|n|n] eqn:Hn; simpl; lia.
Qed.

Lemma binary_round_aux_finite sx mx ex lx :
  0 ≤ mx → ex ≤ fexp prec emax (Zdigits2 mx + ex) → Zdigits2 mx + ex ≤ 1023 →
  is_finite (binary_round_aux prec emax sx mx ex lx) = true.
Proof.
  intros Hm He Hd. unfold binary_round_aux.
  destruct (shr_fexp_digits mx ex lx Hm He) as (He' & Hm1 & Hd1).
  destruct (shr_fexp prec emax mx ex lx) as [mrs' e'] eqn:E1. simpl in He', Hm1, Hd1.
  set (m2 := round_nearest_even (shr_m mrs') (loc_of_shr_record mrs')).
  pose proof (round_nearest_even_bounds (shr_m mrs') (loc_of_shr_record mrs')) as Hm2.
  fold m2 in Hm2.
  assert (Zdigits2 m2 ≤ prec + 1) as Hd2.
  { etrans; [apply (Zdigits2_mono m2 (shr_m mrs' + 1)); lia|].
    pose proof (Zdigits2_succ (shr_m mrs') Hm1). lia. }
  pose proof (shr_fexp_exp m2 e' loc_Exact) as He''.
  pose proof (shr_fexp_nonneg m2 e' loc_Exact ltac:(lia)) as Hm''.
  destruct (shr_fexp prec emax m2 e' loc_Exact) as [mrs'' e''] eqn:E2. simpl in He'', Hm''.
  destruct (shr_m mrs'') as [|m|m]; [done| |lia].
  assert (e'' ≤ emax - prec) as Hok.
  { subst e' e''. unfold fexp, SpecFloat.emin, prec, emax in *. lia. }
  apply Z.leb_le in Hok. by rewrite Hok.
Qed.

Lemma binary_normalize_finite m e s :
  2 ^ 53 ≤ Z.abs m → Z.abs m < 2 ^ (1023 - e) →
  is_finite (binary_normalize prec emax m e s) = true.
Proof.
  intros Hlo Hhi.
  assert (∀ p sx, 2 ^ 53 ≤ Z.pos p → Z.pos p < 2 ^ (1023 - e) →
            is_finite (binary_round prec emax sx p e) = true) as Hround.
  { intros p sx Hp1 Hp2. unfold binary_round.
    pose proof (Zdigits2_ge_pow2 (Z.pos p) 53 ltac:(lia) Hp1) as Hd1.
    pose proof (Zdigits2_lt_pow2 (Z.pos p) (1023 - e) ltac:(lia) Hp2) as Hd2.
    simpl in Hd1, Hd2.
    assert (e ≤ fexp prec emax (Z.pos (digits2_pos p) + e)) as He.
    { unfold fexp, SpecFloat.emin, prec, emax. lia. }
    unfold shl_align.
    destruct (fexp prec emax (Z.pos (digits2_pos p) + e) - e) eqn:Hn; try lia;
      apply binary_round_aux_finite; simpl; lia. }
  destruct m as [|p|p]; simpl; [done| |]; apply Hround; lia.
Qed.

Lemma int_truediv_100_Ret a : Z.abs a < 2 ^ 1000 → ∃ f, int_truediv a 100 = Ret f.
Proof.
  intros Ha. unfold int_truediv.
  change (100 =? 0) with false. cbv iota.
  change (Z.log2 (Z.abs 100) + 65) with 71. change (Z.abs 100) with 100.
  change (- (71 + 1)) with (-72).
  set (n := Z.abs a * 2 ^ 71).
  set (m := 2 * (n / 100) + (if n mod 100 =? 0 then 0 else 1)).
  destruct (decide (a = 0)) as [->|Hne].
  { vm_compute. eauto. }
  assert (2 ^ 53 ≤ m < 2 ^ 1095) as [Hlo Hhi].
  { assert (2 ^ 71 ≤ n < 2 ^ 1000 * 2 ^ 71) as [Hn1 Hn2] by (unfold n; lia).
    assert (2 ^ 64 ≤ n / 100) as Hq1.
    { etrans; [|apply (Z.div_le_mono (2 ^ 71) n 100); lia]. by vm_compute. }
    assert (n / 100 < 2 ^ 1065) as Hq2.
    { apply Z.div_lt_upper_bound; [lia|]. change (2 ^ 1000 * 2 ^ 71) with (2 ^ 1071) in Hn2.
      change (2 ^ 1065) with (2 ^ 1065) . lia. }
    unfold m. destruct (n mod 100 =? 0); lia. }
  assert (is_finite (binary_normalize prec emax
            (if xorb (a <? 0) (100 <? 0) then - m else m) (-72)
            (xorb (a <? 0) (100 <? 0))) = true) as Hfin.
  { apply binary_normalize_finite; destruct (xorb _ _); change (1023 - -72) with 1095; lia. }
  destruct (binary_normalize _ _ _ _ _); try done; eauto.
Qed.

Lemma Zdigits2_pow2_le m N : 0 ≤ m → 0 ≤ N → N < Zdigits2 m → 2 ^ N ≤ m.
Proof.
  intros Hm HN Hd. destruct (Z_lt_le_dec m (2 ^ N)) as [Hlt|]; [|done].
  destruct (Z_lt_le_dec 0 m) as [Hpos|Hnp].
  - pose proof (Zdigits2_lt_pow2 m N Hpos Hlt). lia.
  - destruct m; simpl in Hd; lia.
Qed.

(** In the normal range the mantissa [shr_fexp] leaves has exactly [prec]
    digits. *)
Lemma shr_fexp_digits_normal m e l :
  0 ≤ m → prec ≤ Zdigits2 m → SpecFloat.emin prec emax ≤ Zdigits2 m + e - prec →
  let r := shr_fexp prec emax m e l in
  r.2 = Zdigits2 m + e - prec ∧ Zdigits2 (shr_m r.1) = prec.
Proof.
  intros Hm Hd He. unfold shr_fexp, shr.
  assert (shr_m (shr_record_of_loc m l) = m) as Hrec by (by destruct l as [|[]]).
  set (d := Zdigits2 m) in *.
  unfold fexp, SpecFloat.emin, prec, emax in *.
  destruct (Z.max (d + e - 53) (3 - 1024 - 53) - e) as [|n|n] eqn:Hn; simpl.
  - rewrite Hrec. fold d. lia.
  - split; [lia|].
    rewrite Zdigits2_iter_shr_1, Hrec by lia. fold d. lia.
  - lia.
Qed.

(** The float a large enough positive mantissa rounds to: its exponent is
    the canonical one with a full mantissa, or a larger one. *)
Lemma binary_round_aux_normal mx ex lx :
  0 ≤ mx → prec ≤ Zdigits2 mx →
  SpecFloat.emin prec emax ≤ Zdigits2 mx + ex - prec →
  match binary_round_aux prec emax false mx ex lx with
  | S754_finite false m e =>
      (e = Zdigits2 mx + ex - prec ∧ 2 ^ 52 ≤ Z.pos m) ∨ Zdigits2 mx + ex - prec < e
  | S754_infinity false => True
  | _ => False
  end.
Proof.
  intros Hm Hd He. unfold binary_round_aux.
  destruct (shr_fexp_digits_normal mx ex lx Hm Hd He) as (He' & Hd1).
  pose proof (shr_fexp_nonneg mx ex lx Hm) as Hm1.
  destruct (shr_fexp prec emax mx ex lx) as [mrs' e'] eqn:E1. simpl in He', Hm1, Hd1.
  set (m2 := round_nearest_even (shr_m mrs') (loc_of_shr_record mrs')).
  pose proof (round_nearest_even_bounds (shr_m mrs') (loc_of_shr_record mrs')) as Hm2.
  fold m2 in Hm2.
  assert (prec ≤ Zdigits2 m2 ≤ prec + 1) as Hd2.
  { split.
    - rewrite <-Hd1. apply Zdigits2_mono. lia.
    - etrans; [apply (Zdigits2_mono m2 (shr_m mrs' + 1)); lia|].
      pose proof (Zdigits2_succ (shr_m mrs') Hm1). lia. }
  assert (2 ^ 52 ≤ m2) as Hbig.
  { etrans; [|apply Hm2]. apply Zdigits2_pow2_le; unfold prec in *; lia. }
  unfold shr_fexp, shr.
  assert (fexp prec emax (Zdigits2 m2 + e') - e' = Zdigits2 m2 - prec) as ->.
  { unfold fexp, SpecFloat.emin, prec, emax in *. lia. }
  destruct (Z_le_lt_eq_dec _ _ (proj1 Hd2)) as [Hlt|Heq].
  - assert (Zdigits2 m2 - prec = 1) as -> by lia. simpl.
    pose proof (Zdigits2_shr_1 {| shr_m := m2; shr_r := false; shr_s := false |}
                  ltac:(simpl; lia)) as Hd3. simpl in Hd3.
    destruct m2 as [|[p|p|]|p]; simpl in *; try lia;
      destruct (_ <=? _); try done; right; lia.
  - rewrite <-Heq, Z.sub_diag. simpl. destruct m2 as [|p|p]; try lia.
    destruct (_ <=? _); [|done]. left. split; [lia|done].
Qed.


(** Quotients by 100 of amounts of at least 100 are at least 1.0. *)

Lemma float_of_int_1 : float_of_int 1 = S754_finite false 4503599627370496 (-52).
Proof. by vm_compute. Qed.

Lemma binary_round_ge_one p :
  2 ^ 72 ≤ Z.pos p →
  match binary_round prec emax false p (-72) with
  | S754_finite false m e => fle (float_of_int 1) (S754_finite false m e) = true
  | S754_infinity false => True
  | _ => False
  end.
Proof.
  intros Hp. unfold binary_round.
  pose proof (Zdigits2_ge_pow2 (Z.pos p) 72 ltac:(lia) Hp) as Hd. simpl in Hd.
  assert (fexp prec emax (Z.pos (digits2_pos p) + -72) - -72
          = Z.pos (digits2_pos p) - 53) as Hfexp.
  { unfold fexp, SpecFloat.emin, prec, emax. lia. }
  unfold shl_align. rewrite Hfexp.
  pose proof (binary_round_aux_normal (Z.pos p) (-72) loc_Exact ltac:(lia)) as Hshape.
  unfold Zdigits2, SpecFloat.emin, prec, emax in Hshape.
  specialize (Hshape ltac:(lia) ltac:(lia)).
  assert (match binary_round_aux prec emax false (Z.pos p) (-72) loc_Exact with
  | S754_finite false m e => fle (float_of_int 1) (S754_finite false m e) = true
  | S754_infinity false => True
  | _ => False
  end) as Hgoal.
  { fold prec emax in Hshape.
    destruct (binary_round_aux prec emax false (Z.pos p) (-72) loc_Exact)
       as [|[]| |[] mf ef]; try done.
    rewrite float_of_int_1. unfold fle, SFleb, SFcompare.
    destruct Hshape as [[-> Hmf]|Hef].
    - destruct (Z.compare_spec (-52) (Z.pos (digits2_pos p) + -72 - prec)) as [Heq|Hlt|Hgt];
        [|done|unfold prec in Hgt; lia].
      change (Pos.compare_cont Eq 4503599627370496 mf) with (Pos.compare 4503599627370496 mf).
      destruct (Pos.compare_spec 4503599627370496 mf) as [?|?|Hlt]; try done.
      change (2 ^ 52) with 4503599627370496 in Hmf. apply Pos2Z.pos_lt_pos in Hlt. clear -Hmf Hlt. lia.
    - destruct (Z.compare_spec (-52) ef); try done; unfold prec in *; lia. }
  destruct (Z.pos (digits2_pos p) - 53) eqn:Hn; try lia; exact Hgoal.
Qed.

Lemma int_truediv_100_ge_one a f :
  100 ≤ a → int_truediv a 100 = Ret f → fle (float_of_int 1) f = true.
Proof.
  intros Ha. unfold int_truediv.
  change (100 =? 0) with false. cbv iota.
  change (Z.log2 (Z.abs 100) + 65) with 71. change (Z.abs 100) with 100.
  change (- (71 + 1)) with (-72). change (100 <? 0) with false.
  assert ((a <? 0) = false) as -> by lia. rewrite Z.abs_eq by lia. simpl xorb. cbv iota.
  set (n := a * 2 ^ 71).
  set (m := 2 * (n / 100) + (if n mod 100 =? 0 then 0 else 1)).
  assert (2 ^ 72 ≤ m) as Hlo.
  { assert (2 ^ 71 ≤ n / 100) as Hq.
    { apply Z.div_le_lower_bound; [lia|]. unfold n. lia. }
    unfold m. destruct (n mod 100 =? 0); lia. }
  clearbody m. clear n. destruct m as [|p|p]; try lia.
  pose proof (binary_round_ge_one p Hlo) as Hshape.
  change (binary_normalize prec emax (Z.pos p) (-72) false)
    with (binary_round prec emax false p (-72)).
  destruct (binary_round prec emax false p (-72)) as [|[]| |[] mf ef]; try done.
  by intros [= <-].
Qed.

(** The penalty of a selection that costs at least 100 outweighs a zero
    interest score: the score is at most -1. *)
Lemma float_of_int_minus_1 : float_of_int (-1) = S754_finite true 4503599627370496 (-52).
Proof. by vm_compute. Qed.

Lemma fsub_zero_le_minus_one f :
  fle (float_of_int 1) f = true → fle (fsub (float_of_int 0) f) minus_one = true.
Proof.
  unfold minus_one. rewrite float_of_int_1, float_of_int_minus_1.
  change (float_of_int 0) with (S754_zero false).
  unfold fle, SFleb, fsub, SFsub, SFcompare.
  destruct f as [[]|[]| |[] m e]; try done. cbn [negb].
  intros H.
  rewrite (Z.compare_antisym (-52) e), (Pos.compare_cont_antisym m 4503599627370496 Eq).
  cbn [CompOpp].
  destruct (-52 ?= e); cbn [CompOpp]; try done.
Qed.

End Rounding.

Lemma foldM_Ret {A S} (f : S → A → outcome S) (l : list A) :
  (∀ s x, x ∈ l → ∃ s', f s x = Ret s') → ∀ s, ∃ s', foldM f s l = Ret s'.
Proof.
  induction l as [|x l IH]; intros Hf s; simpl; [eauto|].
  destruct (Hf s x) as (s1 & ->); [left|]. simpl.
  apply IH. intros s2 y Hy. apply Hf. by right.
Qed.

(** What [min] and [sort] return. *)

Section MinFacts.
Context {A : Type} (key : A → float).

Lemma min_from_elem (l : list A) : ∀ b, min_from key b l ∈ b :: l.
Proof.
  induction l as [|x xs IH]; intros b; simpl; [left|].
  specialize (IH (if flt (key x) (key b) then x else b)).
  apply elem_of_cons in IH as [->|IH].
  - destruct (flt (key x) (key b)); [right; left|left].
  - by do 2 right.
Qed.

Lemma min_by_elem (l : list A) x : min_by key l = Ret x → x ∈ l.
Proof. destruct l; simpl; [done|]. intros [= <-]. apply min_from_elem. Qed.

Lemma min_by_Ret (l : list A) : l ≠ [] → ∃ x, min_by key l = Ret x.
Proof. destruct l; [done|]. simpl. eauto. Qed.

(** The result of [min] is strictly below every earlier item and not above
    any later one (when no key is NaN). *)
Lemma min_from_first (l : list A) : ∀ pre b mid,
  (∀ y, y ∈ pre ++ b :: mid ++ l → is_nan (key y) = false) →
  (∀ y, y ∈ pre → flt (key b) (key y) = true) →
  (∀ y, y ∈ mid → fle (key b) (key y) = true) →
  ∃ l1 l2, pre ++ b :: mid ++ l = l1 ++ min_from key b l :: l2 ∧
    (∀ y, y ∈ l1 → flt (key (min_from key b l)) (key y) = true) ∧
    (∀ y, y ∈ l2 → fle (key (min_from key b l)) (key y) = true).
Proof.
  induction l as [|x xs IH]; intros pre b mid Hnan Hpre Hmid; simpl.
  - exists pre, mid. by rewrite app_nil_r.
  - destruct (flt (key x) (key b)) eqn:Hx.
    + destruct (IH (pre ++ b :: mid) x []) as (l1 & l2 & Heq & H1 & H2).
      * intros y Hy. apply Hnan. by rewrite <-app_assoc in Hy.
      * intros y [Hy|[->|Hy]%elem_of_cons]%elem_of_app.
        -- eapply flt_trans; eauto.
        -- done.
        -- eapply flt_fle_trans; eauto.
      * by intros y ?%elem_of_nil.
      * exists l1, l2. split; [|done]. rewrite <-Heq. by rewrite <-app_assoc.
    + destruct (IH pre b (mid ++ [x])) as (l1 & l2 & Heq & H1 & H2).
      * intros y Hy. apply Hnan. by rewrite <-app_assoc in Hy.
      * done.
      * intros y [Hy|Hy%list_elem_of_singleton]%elem_of_app; [by apply Hmid|subst y].
        apply not_flt_fle; [| |done]; apply Hnan; set_solver.
      * exists l1, l2. split; [|done]. rewrite <-Heq. by rewrite <-app_assoc.
Qed.

Lemma min_by_first (l : list A) x :
  (∀ y, y ∈ l → is_nan (key y) = false) →
  min_by key l = Ret x →
  ∃ l1 l2, l = l1 ++ x :: l2 ∧
    (∀ y, y ∈ l1 → flt (key x) (key y) = true) ∧
    (∀ y, y ∈ l2 → fle (key x) (key y) = true).
Proof.
  destruct l as [|b l]; simpl; [done|]. intros Hnan [= <-].
  apply (min_from_first l [] b []); [done| |]; by intros y ?%elem_of_nil.
Qed.

End MinFacts.

Lemma insert_desc_perm {A} (key : A → float) x l : insert_desc key x l ≡ₚ x :: l.
Proof.
  induction l as [|y ys IH]; simpl; [done|].
  destruct (flt (key x) (key y)); [|done]. rewrite IH. apply Permutation_swap.
Qed.

Lemma sort_desc_perm {A} (key : A → float) l : sort_desc key l ≡ₚ l.
Proof.
  induction l as [|x l IH]; simpl; [done|].
  unfold sort_desc in *. simpl. by rewrite insert_desc_perm, IH.
Qed.

Lemma length_removelast_cons {A} (x : A) l : length (removelast (x :: l)) = length l.
Proof. rewrite removelast_firstn_len, length_take. simpl. lia. Qed.

Lemma removelast_prefix {A} (l : list A) : removelast l `prefix_of` l.
Proof. rewrite removelast_firstn_len. apply prefix_take. Qed.

End PyFacts.


(** ** itertools: what the enumerations contain *)

Lemma elem_of_flat_map {A B} (f : A → list B) (l : list A) (y : B) :
  y ∈ flat_map f l ↔ ∃ x, x ∈ l ∧ y ∈ f x.
Proof.
  rewrite list_elem_of_In, in_flat_map.
  split; intros (x & H1 & H2); exists x; by rewrite ?list_elem_of_In in *.
Qed.

Module ItertoolsFacts.
Import Itertools.

Lemma elem_of_combinations {A} (l : list A) : ∀ r c,
  c ∈ combinations l r ↔ c `sublist_of` l ∧ length c = r.
Proof.
  induction l as [|x xs IH]; intros r c.
  - destruct r; simpl.
    + rewrite list_elem_of_singleton. split.
      * intros ->. split; [constructor|done].
      * intros [_ Hlen]. by destruct c.
    + split; [by intros ?%elem_of_nil|]. intros [Hs Hlen].
      apply sublist_nil_r in Hs. by subst.
  - destruct r as [|r]; simpl.
    + rewrite list_elem_of_singleton. split.
      * intros ->. split; [apply sublist_nil_l|done].
      * intros [_ Hlen]. by destruct c.
    + rewrite elem_of_app, list_elem_of_fmap, sublist_cons_r. split.
      * intros [(c' & -> & Hc')|Hc].
        -- apply IH in Hc' as [Hs Hlen]. split; [|simpl; lia]. right. eauto.
        -- apply IH in Hc as [Hs Hlen]. split; [by left|done].
      * intros [[Hs|(c' & -> & Hs)] Hlen].
        -- right. apply IH. done.
        -- left. exists c'. split; [done|]. apply IH. simpl in Hlen. split; [done|lia].
Qed.

Lemma picks_perm {A} (l : list A) x rest :
  (x, rest) ∈ picks l → l ≡ₚ x :: rest.
Proof.
  revert x rest. induction l as [|y ys IH]; intros x rest; simpl.
  - by intros ?%elem_of_nil.
  - rewrite elem_of_cons, list_elem_of_fmap. intros [[= -> ->]|([z zs] & [= -> ->] & Hp)].
    + done.
    + simpl. apply IH in Hp. rewrite Hp. apply Permutation_swap.
Qed.

Lemma picks_elem {A} (l : list A) x :
  x ∈ l → ∃ rest, (x, rest) ∈ picks l.
Proof.
  induction l as [|y ys IH]; [by intros ?%elem_of_nil|].
  rewrite elem_of_cons. intros [->|Hx]; simpl.
  - exists ys. left.
  - destruct (IH Hx) as (rest & Hr). exists (y :: rest). right.
    apply list_elem_of_fmap. by exists (x, rest).
Qed.

Lemma elem_of_perms_upto {A} n : ∀ (l q : list A),
  length l = n → q ∈ perms_upto n l ↔ q ≡ₚ l.
Proof.
  induction n as [|n IH]; intros l q Hlen; simpl.
  - destruct l; [|done]. rewrite list_elem_of_singleton. split; [by intros ->|].
    intros Hq. by apply Permutation_nil_r in Hq.
  - rewrite elem_of_flat_map. split.
    + intros ([x rest] & Hp & Hq). simpl in Hq.
      apply list_elem_of_fmap in Hq as (q' & -> & Hq').
      pose proof (picks_perm _ _ _ Hp) as Hl.
      apply IH in Hq'; [by rewrite Hl, Hq'|].
      apply Permutation_length in Hl. simpl in Hl. lia.
    + intros Hq. destruct q as [|x q'].
      { apply Permutation_length in Hq. simpl in Hq. lia. }
      assert (x ∈ l) as Hx by (rewrite <-Hq; left).
      destruct (picks_elem _ _ Hx) as (rest & Hp). exists (x, rest). split; [done|].
      simpl. apply list_elem_of_fmap. exists q'. split; [done|].
      pose proof (picks_perm _ _ _ Hp) as Hl.
      apply IH.
      * apply Permutation_length in Hl. simpl in Hl. lia.
      * rewrite Hl in Hq. by apply Permutation_cons_inv in Hq.
Qed.

Lemma elem_of_permutations {A} (l q : list A) : q ∈ permutations l ↔ q ≡ₚ l.
Proof. by apply elem_of_perms_upto. Qed.

End ItertoolsFacts.

Import PyFacts ItertoolsFacts.

(** Distances between spots with finite coordinates are never NaN. *)
Lemma distance_to_not_nan a b :
  finite_coordinates a → finite_coordinates b → is_nan (distance_to a b) = false.
Proof.
  intros [Ha1 Ha2] [Hb1 Hb2]. unfold distance_to.
  apply fsqrt_not_nan, fadd_nonneg; apply fmul_self_nonneg, fsub_not_nan;
    auto using is_finite_not_nan.
Qed.

(** ** The optimizer *)

Section OptimizerFacts.
Variable heap : ref → TouristSpot.
Variable set_order : gset ref → list ref.
(** Iterating over a set yields each of its members once. *)
Hypothesis set_order_perm : ∀ X, set_order X ≡ₚ elements X.

Lemma sum_fees_app l k : sum_fees heap (l ++ k) = (sum_fees heap l + sum_fees heap k)%Z.
Proof. induction l as [|x l IH]; simpl; [done|]. unfold sum_fees in *. simpl. lia. Qed.

Lemma sum_fees_perm l k : l ≡ₚ k → sum_fees heap l = sum_fees heap k.
Proof.
  induction 1 as [|x l k _ IH|x y l|l k m _ IH1 _ IH2]; unfold sum_fees in *; simpl;
    lia || congruence.
Qed.

Lemma sum_interest_perm I l k : l ≡ₚ k → sum_interest heap I l = sum_interest heap I k.
Proof.
  induction 1 as [|x l k _ IH|x y l|l k m _ IH1 _ IH2]; unfold sum_interest in *; simpl;
    lia || congruence.
Qed.

Lemma sum_fees_submseteq l k :
  (∀ r, r ∈ k → (0 ≤ entry_fee (heap r))%Z) → l ⊆+ k →
  (sum_fees heap l ≤ sum_fees heap k)%Z.
Proof.
  intros Hk Hsub. revert Hk.
  induction Hsub as [|x l k _ IH|x y l|x l k _ IH|l k m H1 IH1 H2 IH2]; intros Hk;
    unfold sum_fees in *; simpl.
  - done.
  - assert (∀ r, r ∈ k → (0 ≤ entry_fee (heap r))%Z) by (intros; apply Hk; by right).
    specialize (IH H). lia.
  - lia.
  - assert (∀ r, r ∈ k → (0 ≤ entry_fee (heap r))%Z) by (intros; apply Hk; by right).
    specialize (IH H). specialize (Hk x ltac:(left)). lia.
  - specialize (IH2 Hk).
    assert (∀ r, r ∈ k → (0 ≤ entry_fee (heap r))%Z) as Hk'
      by (intros r Hr; apply Hk; by eapply elem_of_submseteq).
    specialize (IH1 Hk'). lia.
Qed.

(** *** [_nearest_neighbor] *)

Lemma nn_loop_spec fuel : ∀ route remaining,
  route ≠ [] → size remaining ≤ fuel →
  ∃ out, nn_loop heap set_order fuel route remaining = Ret (route ++ out)
         ∧ out ≡ₚ elements remaining.
Proof.
  induction fuel as [|fuel IH]; intros route remaining Hroute Hsize.
  - apply Nat.le_0_r, size_empty_iff, leibniz_equiv in Hsize as ->. simpl.
    exists []. by rewrite app_nil_r, elements_empty.
  - simpl. destruct (decide (remaining = ∅)) as [->|Hne].
    { exists []. by rewrite app_nil_r, elements_empty. }
    destruct (last route) as [current|] eqn:Hlast;
      [|by apply last_None in Hlast].
    destruct (min_by_Ret (λ s, distance_to (heap current) (heap s))
                (set_order remaining)) as (nearest & Hmin).
    { intros Hnil. apply Hne, leibniz_equiv, elements_empty_inv.
      apply Permutation_nil_r. by rewrite <-set_order_perm, Hnil. }
    rewrite Hmin. simpl.
    assert (nearest ∈ remaining) as Hin.
    { apply elem_of_elements. rewrite <-set_order_perm. by eapply min_by_elem. }
    rewrite decide_True by done.
    destruct (IH (route ++ [nearest]) (remaining ∖ {[nearest]})) as (out & Hout & Hperm).
    + by destruct route.
    + assert (size (remaining ∖ {[nearest]}) = size remaining - 1) as ->; [|lia].
      rewrite size_difference; [by rewrite size_singleton|by apply singleton_subseteq_l].
    + exists (nearest :: out). split.
      * by rewrite Hout, <-app_assoc.
      * rewrite Hperm, <-elements_union_singleton,
          <-union_difference_singleton_L; [done|done|].
        apply not_elem_of_difference. right. by apply elem_of_singleton.
Qed.

Lemma nearest_neighbor_spec (l : list ref) :
  ∃ l', _nearest_neighbor heap set_order l = Ret l' ∧
    head l' = head l ∧ l' ⊆+ l ∧ (NoDup l → l' ≡ₚ l) ∧
    (length l ≤ 1 → l' = l) ∧ (∀ x, x ∈ l' ↔ x ∈ l).
Proof.
  destruct l as [|s0 [|s1 rest]]; simpl.
  - exists []. by repeat split.
  - exists [s0]. by repeat split.
  - destruct (nn_loop_spec (size (list_to_set (C := gset ref) (s1 :: rest))) [s0]
               (list_to_set (s1 :: rest))) as (out & Hout & Hperm); [done|done|].
    simpl in Hout. exists (s0 :: out). split; [exact Hout|].
    assert (∀ x, x ∈ out ↔ x ∈ s1 :: rest) as Hmem.
    { intros x. rewrite Hperm, elem_of_elements, elem_of_list_to_set. done. }
    split; [done|]. split; [|split; [|split]].
    + apply submseteq_skip, NoDup_submseteq; [|by intros x ?%Hmem].
      rewrite Hperm. apply NoDup_elements.
    + intros [_ Hnd]%NoDup_cons. constructor. rewrite Hperm.
      by apply elements_list_to_set.
    + simpl. lia.
    + intros x. rewrite !(elem_of_cons _ x s0), Hmem. done.
Qed.

(** *** [greedy_heuristic] *)

Lemma score_spots_snd I l scored :
  score_spots heap l I = Ret scored → scored.*2 = l.
Proof.
  revert scored. induction l as [|x l IH]; intros scored; simpl.
  - by intros [= <-].
  - intros (c & _ & H)%bind_Ret_inv. apply bind_Ret_inv in H as (sc & Hsc & [= <-]).
    simpl. f_equal. by apply IH.
Qed.

Lemma score_spots_Ret I l :
  (∀ r, r ∈ l → ∃ f, int_truediv (- entry_fee (heap r)) 100 = Ret f) →
  ∃ scored, score_spots heap l I = Ret scored.
Proof.
  induction l as [|x l IH]; intros Hdiv; simpl; [eauto|].
  destruct (Hdiv x) as (f & ->); [left|]. simpl.
  destruct IH as (sc & ->); [intros; apply Hdiv; by right|]. simpl. eauto.
Qed.


Lemma select_spec sorted budget time_available :
  select_inv heap budget time_available sorted.*2 (select heap sorted budget time_available).
Proof.
  unfold select.
  apply (foldl_ind _ (λ done st, select_inv heap budget time_available done.*2 st)).
  - split; simpl; try done. by intros _; repeat split; intros r ?%elem_of_nil.
  - intros done [sc spot] st [Hsub Hbud Hnn Hfirst Hempty].
    rewrite fmap_app. simpl. unfold select_step.
    destruct (bool_decide _ && fle _ _) eqn:Hacc.
    + apply andb_true_iff in Hacc as [Hfee%bool_decide_eq_true Htime].
      split; simpl.
      * by apply sublist_app.
      * rewrite sum_fees_app. unfold sum_fees at 2. simpl. lia.
      * intros _. lia.
      * intros _. destruct (selected st) as [|s0 sel] eqn:Hsel.
        -- destruct Hempty as (Hb & Ht & _); [done|].
           simpl in Htime. rewrite Ht in Htime. rewrite Hb in Hfee.
           exists spot. split; [|done]. apply elem_of_app. right. left.
        -- destruct Hfirst as (r & Hr & ?); [done|].
           exists r. split; [|done]. apply elem_of_app. by left.
      * intros Hnil. by destruct (selected st).
    + split; simpl; try done.
      * apply sublist_inserts_r. done.
      * intros Hne. destruct (Hfirst Hne) as (r & Hr & ?).
        exists r. split; [|done]. apply elem_of_app. by left.
      * intros Hnil. destruct (Hempty Hnil) as (Hb & Ht & Hall). repeat split; try done.
        intros r [Hr|Hr%list_elem_of_singleton]%elem_of_app; [by apply Hall|subst r].
        rewrite Hnil, Hb, Ht in Hacc. simpl in Hacc.
        intros [Hfee Htime]. rewrite Htime, bool_decide_eq_true_2 in Hacc; done.
Qed.

Lemma route_time_single x : route_time heap [x] = two.
Proof. reflexivity. Qed.

Lemma fle_two_of_first t : fle (fadd two half) t = true → fle two t = true.
Proof. apply fle_trans. reflexivity. Qed.

Lemma repair_spec fuel : ∀ cur t, length cur ≤ fuel →
  ∃ it, repair heap set_order fuel cur t = Ret it ∧
    it = Itinerary_init heap (spots it) "Greedy Heuristic" ∧
    (spots it = [] ∨
     ∃ pre, pre `prefix_of` cur ∧ pre ≠ [] ∧
       _nearest_neighbor heap set_order pre = Ret (spots it) ∧
       fle (total_time it) t = true).
Proof.
  induction fuel as [|fuel IH]; intros cur t Hlen.
  - destruct cur; [|simpl in Hlen; lia]. simpl. eexists. split; [done|]. split; [done|by left].
  - destruct cur as [|x rest]; simpl.
    { eexists. split; [done|]. split; [done|by left]. }
    destruct (nearest_neighbor_spec (x :: rest))
      as (route & Hnn & _).
    change (match rest with [] => Ret (x :: rest) | _ :: _ => _ end)
      with (_nearest_neighbor heap set_order (x :: rest)).
    rewrite Hnn. simpl.
    destruct (fle (_calculate_time heap route) t) eqn:Hfit.
    + eexists. split; [done|]. split; [done|]. right. exists (x :: rest).
      split; [done|]. split; [done|]. by split.
    + change (match rest with [] => [] | _ :: _ => x :: removelast rest end)
        with (removelast (x :: rest)).
      destruct (IH (removelast (x :: rest)) t) as (it & Hit & Hinit & Hcases).
      { rewrite length_removelast_cons. simpl in Hlen. lia. }
      exists it. split; [done|]. split; [done|].
      destruct Hcases as [?|(pre & Hpre & ?)]; [by left|right].
      exists pre. split; [|done]. etrans; [exact Hpre|apply removelast_prefix].
Qed.

Lemma repair_nonempty fuel : ∀ cur t it,
  length cur ≤ fuel → cur ≠ [] → fle two t = true →
  repair heap set_order fuel cur t = Ret it → spots it ≠ [].
Proof.
  induction fuel as [|fuel IH]; intros cur t it Hlen Hne Htwo.
  - destruct cur; [done|simpl in Hlen; lia].
  - destruct cur as [|x [|y rest]]; [done| |].
    + simpl. unfold _calculate_time. rewrite route_time_single, Htwo. by intros [= <-].
    + destruct (nearest_neighbor_spec (x :: y :: rest))
        as (route & Hnn & Hhead & _).
      cbn [repair]. rewrite Hnn. cbn [mbind outcome_bind].
      destruct (fle (total_time _) t).
      * intros [= <-]. simpl. intros ->. done.
      * apply IH; [rewrite length_removelast_cons; simpl in *; lia|by simpl|done].
Qed.

Lemma greedy_spec l b t I it :
  greedy_heuristic heap set_order l b t I = Ret it →
  it = Itinerary_init heap (spots it) "Greedy Heuristic" ∧
  spots it ⊆+ l ∧
  (spots it ≠ [] → fle (total_time it) t = true) ∧
  ((∀ r, r ∈ l → (0 ≤ entry_fee (heap r))%Z) → spots it ≠ [] →
     (sum_fees heap (spots it) ≤ b)%Z) ∧
  (spots it = [] ↔
     ∀ r, r ∈ l → ¬ ((entry_fee (heap r) ≤ b)%Z ∧ fle (fadd two half) t = true)).
Proof.
  unfold greedy_heuristic. intros (scored & Hsc & Hit)%bind_Ret_inv.
  pose proof (select_spec (sort_desc fst scored) b t) as [Hsub Hbud Hnn Hfirst Hempty].
  assert ((sort_desc fst scored).*2 ≡ₚ l) as Hperm.
  { rewrite <-(score_spots_snd I l scored Hsc). apply fmap_Permutation, sort_desc_perm. }
  set (sel := selected (select heap (sort_desc fst scored) b t)) in *.
  assert (sel ⊆+ l) as Hsel by (rewrite <-Hperm; by apply sublist_submseteq).
  destruct sel as [|s0 sel'] eqn:Esel.
  - injection Hit as <-. simpl. split; [done|]. split; [apply submseteq_nil_l|].
    split; [done|]. split; [done|]. split; [|done]. intros _ r Hr.
    destruct Hempty as (_ & _ & Hall); [done|]. apply Hall. by rewrite Hperm.
  - destruct (repair_spec (length (s0 :: sel')) (s0 :: sel') t) as (it' & Hit' & Hinit & Hcases);
      [done|].
    rewrite Hit in Hit'. injection Hit' as <-.
    assert (spots it ≠ []) as Hne.
    { destruct Hfirst as (_ & _ & _ & Hfirst); [done|].
      eapply repair_nonempty; [| |by apply fle_two_of_first|exact Hit]; done. }
    destruct Hcases as [?|(pre & [k Hk] & Hpre & Hroute & Hfit)]; [done|].
    destruct (nearest_neighbor_spec pre)
      as (route & Hnn' & _ & Hroute_sub & _).
    rewrite Hroute in Hnn'. injection Hnn' as <-.
    assert (spots it ⊆+ s0 :: sel') as Hsub'.
    { etrans; [exact Hroute_sub|]. rewrite Hk. by apply submseteq_inserts_r. }
    split; [done|]. split; [by etrans|]. split; [done|]. split.
    + intros Hfees _.
      etrans; [apply sum_fees_submseteq; [|exact Hsub']|].
      * intros r Hr. apply Hfees. by eapply elem_of_submseteq.
      * specialize (Hnn ltac:(done)). lia.
    + split; [done|]. intros Hall. exfalso.
      destruct Hfirst as (r & Hr & Hfee & Htime); [done|].
      apply (Hall r); [by rewrite <-Hperm|done].
Qed.

Lemma greedy_total l b t I :
  (∀ r, r ∈ l → ∃ f, int_truediv (- entry_fee (heap r)) 100 = Ret f) →
  ∃ it, greedy_heuristic heap set_order l b t I = Ret it.
Proof.
  intros Hdiv. unfold greedy_heuristic.
  destruct (score_spots_Ret I l Hdiv) as (scored & ->). simpl.
  destruct (selected _) as [|s0 sel] eqn:Hsel; [eauto|].
  destruct (repair_spec (length (s0 :: sel)) (s0 :: sel) t)
    as (it & Hit & _); [done|]. eauto.
Qed.

(** *** [brute_force] *)

Lemma calculate_time_nonempty l : l ≠ [] → _calculate_time heap l = route_time heap l.
Proof. by destruct l. Qed.

Lemma best_perm_spec subset :
  ((best_perm heap subset).1 = None → (best_perm heap subset).2 = inf) ∧
  (∀ p, (best_perm heap subset).1 = Some p →
        p ≡ₚ subset ∧ (best_perm heap subset).2 = route_time heap p) ∧
  is_nan (best_perm heap subset).2 = false ∧
  (∀ q, q ≡ₚ subset → is_nan (route_time heap q) = false →
        fle (best_perm heap subset).2 (route_time heap q) = true).
Proof.
  unfold best_perm.
  cut ((λ done st,
    (st.1 = None → st.2 = inf) ∧
    (∀ p, st.1 = Some p → p ∈ done ∧ st.2 = route_time heap p) ∧
    is_nan st.2 = false ∧
    (∀ q, q ∈ done → is_nan (route_time heap q) = false →
          fle st.2 (route_time heap q) = true))
    (Itertools.permutations subset)
    (foldl (best_perm_step heap) (None, inf) (Itertools.permutations subset))).
  { intros (H1 & H2 & H3 & H4). split; [done|]. split; [|split; [done|]].
    - intros p Hp. destruct (H2 p Hp) as [Hin ?]. split; [|done].
      by apply elem_of_permutations.
    - intros q Hq. apply H4. by apply elem_of_permutations. }
  apply foldl_ind.
  - split; [done|]. split; [done|]. split; [done|]. by intros q ?%elem_of_nil.
  - intros done x [bp mt] (H1 & H2 & H3 & H4). unfold best_perm_step. simpl in *.
    destruct (flt (route_time heap x) mt) eqn:Hlt; simpl.
    + destruct (flt_not_nan _ _ Hlt) as [Hx _].
      split; [done|]. split; [|split; [done|]].
      * intros p [= <-]. split; [|done]. apply elem_of_app. right. left.
      * intros q [Hq|Hq%list_elem_of_singleton]%elem_of_app Hnan.
        -- eapply fle_trans; [by apply flt_fle|by apply H4].
        -- subst q. by apply fle_refl.
    + split; [done|]. split; [|split; [done|]].
      * intros p Hp. destruct (H2 p Hp). split; [|done]. apply elem_of_app. by left.
      * intros q [Hq|Hq%list_elem_of_singleton]%elem_of_app Hnan; [by apply H4|].
        subst q. by apply not_flt_fle.
Qed.

Lemma elem_of_subsets (l c : list ref) :
  c ∈ subsets l ↔ c ≠ [] ∧ c `sublist_of` take (length l `min` 6) l.
Proof.
  unfold subsets. rewrite elem_of_flat_map. split.
  - intros (r & Hr%elem_of_seq & [Hs Hlen]%elem_of_combinations).
    split; [|done]. intros ->. simpl in Hlen. lia.
  - intros [Hne Hs]. exists (length c). split; [|by apply elem_of_combinations].
    apply elem_of_seq. pose proof (sublist_length _ _ Hs) as Hlen.
    rewrite length_take in Hlen. destruct c; [done|]. simpl in *. lia.
Qed.

Lemma subset_score_perm I c p :
  p ≡ₚ c → subset_score heap I p = subset_score heap I c.
Proof.
  intros Hp. unfold subset_score.
  by rewrite (sum_fees_perm _ _ Hp), (sum_interest_perm I _ _ Hp).
Qed.

Lemma subset_score_not_nan I c s : subset_score heap I c = Ret s → is_nan s = false.
Proof.
  unfold subset_score. intros (pen & Hpen & [= <-])%bind_Ret_inv.
  apply fsub_not_nan; [apply float_of_int_not_nan|by eapply int_truediv_finite].
Qed.

Lemma sum_interest_empty c : sum_interest heap ∅ c = 0%Z.
Proof.
  induction c as [|r c IH]; simpl; [done|]. rewrite IH. unfold interest_score.
  by rewrite (right_absorb_L ∅ (∩)), size_empty.
Qed.

Lemma sum_fees_lower c B :
  (0 ≤ B)%Z → c ≠ [] → (∀ r, r ∈ c → (B ≤ entry_fee (heap r))%Z) →
  (B ≤ sum_fees heap c)%Z.
Proof.
  intros HB Hne Hc. destruct c as [|r c]; [done|]. simpl.
  assert (0 ≤ sum_fees heap c)%Z as Hrest.
  { assert (∀ x, x ∈ c → (B ≤ entry_fee (heap x))%Z) as Hc' by (intros; apply Hc; by right).
    clear Hc Hne. induction c as [|x c IH]; simpl; [done|].
    pose proof (Hc' x ltac:(left)). 
    assert (0 ≤ sum_fees heap c)%Z by (apply IH; intros; apply Hc'; by right). lia. }
  pose proof (Hc r ltac:(left)). lia.
Qed.

(** With no interest matched, a selection that costs 100 or more scores
    at most -1. *)
Lemma subset_score_no_interest c s :
  c ≠ [] → (∀ r, r ∈ c → (100 ≤ entry_fee (heap r))%Z) →
  subset_score heap ∅ c = Ret s → fle s minus_one = true.
Proof.
  intros Hne Hfees. unfold subset_score. rewrite sum_interest_empty.
  intros (pen & Hpen & [= <-])%bind_Ret_inv.
  apply fsub_zero_le_minus_one, (int_truediv_100_ge_one (sum_fees heap c)); [|done].
  by apply sum_fees_lower.
Qed.

Lemma score_init I p alg :
  p ≠ [] → score heap I (Itinerary_init heap p alg) = subset_score heap I p.
Proof. by destruct p. Qed.


Lemma subset_step_inv b t I (l : list ref) done c st st' :
  c ∈ subsets l → brute_inv heap b t I done st →
  subset_step heap b t I st c = Ret st' → brute_inv heap b t I (done ++ [c]) st'.
Proof.
  intros [Hne _]%elem_of_subsets [Hnan Hfloor Hbest Hmax] Hstep.
  assert (∀ st0 : Itinerary * float, st0 = st → ¬ feasible heap b t c →
    brute_inv heap b t I (done ++ [c]) st0) as Hskip.
  { intros st0 -> Hnf. split; [done|done| |].
    - destruct Hbest as [?|(c' & Hc' & ?)]; [by left|right].
      exists c'. split; [|done]. apply elem_of_app. by left.
    - intros c' [Hc'|Hc'%list_elem_of_singleton]%elem_of_app Hf; [by apply Hmax|].
      by subst c'. }
  unfold subset_step in Hstep.
  destruct (bool_decide (sum_fees heap c > b)%Z) eqn:Hcost.
  { injection Hstep as <-. apply Hskip; [done|].
    apply bool_decide_eq_true in Hcost. intros [? _]. lia. }
  apply bool_decide_eq_false in Hcost.
  destruct (best_perm_spec c) as (_ & Hsome & _ & _).
  destruct (best_perm heap c) as [bp mt] eqn:Hbp. simpl in Hsome.
  destruct (fle mt t) eqn:Hfit; cycle 1.
  { injection Hstep as <-. apply Hskip; [done|].
    intros [_ Hf]. rewrite Hbp in Hf. simpl in Hf. congruence. }
  assert (feasible heap b t c) as Hfeas.
  { split; [lia|]. by rewrite Hbp. }
  destruct bp as [p|]; [|done].
  destruct (Hsome p eq_refl) as [Hperm Hmt].
  apply bind_Ret_inv in Hstep as (pen & Hpen & Hstep).
  set (sc := fsub (float_of_int (sum_interest heap I p)) pen) in *.
  assert (subset_score heap I c = Ret sc) as Hsc.
  { rewrite <-(subset_score_perm I c p Hperm). unfold subset_score.
    rewrite (sum_fees_perm p c Hperm), Hpen. done. }
  pose proof (subset_score_not_nan I c sc Hsc) as Hscnan.
  destruct st as [it bs]. simpl in *.
  destruct (flt bs sc) eqn:Hbetter; injection Hstep as <-.
  - split; simpl.
    + done.
    + apply flt_fle. by eapply fle_flt_trans.
    + right. exists c. split; [apply elem_of_app; right; left|].
      split; [done|]. split; [done|]. rewrite Hbp. split; [done|]. split; [done|].
      split; [done|]. by eapply fle_flt_trans.
    + intros c' [Hc'|Hc'%list_elem_of_singleton]%elem_of_app Hf.
      * destruct (Hmax c' Hc' Hf) as (s & Hs & Hle). exists s. split; [done|].
        eapply fle_trans; [exact Hle|by apply flt_fle].
      * subst c'. exists sc. split; [done|]. by apply fle_refl.
  - split; simpl.
    + done.
    + done.
    + destruct Hbest as [?|(c' & Hc' & ?)]; [by left|right].
      exists c'. split; [|done]. apply elem_of_app. by left.
    + intros c' [Hc'|Hc'%list_elem_of_singleton]%elem_of_app Hf; [by apply Hmax|].
      subst c'. exists sc. split; [done|]. by apply not_flt_fle.
Qed.

Lemma brute_force_inv l b t I it :
  brute_force heap l b t I = Ret it →
  ∃ bs, brute_inv heap b t I (subsets l) (it, bs).
Proof.
  unfold brute_force. intros ([it' bs] & Hfold & [= <-])%bind_Ret_inv.
  exists bs. revert Hfold. apply (foldM_ind _ (brute_inv heap b t I)).
  - split; simpl; [done|done|by left|by intros c ?%elem_of_nil].
  - intros done c st st' Hc Hinv Hstep. by eapply subset_step_inv.
Qed.

Lemma brute_force_total l b t I :
  t ≠ inf →
  (∀ c, c ∈ subsets l → ∃ f, int_truediv (sum_fees heap c) 100 = Ret f) →
  ∃ it, brute_force heap l b t I = Ret it.
Proof.
  intros Ht Hdiv. unfold brute_force.
  destruct (foldM_Ret (subset_step heap b t I) (subsets l)) with
    (s := (Itinerary_init heap [] "Brute Force", minus_one)) as (st & ->); [|simpl; eauto].
  intros st c Hc. unfold subset_step.
  destruct (bool_decide _); [eauto|].
  destruct (best_perm_spec c) as (Hnone & _).
  destruct (best_perm heap c) as [bp mt]. simpl in Hnone.
  destruct (fle mt t) eqn:Hfit; [|eauto].
  destruct bp as [p|].
  - destruct (Hdiv c Hc) as (f & ->). simpl. destruct (flt _ _); eauto.
  - rewrite Hnone in Hfit by done. by apply fle_inf_l in Hfit.
Qed.

Lemma sum_fees_bound l B :
  (0 ≤ B)%Z → (∀ r, r ∈ l → (Z.abs (entry_fee (heap r)) ≤ B)%Z) →
  (Z.abs (sum_fees heap l) ≤ Z.of_nat (length l) * B)%Z.
Proof.
  intros HB. induction l as [|x l IH]; intros Hl; unfold sum_fees in *; simpl; [lia|].
  specialize (Hl x ltac:(left)) as Hx.
  assert (∀ r, r ∈ l → (Z.abs (entry_fee (heap r)) ≤ B)%Z) as Hl'
    by (intros; apply Hl; by right).
  specialize (IH Hl'). lia.
Qed.

End OptimizerFacts.

(** ** The store model refines the functions on values *)

Section ImpFacts.
Variable set_order : gset ref → list ref.

Lemma run_bind {A B} (m : Imp.M A) (k : A → Imp.M B) σ :
  (m ≫= k) σ =
    match m σ with
    | Ret (a, σ') => k a σ'
    | Raise e => Raise e
    | OutOfFuel => OutOfFuel
    end.
Proof. reflexivity. Qed.

Lemma run_load a l σ : Imp.lists σ !! a = Some l → Imp.load a σ = Ret (l, σ).
Proof. unfold Imp.load. by intros ->. Qed.

Lemma run_append a l x σ :
  Imp.lists σ !! a = Some l → Imp.append a x σ = Ret (tt, Imp.set_list a (l ++ [x]) σ).
Proof. unfold Imp.append. by intros ->. Qed.

Lemma set_list_id a l σ : Imp.lists σ !! a = Some l → Imp.set_list a l σ = σ.
Proof. intros H. destruct σ. unfold Imp.set_list. simpl in *. f_equal. by apply insert_id. Qed.

Lemma set_list_twice a l k σ : Imp.set_list a l (Imp.set_list a k σ) = Imp.set_list a l σ.
Proof. unfold Imp.set_list. simpl. f_equal. apply insert_insert_eq. Qed.

Lemma lookup_set_list a l σ : Imp.lists (Imp.set_list a l σ) !! a = Some l.
Proof. apply lookup_insert_eq. Qed.

Lemma Imp_nn_loop_run fuel : ∀ route remaining σ r,
  Imp.lists σ !! route = Some r →
  Imp.nn_loop set_order fuel route remaining σ =
    match nn_loop (Imp.objs σ) set_order fuel r remaining with
    | Ret r' => Ret (tt, Imp.set_list route r' σ)
    | Raise e => Raise e
    | OutOfFuel => OutOfFuel
    end.
Proof.
  induction fuel as [|fuel IH]; intros route remaining σ r Hr; simpl.
  - destruct (decide (remaining = ∅)); [|done]. by rewrite set_list_id.
  - destruct (decide (remaining = ∅)); [by rewrite set_list_id|].
    rewrite run_bind, (run_load _ _ _ Hr).
    destruct (last r) as [current|]; [|done].
    rewrite run_bind. unfold Imp.get_objs at 1. rewrite run_bind.
    destruct (min_by _ _) as [nearest| |]; simpl; [|done|done].
    rewrite run_bind, (run_append _ _ _ _ Hr).
    destruct (decide (nearest ∈ remaining)); [|done].
    rewrite (IH _ _ _ (r ++ [nearest])) by apply lookup_set_list. simpl.
    destruct (nn_loop _ _ _ _ _); [|done|done]. by rewrite set_list_twice.
Qed.

Lemma run_alloc l σ : Imp.alloc l σ = Ret (Imp.next σ, Imp.new_list l σ).
Proof. reflexivity. Qed.

Lemma lookup_new_list l σ : Imp.lists (Imp.new_list l σ) !! Imp.next σ = Some l.
Proof. apply lookup_insert_eq. Qed.

Lemma set_list_new_list l k σ :
  Imp.set_list (Imp.next σ) l (Imp.new_list k σ) = Imp.new_list l σ.
Proof. unfold Imp.set_list, Imp.new_list. simpl. f_equal. apply insert_insert_eq. Qed.

Lemma wf_lookup σ a l : Imp.wf σ → Imp.lists σ !! a = Some l → a < Imp.next σ.
Proof.
  intros Hwf Ha. destruct (decide (a < Imp.next σ)) as [|Hge]; [done|].
  rewrite Hwf in Ha by lia. done.
Qed.

Lemma lookup_new_list_old l σ a k :
  Imp.wf σ → Imp.lists σ !! a = Some k → Imp.lists (Imp.new_list l σ) !! a = Some k.
Proof.
  intros Hwf Ha. pose proof (wf_lookup σ a k Hwf Ha).
  unfold Imp.new_list. simpl. rewrite lookup_insert_ne by lia. done.
Qed.

Lemma wf_new_list l σ : Imp.wf σ → Imp.wf (Imp.new_list l σ).
Proof.
  intros Hwf a Ha. unfold Imp.new_list in *. simpl in *.
  rewrite lookup_insert_ne by lia. apply Hwf. lia.
Qed.

Lemma wf_set_list a l σ : Imp.wf σ → a < Imp.next σ → Imp.wf (Imp.set_list a l σ).
Proof.
  intros Hwf Ha b Hb. unfold Imp.set_list in *. simpl in *.
  rewrite lookup_insert_ne by lia. by apply Hwf.
Qed.

Lemma frame_refl n σ : Imp.frame n σ σ.
Proof. by repeat split. Qed.

Lemma frame_trans n σ1 σ2 σ3 : Imp.frame n σ1 σ2 → Imp.frame n σ2 σ3 → Imp.frame n σ1 σ3.
Proof.
  intros (Ho1 & Hn1 & Hl1) (Ho2 & Hn2 & Hl2). split; [congruence|]. split; [lia|].
  intros a Ha. by rewrite Hl2, Hl1.
Qed.

Lemma frame_new_list n l σ : n ≤ Imp.next σ → Imp.frame n σ (Imp.new_list l σ).
Proof.
  intros Hn. split; [done|]. split; [simpl; lia|].
  intros a Ha. unfold Imp.new_list. simpl. by rewrite lookup_insert_ne by lia.
Qed.

Lemma frame_set_list n a l σ : n ≤ a → Imp.frame n σ (Imp.set_list a l σ).
Proof.
  intros Hn. split; [done|]. split; [done|].
  intros b Hb. unfold Imp.set_list. simpl. by rewrite lookup_insert_ne by lia.
Qed.

Lemma Imp_nearest_neighbor_run a l σ :
  Imp.lists σ !! a = Some l →
  Imp._nearest_neighbor set_order a σ =
    match _nearest_neighbor (Imp.objs σ) set_order l with
    | Ret l' =>
        match l with
        | _ :: _ :: _ => Ret (Imp.next σ, Imp.new_list l' σ)
        | _ => Ret (a, σ)
        end
    | Raise e => Raise e
    | OutOfFuel => OutOfFuel
    end.
Proof.
  intros Ha. unfold Imp._nearest_neighbor. rewrite run_bind, (run_load _ _ _ Ha).
  destruct l as [|s0 [|s1 rest]]; [done|done|].
  rewrite run_bind, run_alloc, run_bind.
  rewrite (Imp_nn_loop_run _ _ _ _ [s0]) by apply lookup_new_list.
  unfold _nearest_neighbor. simpl Imp.objs.
  destruct (nn_loop _ _ _ _ _); [|done|done]. by rewrite set_list_new_list.
Qed.

Lemma Imp_Itinerary_init_run a alg l σ :
  Imp.lists σ !! a = Some l →
  ∃ it, Imp.Itinerary_init a alg σ = Ret (it, σ) ∧ Imp.spots it = a ∧
        represents σ it (Itinerary_init (Imp.objs σ) l alg).
Proof.
  intros Ha. unfold Imp.Itinerary_init. rewrite run_bind, (run_load _ _ _ Ha).
  eexists. split; [reflexivity|]. split; [done|]. by repeat split.
Qed.

Lemma run_get_objs σ : Imp.get_objs σ = Ret (Imp.objs σ, σ).
Proof. reflexivity. Qed.

Lemma Imp_select_run a (sorted : list (float * ref)) : ∀ σ st st',
  Imp.lists σ !! a = Some (selected st) →
  foldl (λ s p, select_step (Imp.objs σ) s p.2) st sorted = st' →
  Imp.forM (λ s p, Imp.select_step a s p.2)
           (remaining_budget st, remaining_time st) sorted σ =
    Ret ((remaining_budget st', remaining_time st'), Imp.set_list a (selected st') σ).
Proof.
  induction sorted as [|[sc spot] sorted IH]; intros σ st st' Ha Hfold; simpl in *.
  - subst st'. by rewrite set_list_id.
  - rewrite run_bind. unfold Imp.select_step at 1.
    rewrite run_bind, (run_load _ _ _ Ha), run_bind, run_get_objs. simpl.
    destruct (bool_decide _ && fle _ _) eqn:Hacc.
    + rewrite run_bind, (run_append _ _ _ _ Ha).
      unfold mret, Imp.M_ret, Imp.ret.
      set (needed := fadd two _) in *.
      set (st1 := {| selected := selected st ++ [spot];
                     remaining_budget := (remaining_budget st - entry_fee (Imp.objs σ spot))%Z;
                     remaining_time := fsub (remaining_time st) needed |}).
      assert (select_step (Imp.objs σ) st spot = st1) as Hst
        by (unfold select_step; fold needed; by rewrite Hacc).
      rewrite Hst in Hfold.
      pose proof (IH _ st1 st' (lookup_set_list _ _ _) Hfold) as HIH.
      rewrite set_list_twice in HIH. exact HIH.
    + unfold mret, Imp.M_ret, Imp.ret.
      assert (select_step (Imp.objs σ) st spot = st) as Hst
        by (unfold select_step; by rewrite Hacc).
      rewrite Hst in Hfold. by apply IH.
Qed.

Lemma sim_mono {A B} (m : Imp.M A) σ (p : outcome B) (Q Q' : B → A → Imp.store → Prop) :
  (∀ v a σ', Q v a σ' → Q' v a σ') → sim m σ p Q → sim m σ p Q'.
Proof.
  intros HQ. unfold sim. destruct p as [v| |], (m σ) as [[x σ']| |]; try done. apply HQ.
Qed.


Lemma sim_step {A A' B} (m : Imp.M A') (k : A' → Imp.M A) σ x σ1 (p : outcome B) Q :
  m σ = Ret (x, σ1) → sim (k x) σ1 p Q → sim (m ≫= k) σ p Q.
Proof. intros Hm. unfold sim. by rewrite run_bind, Hm. Qed.

Lemma sim_bind {A A' B B'} (m : Imp.M A') (k : A' → Imp.M A) σ
    (p : outcome B') (kp : B' → outcome B) Q1 Q2 :
  sim m σ p Q1 →
  (∀ v x σ1, Q1 v x σ1 → sim (k x) σ1 (kp v) Q2) →
  sim (m ≫= k) σ (p ≫= kp) Q2.
Proof.
  unfold sim at 1 3. rewrite run_bind. intros Hm Hk.
  destruct p as [v| |], (m σ) as [[x σ1]| |]; simpl; try done;
    first [by apply Hk|by destruct (kp v)].
Qed.

Lemma sim_bind_ret {A A' B B'} (m : Imp.M A') (k : A' → Imp.M A) σ
    (v : B') (p : outcome B) Q1 Q2 :
  sim m σ (Ret v) Q1 →
  (∀ x σ1, Q1 v x σ1 → sim (k x) σ1 p Q2) →
  sim (m ≫= k) σ p Q2.
Proof.
  intros Hm Hk. unfold sim in Hm. unfold sim. rewrite run_bind.
  destruct (m σ) as [[x σ1]| |]; [|done|done]. by apply Hk.
Qed.

Lemma sim_ret {A B} (x : A) σ (v : B) (Q : B → A → Imp.store → Prop) :
  Q v x σ → sim (mret x) σ (Ret v) Q.
Proof. done. Qed.

Lemma sim_lift {A} (o : outcome A) σ :
  sim (Imp.lift o) σ o (λ v x σ', x = v ∧ σ' = σ).
Proof. unfold sim, Imp.lift. by destruct o. Qed.

Lemma Imp_empty_itinerary_sim alg n σ0 σ :
  Imp.wf σ → n ≤ Imp.next σ → Imp.frame n σ0 σ →
  sim (Imp.alloc [] ≫= λ empty, Imp.Itinerary_init empty alg) σ
      (Ret (Itinerary_init (Imp.objs σ0) [] alg)) (planner_post n σ0).
Proof.
  intros Hwf Hn Hfr. eapply sim_step; [apply run_alloc|].
  destruct (Imp_Itinerary_init_run (Imp.next σ) alg [] (Imp.new_list [] σ))
    as (it & Hit & Hsp & Hrep); [apply lookup_new_list|].
  unfold sim. rewrite Hit.
  split; [by apply wf_new_list|].
  split; [eapply frame_trans; [done|by apply frame_new_list]|].
  split; [done|]. by rewrite Hsp.
Qed.

Lemma Imp_nearest_neighbor_sim a l n σ :
  Imp.wf σ → n ≤ a → Imp.lists σ !! a = Some l →
  sim (Imp._nearest_neighbor set_order a) σ (_nearest_neighbor (Imp.objs σ) set_order l)
      (λ route x σ', Imp.wf σ' ∧ Imp.frame (Imp.next σ) σ σ' ∧ n ≤ x ∧
                     Imp.lists σ' !! x = Some route).
Proof.
  intros Hwf Hn Ha. pose proof (wf_lookup _ _ _ Hwf Ha) as Hlt.
  unfold sim. rewrite (Imp_nearest_neighbor_run _ _ _ Ha).
  destruct (_nearest_neighbor _ _ l) as [route| |] eqn:Hnn; [|done|done].
  destruct l as [|s0 [|s1 rest]].
  - injection Hnn as <-. by repeat split.
  - injection Hnn as <-. by repeat split.
  - split; [by apply wf_new_list|]. split; [by apply frame_new_list|].
    split; [lia|]. apply lookup_new_list.
Qed.

Lemma run_pop a x l σ :
  Imp.lists σ !! a = Some (x :: l) →
  Imp.pop a σ = Ret (tt, Imp.set_list a (removelast (x :: l)) σ).
Proof. unfold Imp.pop. by intros ->. Qed.

Lemma planner_post_trans n σ0 σ v it σ' :
  Imp.frame n σ0 σ → n ≤ Imp.next σ → planner_post n σ v it σ' → planner_post n σ0 v it σ'.
Proof.
  intros Hfr Hn (Hwf & Hfr' & Hrep & Hsp). split; [done|]. split; [|done].
  by eapply frame_trans.
Qed.

Lemma Imp_repair_sim fuel : ∀ cur l σ t n,
  Imp.wf σ → n ≤ cur → Imp.lists σ !! cur = Some l →
  sim (Imp.repair set_order fuel cur t) σ (repair (Imp.objs σ) set_order fuel l t)
      (planner_post n σ).
Proof.
  induction fuel as [|fuel IH]; intros cur l σ t n Hwf Hn Hcur;
    pose proof (wf_lookup _ _ _ Hwf Hcur) as Hlt.
  - simpl. eapply sim_step; [by apply run_load|].
    destruct l as [|x rest]; [|done].
    apply Imp_empty_itinerary_sim; [done|lia|apply frame_refl].
  - simpl. eapply sim_step; [by apply run_load|].
    destruct l as [|x rest].
    { apply Imp_empty_itinerary_sim; [done|lia|apply frame_refl]. }
    change (match rest with [] => Ret (x :: rest) | _ :: _ => _ end)
      with (_nearest_neighbor (Imp.objs σ) set_order (x :: rest)).
    change (match rest with [] => [] | _ :: _ => x :: removelast rest end)
      with (removelast (x :: rest)).
    eapply sim_bind; [by apply (Imp_nearest_neighbor_sim cur (x :: rest) n)|].
    intros route a σ1 (Hwf1 & Hfr1 & Hna & Hroute). simpl.
    destruct (Imp_Itinerary_init_run a "Greedy Heuristic" route σ1 Hroute)
      as (it & Hit & Hsp & Hrep).
    eapply sim_step; [exact Hit|].
    destruct Hfr1 as (Hobjs & Hnext & Hold).
    assert (Imp.total_time it = _calculate_time (Imp.objs σ) route) as ->.
    { destruct Hrep as (_ & _ & _ & ->). simpl. by rewrite Hobjs. }
    assert (Imp.frame n σ σ1) as Hfr1.
    { split; [done|]. split; [done|]. intros b Hb. apply Hold. lia. }
    destruct (fle _ t).
    + apply sim_ret. split; [done|]. split; [done|]. rewrite Hobjs in Hrep.
      split; [done|]. by rewrite Hsp.
    + assert (Imp.lists σ1 !! cur = Some (x :: rest)) as Hcur1
        by (rewrite Hold by lia; done).
      eapply sim_step; [by apply run_pop|].
      set (σ2 := Imp.set_list cur (removelast (x :: rest)) σ1).
      eapply sim_mono; [|rewrite <-Hobjs;
        apply (IH cur (removelast (x :: rest)) σ2 t n)].
      * intros v it' σ'. apply planner_post_trans; [|simpl; lia].
        eapply frame_trans; [exact Hfr1|by apply frame_set_list].
      * apply wf_set_list; [done|]. lia.
      * done.
      * apply lookup_set_list.
Qed.

Lemma frame_weaken n m σ σ' : n ≤ m → Imp.frame m σ σ' → Imp.frame n σ σ'.
Proof.
  intros Hnm (Ho & Hn & Hl). split; [done|]. split; [done|]. intros a Ha. apply Hl. lia.
Qed.

Lemma Imp_greedy_sim c l σ b t I :
  Imp.wf σ → Imp.lists σ !! c = Some l →
  sim (Imp.greedy_heuristic set_order c b t I) σ
      (greedy_heuristic (Imp.objs σ) set_order l b t I)
      (planner_post (Imp.next σ) σ).
Proof.
  intros Hwf Hc. unfold Imp.greedy_heuristic, greedy_heuristic.
  eapply sim_step; [by apply run_load|].
  eapply sim_step; [apply run_get_objs|].
  eapply sim_bind; [apply sim_lift|].
  intros scored ? ? [-> ->]. simpl.
  eapply sim_step; [apply run_alloc|].
  set (σ1 := Imp.new_list [] σ).
  set (st0 := {| selected := []; remaining_budget := b; remaining_time := t |}).
  eapply sim_step.
  { apply (Imp_select_run (Imp.next σ) (sort_desc fst scored) σ1 st0
             (select (Imp.objs σ) (sort_desc fst scored) b t)
             (lookup_new_list _ _) eq_refl). }
  set (sel := selected (select (Imp.objs σ) (sort_desc fst scored) b t)).
  set (σ2 := Imp.set_list (Imp.next σ) sel σ1).
  assert (Imp.wf σ2) as Hwf2.
  { apply wf_set_list; [by apply wf_new_list|]. simpl. lia. }
  assert (Imp.frame (Imp.next σ) σ σ2) as Hfr2.
  { eapply frame_trans; [by apply frame_new_list|by apply frame_set_list]. }
  eapply sim_step; [apply run_load, lookup_set_list|].
  destruct sel as [|s0 sel'] eqn:Hsel.
  - apply Imp_empty_itinerary_sim; [done|simpl; lia|done].
  - eapply sim_step; [apply run_alloc|].
    eapply sim_mono; [|apply (Imp_repair_sim _ (Imp.next σ2) (s0 :: sel')
                                (Imp.new_list (s0 :: sel') σ2) t (Imp.next σ))].
    + intros v it σ'. apply planner_post_trans; [|simpl; lia].
      eapply frame_trans; [exact Hfr2|]. apply frame_new_list. simpl. lia.
    + by apply wf_new_list.
    + simpl. lia.
    + apply lookup_new_list.
Qed.

Lemma forM_sim {A S S'} (fi : S' → A → Imp.M S') (fp : S → A → outcome S)
    (Q : S → S' → Imp.store → Prop) (l : list A) :
  (∀ x s s' σ, Q s s' σ → sim (fi s' x) σ (fp s x) Q) →
  ∀ s s' σ, Q s s' σ → sim (Imp.forM fi s' l) σ (foldM fp s l) Q.
Proof.
  intros Hstep. induction l as [|x l IH]; intros s s' σ HQ; simpl.
  - by apply sim_ret.
  - eapply sim_bind; [by apply Hstep|]. intros. by apply IH.
Qed.

Lemma foldM_Ret_foldl {A S} (f : S → A → S) (l : list A) : ∀ s,
  foldM (λ s x, Ret (f s x)) s l = Ret (foldl f s l).
Proof. induction l as [|x l IH]; intros s; simpl; [done|]. apply IH. Qed.


Lemma Imp_best_perm_sim subset σ :
  Imp.wf σ →
  sim (Imp.forM Imp.best_perm_step (None, inf) (Itertools.permutations subset)) σ
      (Ret (best_perm (Imp.objs σ) subset)) (best_perm_rel σ).
Proof.
  intros Hwf. unfold best_perm. rewrite <-foldM_Ret_foldl.
  apply forM_sim; [|by split; [|split; [|split; [apply frame_refl|]]]].
  intros perm [bp mt] [bpl mt'] σ1 (Hmt & Hwf1 & Hfr & Hbp). simpl in *. subst mt'.
  unfold Imp.best_perm_step, best_perm_step. simpl.
  eapply sim_step; [apply run_alloc|].
  eapply sim_step; [apply run_load, lookup_new_list|].
  eapply sim_step; [apply run_get_objs|]. simpl.
  destruct Hfr as (Hobjs & Hnext & Hold) eqn:Hfr'. rewrite Hobjs.
  assert (Imp.frame (Imp.next σ) σ (Imp.new_list perm σ1)) as Hfr1.
  { eapply frame_trans; [by split|by apply frame_new_list]. }
  destruct (flt _ mt).
  - apply sim_ret. split; [done|]. split; [by apply wf_new_list|]. split; [done|].
    simpl. split; [apply lookup_insert_eq|done].
  - apply sim_ret. split; [done|]. split; [by apply wf_new_list|]. split; [done|].
    simpl. destruct bp as [p|], bpl as [a|]; try done.
    destruct Hbp as [Hp Ha]. split; [|done]. by apply lookup_new_list_old.
Qed.


Lemma represents_frame σ σ' it v :
  Imp.wf σ → Imp.frame (Imp.next σ) σ σ' → represents σ it v → represents σ' it v.
Proof.
  intros Hwf (_ & _ & Hold) (Hsp & ?). split; [|done].
  rewrite Hold; [done|]. by eapply wf_lookup.
Qed.

Lemma Imp_subset_step_sim n σ0 b t I st st' subset σ :
  subset_rel n σ0 st st' σ →
  sim (Imp.subset_step b t I st' subset) σ (subset_step (Imp.objs σ0) b t I st subset)
      (subset_rel n σ0).
Proof.
  intros (Hbs & (Hwf & Hfr & Hrep & Hsp) & Hn).
  destruct st as [v bs], st' as [it bs']. simpl in *. subst bs'.
  assert (Imp.objs σ = Imp.objs σ0) as Hobjs by apply Hfr.
  unfold Imp.subset_step, subset_step.
  eapply sim_step; [apply run_get_objs|]. rewrite <-Hobjs.
  destruct (bool_decide _).
  { apply sim_ret. split; [done|]. split; [|done]. by split; [|split; [|split]]. }
  eapply sim_bind_ret; [by apply Imp_best_perm_sim|].
  intros [bpl mt'] σ1. destruct (best_perm (Imp.objs σ) subset) as [bp mt].
  intros (Hmt & Hwf1 & Hfr1 & Hbp). simpl in *. subst mt'.
  assert (subset_rel n σ0 (v, bs) (it, bs) σ1) as Hkeep.
  { split; [done|]. split; [|destruct Hfr1 as (_ & ? & _); lia].
    split; [done|]. split; [|split; [|done]].
    - eapply frame_trans; [exact Hfr|]. by eapply frame_weaken.
    - by apply (represents_frame σ σ1). }
  destruct (fle mt t); [|by apply sim_ret].
  destruct bp as [p|], bpl as [a|]; try done. destruct Hbp as [Hp Ha].
  eapply sim_step; [by apply run_load|].
  eapply sim_bind; [apply sim_lift|]. intros pen ? ? [-> ->]. simpl.
  destruct (flt bs _); [|by apply sim_ret].
  destruct (Imp_Itinerary_init_run a "Brute Force" p σ1 Hp) as (it' & Hit & Hsp' & Hrep').
  eapply sim_step; [exact Hit|]. apply sim_ret.
  split; [done|]. split; [|destruct Hfr1 as (_ & ? & _); lia].
  split; [done|]. split; [|split].
  - eapply frame_trans; [exact Hfr|]. by eapply frame_weaken.
  - destruct Hfr1 as (Ho1 & _). by rewrite Ho1 in Hrep'.
  - simpl. rewrite Hsp'. lia.
Qed.

Lemma Imp_brute_force_sim c l σ b t I :
  Imp.wf σ → Imp.lists σ !! c = Some l →
  sim (Imp.brute_force c b t I) σ (brute_force (Imp.objs σ) l b t I)
      (planner_post (Imp.next σ) σ).
Proof.
  intros Hwf Hc. unfold Imp.brute_force, brute_force.
  eapply sim_step; [apply run_alloc|].
  destruct (Imp_Itinerary_init_run (Imp.next σ) "Brute Force" [] (Imp.new_list [] σ))
    as (it0 & Hit0 & Hsp0 & Hrep0); [apply lookup_new_list|].
  eapply sim_step; [exact Hit0|].
  eapply sim_step; [apply run_load; by apply lookup_new_list_old|].
  eapply sim_step; [apply run_alloc|].
  eapply sim_step; [apply run_load, lookup_new_list|].
  set (σ1 := Imp.new_list [] σ). set (σ2 := Imp.new_list _ σ1).
  eapply sim_bind.
  - apply (forM_sim _ _ (subset_rel (Imp.next σ) σ)); [intros; by apply Imp_subset_step_sim|].
    split; [done|]. split; [|simpl; lia].
    split; [by do 2 apply wf_new_list|]. split; [|split].
    + eapply frame_trans; [by apply frame_new_list|apply frame_new_list; simpl; lia].
    + eapply represents_frame; [by apply wf_new_list| |exact Hrep0].
      by apply frame_new_list.
    + simpl. rewrite Hsp0. lia.
  - intros [v bs] [it bs'] σ' (_ & Hpost & _). by apply sim_ret.
Qed.

End ImpFacts.

(** * The claims of the specification *)

Section Claims.
Variable heap : ref → TouristSpot.
Variable set_order : gset ref → list ref.
(** Iterating over a set yields each of its members once. *)
Hypothesis set_order_perm : ∀ X, set_order X ≡ₚ elements X.

(** What both planners' results have in common. *)
Lemma init_total_cost it alg :
  it = Itinerary_init heap (spots it) alg → total_cost it = sum_fees heap (spots it).
Proof. intros H. by apply (f_equal total_cost) in H. Qed.

Lemma init_total_time it alg :
  it = Itinerary_init heap (spots it) alg →
  total_time it = _calculate_time heap (spots it).
Proof. intros H. by apply (f_equal total_time) in H. Qed.

Lemma brute_force_cases l b t I it :
  brute_force heap l b t I = Ret it →
  it = Itinerary_init heap (spots it) "Brute Force" ∧
  (spots it = [] ∨
   ∃ c bs, c ∈ subsets l ∧ feasible heap b t c ∧ spots it ≡ₚ c ∧ spots it ≠ [] ∧
     (best_perm heap c).1 = Some (spots it) ∧
     (best_perm heap c).2 = route_time heap (spots it) ∧
     subset_score heap I c = Ret bs ∧
     score heap I it = Ret bs ∧ flt minus_one bs = true ∧
     ∀ c', c' ∈ subsets l → feasible heap b t c' →
       ∃ s, subset_score heap I c' = Ret s ∧ fle s bs = true).
Proof.
  intros (bs & [_ _ Hbest Hmax])%brute_force_inv. simpl in *.
  destruct Hbest as [[-> _]|(c & Hc & Hne & Hfeas & Hbp & Hinit & Hsc & Hgt)].
  { split; [done|by left]. }
  split; [done|]. right. exists c, bs.
  destruct (best_perm_spec heap c) as (_ & Hsome & _).
  destruct (Hsome _ Hbp) as [Hperm Hmt].
  assert (spots it ≠ []) as Hne'.
  { intros Hnil. rewrite Hnil in Hperm. by apply Permutation_nil_l in Hperm. }
  repeat (split; [done|]). split; [|done].
  rewrite Hinit, score_init by done. by rewrite (subset_score_perm heap I c _ Hperm).
Qed.

(** C1 (amended).  For a budget that is not negative and a catalog whose
    entry fees are not negative, the itinerary either planner returns has
    [total_cost] equal to the sum of the entry fees of its spots, and
    within the budget. *)
Theorem C1_total_cost_within_budget l b t I it :
  (0 ≤ b)%Z → Forall (λ r, (0 ≤ entry_fee (heap r))%Z) l →
  greedy_heuristic heap set_order l b t I = Ret it
    ∨ brute_force heap l b t I = Ret it →
  total_cost it = sum_fees heap (spots it) ∧ (total_cost it ≤ b)%Z.
Proof.
  intros Hb Hfees [Hit|Hit].
  - destruct (greedy_spec heap set_order set_order_perm l b t I it Hit)
      as (Hinit & _ & _ & Hcost & _).
    pose proof (init_total_cost it _ Hinit) as Htc. split; [done|]. rewrite Htc.
    destruct (spots it) as [|s0 sp] eqn:Hsp; [done|].
    apply Hcost; [|done]. by apply Forall_forall.
  - destruct (brute_force_cases l b t I it Hit) as (Hinit & Hcases).
    pose proof (init_total_cost it _ Hinit) as Htc. split; [done|]. rewrite Htc.
    destruct Hcases as [->|(c & bs & _ & [Hcost _] & Hperm & _)]; [done|].
    by rewrite (sum_fees_perm heap _ _ Hperm).
Qed.

(** C2. The itinerary either planner returns has [total_time] within the
    time budget, or it is empty. *)
Theorem C2_total_time_within_budget l b t I it :
  greedy_heuristic heap set_order l b t I = Ret it
    ∨ brute_force heap l b t I = Ret it →
  fle (total_time it) t = true ∨ spots it = [].
Proof.
  intros [Hit|Hit].
  - destruct (greedy_spec heap set_order set_order_perm l b t I it Hit)
      as (_ & _ & Htime & _).
    destruct (spots it) as [|s0 sp] eqn:Hsp; [by right|left]. by apply Htime.
  - destruct (brute_force_cases l b t I it Hit) as (Hinit & Hcases).
    destruct Hcases as [?|(c & bs & _ & [_ Hfit] & _ & Hne & _ & Hmt & _)]; [by right|left].
    rewrite (init_total_time it _ Hinit), calculate_time_nonempty by done.
    by rewrite <-Hmt.
Qed.

(** C3 (amended).  On a catalog of at most six spots with non-negative
    fees, when the greedy planner returns a non-empty itinerary, the score
    of the brute-force itinerary is at least the score of the greedy one. *)
Theorem C3_brute_force_not_worse_when_greedy_nonempty l b t I it_g it_b :
  length l ≤ 6 → Forall (λ r, (0 ≤ entry_fee (heap r))%Z) l →
  greedy_heuristic heap set_order l b t I = Ret it_g →
  brute_force heap l b t I = Ret it_b →
  spots it_g ≠ [] →
  ∃ s_g s_b, score heap I it_g = Ret s_g ∧ score heap I it_b = Ret s_b ∧
             fle s_g s_b = true.
Proof.
  intros Hlen Hfees Hg Hb Hne.
  destruct (greedy_spec heap set_order set_order_perm l b t I it_g Hg)
    as (Hinit & Hsub & Htime & Hcost & _).
  specialize (Htime Hne). specialize (Hcost ltac:(by apply Forall_forall) Hne).
  apply submseteq_sublist_r in Hsub as (c & Hperm & Hsubl).
  assert (c ≠ []) as Hc_ne.
  { intros ->. by apply Permutation_nil_r in Hperm. }
  assert (c ∈ subsets l) as Hc.
  { apply elem_of_subsets. split; [done|]. by rewrite Nat.min_l, take_ge by lia. }
  assert (feasible heap b t c) as Hfeas.
  { split; [by rewrite <-(sum_fees_perm heap _ _ Hperm)|].
    rewrite (init_total_time it_g _ Hinit), calculate_time_nonempty in Htime by done.
    destruct (best_perm_spec heap c) as (_ & _ & _ & Hmin).
    eapply fle_trans; [|exact Htime]. apply Hmin; [done|].
    by destruct (fle_not_nan _ _ Htime). }
  assert (score heap I it_g = subset_score heap I c) as Hsg.
  { rewrite Hinit, score_init by done. by apply subset_score_perm. }
  destruct (brute_force_inv heap l b t I it_b Hb) as (bs & [_ Hfloor Hbest Hmax]).
  simpl in *. destruct (Hmax c Hc Hfeas) as (s_g & Hs & Hle).
  exists s_g. rewrite Hsg.
  destruct Hbest as [[-> ->]|(c' & Hc' & Hne' & Hfeas' & Hbp & Hinit' & Hsc & _)].
  - exists zero. split; [done|]. split; [done|]. eapply fle_trans; [exact Hle|]. done.
  - exists bs. split; [done|]. split; [|done].
    destruct (best_perm_spec heap c') as (_ & Hsome & _).
    destruct (Hsome _ Hbp) as [Hperm' _].
    rewrite Hinit', score_init.
    + by rewrite (subset_score_perm heap I c' _ Hperm').
    + intros Hnil. rewrite Hnil in Hperm'. by apply Permutation_nil_l in Hperm'.
Qed.

(** C5 (amended).  In each round of the nearest-neighbor loop the spot
    appended is the first one, in the iteration order of the set
    [remaining], among those at the least distance from the last spot of
    the route: the spots before it in that order are strictly farther, the
    spots after it are not nearer.  Coordinates are finite numbers. *)
Theorem C5_tie_broken_by_set_iteration_order fuel route remaining current :
  remaining ≠ ∅ → last route = Some current →
  finite_coordinates (heap current) →
  (∀ s, s ∈ remaining → finite_coordinates (heap s)) →
  ∃ nearest before after,
    set_order remaining = before ++ nearest :: after ∧
    (∀ s, s ∈ before →
       flt (distance_to (heap current) (heap nearest))
           (distance_to (heap current) (heap s)) = true) ∧
    (∀ s, s ∈ after →
       fle (distance_to (heap current) (heap nearest))
           (distance_to (heap current) (heap s)) = true) ∧
    nn_loop heap set_order (S fuel) route remaining =
      nn_loop heap set_order fuel (route ++ [nearest]) (remaining ∖ {[nearest]}).
Proof.
  intros Hne Hlast Hcur Hfin.
  destruct (min_by_Ret (λ s, distance_to (heap current) (heap s)) (set_order remaining))
    as (nearest & Hmin).
  { intros Hnil. apply Hne, leibniz_equiv, elements_empty_inv.
    apply Permutation_nil_r. by rewrite <-set_order_perm, Hnil. }
  destruct (min_by_first (λ s, distance_to (heap current) (heap s))
              (set_order remaining) nearest) as (before & after & Heq & H1 & H2); [|done|].
  { intros s Hs. apply distance_to_not_nan; [done|].
    apply Hfin, elem_of_elements. by rewrite <-set_order_perm. }
  exists nearest, before, after. split; [done|]. split; [done|]. split; [done|].
  simpl. rewrite decide_False, Hlast, Hmin by done. simpl.
  rewrite decide_True; [done|].
  apply elem_of_elements. rewrite <-set_order_perm. by eapply min_by_elem.
Qed.

(** C6 (amended).  On an empty catalog the greedy planner returns the
    empty itinerary.  An empty interest set only makes every interest
    score 0: whatever the interest set, the itinerary returned is empty
    exactly when no spot of the catalog passes the first test of the
    selection, an entry fee within the budget and 2.5 hours within the
    time budget. *)
Theorem C6_greedy_empty_cases b t I :
  greedy_heuristic heap set_order [] b t I
    = Ret (Itinerary_init heap [] "Greedy Heuristic") ∧
  (∀ r, interest_score (heap r) ∅ = 0%Z) ∧
  (∀ l it, greedy_heuristic heap set_order l b t I = Ret it →
     (spots it = [] ↔
      Forall (λ r, ¬ ((entry_fee (heap r) ≤ b)%Z ∧ fle (fadd two half) t = true)) l)).
Proof.
  split; [done|]. split.
  - intros r. unfold interest_score.
    by rewrite (right_absorb_L ∅ (∩)), size_empty.
  - intros l it Hit.
    destruct (greedy_spec heap set_order set_order_perm l b t I it Hit) as (_ & _ & _ & _ & Hiff).
    by rewrite Forall_forall.
Qed.

(** C7. On a duplicate-free list the route orderer returns a permutation
    of its input (so again duplicate free) that begins with the first
    element of the input; a list of at most one spot is returned as it
    is. *)
Theorem C7_nearest_neighbor_permutation l :
  NoDup l →
  ∃ route, _nearest_neighbor heap set_order l = Ret route ∧
    route ≡ₚ l ∧ NoDup route ∧ head route = head l ∧ (length l ≤ 1 → route = l).
Proof.
  intros Hnd.
  destruct (nearest_neighbor_spec heap set_order set_order_perm l)
    as (route & Hnn & Hhead & _ & Hperm & Hsmall & _).
  exists route. specialize (Hperm Hnd). repeat split; try done. by rewrite Hperm.
Qed.

(** C8. A non-empty itinerary returned by the brute-force planner scores
    strictly above -1; when every feasible subset scores at most -1 the
    planner returns the empty itinerary.  That is the case whenever the
    interest set is empty and every entry fee is at least 100, and it
    happens although a feasible subset exists, as for the one-spot
    catalog with an entry fee of 100. *)
Theorem C8_brute_force_score_above_minus_one :
  (∀ l b t I it, brute_force heap l b t I = Ret it → spots it ≠ [] →
     ∃ s, score heap I it = Ret s ∧ flt minus_one s = true) ∧
  (∀ l b t I it, brute_force heap l b t I = Ret it →
     (∀ c, c ∈ subsets l → feasible heap b t c →
        ∃ s, subset_score heap I c = Ret s ∧ fle s minus_one = true) →
     spots it = []) ∧
  (∀ l b t it, Forall (λ r, (100 ≤ entry_fee (heap r))%Z) l →
     brute_force heap l b t ∅ = Ret it → spots it = []) ∧
  (let l := [3%positive] in
   let b := 1000%Z in
   let t := Examples.hours 8 in
   Forall (λ r, (100 ≤ entry_fee (Examples.grid r))%Z) l ∧
   (∃ c, c ∈ subsets l ∧ feasible Examples.grid b t c) ∧
   brute_force Examples.grid l b t ∅ = Ret (Itinerary_init Examples.grid [] "Brute Force")).
Proof.
  split; [|split; [|split]].
  - intros l b t I it Hit Hne.
    destruct (brute_force_cases l b t I it Hit) as (_ & [?|(c & bs & H)]); [done|].
    exists bs. by destruct H as (_ & _ & _ & _ & _ & _ & _ & ? & ? & _).
  - intros l b t I it Hit Hall.
    destruct (brute_force_cases l b t I it Hit) as (_ & [?|(c & bs & H)]); [done|].
    destruct H as (Hc & Hfeas & _ & _ & _ & _ & Hsc & _ & Hgt & _).
    destruct (Hall c Hc Hfeas) as (s & Hs & Hle).
    rewrite Hsc in Hs. injection Hs as <-.
    apply fle_not_flt in Hle. congruence.
  - intros l b t it Hfees Hit. rewrite Forall_forall in Hfees.
    destruct (brute_force_cases l b t ∅ it Hit) as (_ & [?|(c & bs & H)]); [done|].
    destruct H as ([Hne Hc]%elem_of_subsets & _ & _ & _ & _ & _ & Hsc & _ & Hgt & _).
    apply (subset_score_no_interest heap) in Hsc; [|done|].
    + apply fle_not_flt in Hsc. congruence.
    + intros r Hr. apply Hfees.
      eapply elem_of_submseteq; [exact Hr|].
      etrans; [by apply sublist_submseteq|]. apply sublist_submseteq, sublist_take.
  - simpl. split; [by repeat constructor|]. split.
    + exists [3%positive]. split; [left|]. split; by vm_compute.
    + vm_compute. reflexivity.
Qed.

(** C9 (amended).  For a finite time budget and a catalog whose entry
    fees are non-negative and below [2^990], both planners return an
    itinerary; and when no non-empty selection of spots of the catalog
    fits the budget and the time budget, both return the empty one. *)
Theorem C9_planners_return l b t I :
  is_finite t = true →
  Forall (λ r, (0 ≤ entry_fee (heap r) < 2 ^ 990)%Z) l →
  ∃ it_g it_b,
    greedy_heuristic heap set_order l b t I = Ret it_g ∧
    brute_force heap l b t I = Ret it_b ∧
    ((∀ route, route ≠ [] → route ⊆+ l →
        ¬ ((sum_fees heap route ≤ b)%Z ∧ fle (route_time heap route) t = true)) →
     spots it_g = [] ∧ spots it_b = []).
Proof.
  intros Ht Hfees. rewrite Forall_forall in Hfees.
  destruct (greedy_total heap set_order set_order_perm l b t I) as (it_g & Hg).
  { intros r Hr. apply int_truediv_100_Ret. specialize (Hfees r Hr).
    assert (2 ^ 990 < 2 ^ 1000)%Z by (by apply Z.pow_lt_mono_r). lia. }
  destruct (brute_force_total heap l b t I) as (it_b & Hb).
  { intros ->. done. }
  { intros c [_ Hc]%elem_of_subsets. apply int_truediv_100_Ret.
    pose proof (sublist_length _ _ Hc) as Hlen. rewrite length_take in Hlen.
    pose proof (sum_fees_bound heap c (2 ^ 990) ltac:(lia)) as Hsum.
    assert (Z.abs (sum_fees heap c) ≤ Z.of_nat (length c) * 2 ^ 990)%Z as Hle.
    { apply Hsum. intros r Hr.
      assert (r ∈ l) as Hrl.
      { eapply elem_of_submseteq; [exact Hr|].
        etrans; [by apply sublist_submseteq|]. apply sublist_submseteq, sublist_take. }
      specialize (Hfees r Hrl). lia. }
    assert (8 * 2 ^ 990 ≤ 2 ^ 1000)%Z by (by vm_compute).
    assert (0 < 2 ^ 990)%Z by (by vm_compute).
    assert (Z.of_nat (length c) ≤ 6)%Z by lia. nia. }
  exists it_g, it_b. split; [done|]. split; [done|]. intros Hinf. split.
  - destruct (greedy_spec heap set_order set_order_perm l b t I it_g Hg)
      as (Hinit & Hsub & Htime & Hcost & _).
    pose proof (init_total_time it_g _ Hinit) as Htt.
    destruct (spots it_g) as [|s0 sp] eqn:Hsp; [done|]. exfalso.
    apply (Hinf (s0 :: sp)); [done|done|]. split.
    + apply Hcost; [|done]. intros r Hr. specialize (Hfees r Hr). lia.
    + specialize (Htime ltac:(done)). by rewrite Htt in Htime.
  - destruct (brute_force_cases l b t I it_b Hb) as (_ & [?|(c & bs & H)]); [done|].
    destruct H as ([_ Hc]%elem_of_subsets & [Hcost Hfit] & Hperm & Hne & _ & Hmt & _).
    exfalso. apply (Hinf (spots it_b)); [done| |].
    + rewrite Hperm. etrans; [by apply sublist_submseteq|].
      apply sublist_submseteq, sublist_take.
    + split; [by rewrite (sum_fees_perm heap _ _ Hperm)|]. by rewrite <-Hmt.
Qed.

End Claims.

Section StoreClaims.
Variable set_order : gset ref → list ref.
Hypothesis set_order_perm : ∀ X, set_order X ≡ₚ elements X.

(** C10. Run on a store where the catalog is the list object [c], a
    planner (or the route orderer) leaves every spot object and every list
    object that existed before the call as it was, the catalog among
    them; the itinerary it returns holds a list object of its own, other
    than the catalog, and every spot in it is a spot of the catalog. *)
Theorem C10_planners_leave_catalog_untouched σ c l b t I :
  Imp.wf σ → Imp.lists σ !! c = Some l →
  let untouched (σ' : Imp.store) :=
    Imp.objs σ' = Imp.objs σ ∧
    ∀ a k, Imp.lists σ !! a = Some k → Imp.lists σ' !! a = Some k in
  let from_catalog (σ' : Imp.store) (a : Imp.loc) :=
    ∃ route, Imp.lists σ' !! a = Some route ∧ ∀ r, r ∈ route → r ∈ l in
  (∀ it σ', Imp.greedy_heuristic set_order c b t I σ = Ret (it, σ') →
     untouched σ' ∧ Imp.spots it ≠ c ∧ from_catalog σ' (Imp.spots it)) ∧
  (∀ it σ', Imp.brute_force c b t I σ = Ret (it, σ') →
     untouched σ' ∧ Imp.spots it ≠ c ∧ from_catalog σ' (Imp.spots it)) ∧
  (∀ a σ', Imp._nearest_neighbor set_order c σ = Ret (a, σ') →
     untouched σ' ∧ from_catalog σ' a).
Proof.
  intros Hwf Hc untouched from_catalog.
  pose proof (wf_lookup _ _ _ Hwf Hc) as Hlt.
  assert (∀ n σ', Imp.next σ ≤ n → Imp.frame n σ σ' → untouched σ') as Hframe.
  { intros n σ' Hn (Hobjs & _ & Hold). split; [done|]. intros a k Ha.
    rewrite Hold; [done|]. pose proof (wf_lookup _ _ _ Hwf Ha). lia. }
  split; [|split].
  - intros it σ' Hrun. pose proof (Imp_greedy_sim set_order c l σ b t I Hwf Hc) as Hsim.
    unfold sim in Hsim. rewrite Hrun in Hsim.
    destruct (greedy_heuristic _ _ l b t I) as [v| |] eqn:Hpure; [|done|done].
    destruct Hsim as (_ & Hfr & (Hsp & _) & Hnew).
    split; [by apply (Hframe (Imp.next σ)); [lia|]|]. split; [lia|]. exists (spots v). split; [done|].
    destruct (greedy_spec _ _ set_order_perm l b t I v Hpure) as (_ & Hsub & _).
    intros r Hr. by eapply elem_of_submseteq.
  - intros it σ' Hrun. pose proof (Imp_brute_force_sim c l σ b t I Hwf Hc) as Hsim.
    unfold sim in Hsim. rewrite Hrun in Hsim.
    destruct (brute_force _ l b t I) as [v| |] eqn:Hpure; [|done|done].
    destruct Hsim as (_ & Hfr & (Hsp & _) & Hnew).
    split; [by apply (Hframe (Imp.next σ)); [lia|]|]. split; [lia|]. exists (spots v). split; [done|].
    destruct (brute_force_cases (Imp.objs σ) l b t I v Hpure) as (_ & [Hnil|Hsome]).
    + rewrite Hnil. by intros r ?%elem_of_nil.
    + destruct Hsome as (s & bs & [_ Hs]%elem_of_subsets & _ & Hperm & _).
      intros r Hr. rewrite Hperm in Hr.
      eapply elem_of_submseteq; [exact Hr|].
      etrans; [by apply sublist_submseteq|]. apply sublist_submseteq, sublist_take.
  - intros a σ' Hrun.
    pose proof (Imp_nearest_neighbor_sim set_order c l 0 σ Hwf ltac:(lia) Hc) as Hsim.
    unfold sim in Hsim. rewrite Hrun in Hsim.
    destruct (nearest_neighbor_spec (Imp.objs σ) set_order set_order_perm l)
      as (route & Hpure & _ & _ & _ & _ & Hmem).
    rewrite Hpure in Hsim. destruct Hsim as (_ & Hfr & _ & Hroute).
    split; [by apply (Hframe (Imp.next σ)); [lia|]|]. exists route. split; [done|]. intros r. apply Hmem.
Qed.

End StoreClaims.

(** * The claims on concrete inputs *)

Import Examples.

Lemma ascending_perm X : ascending X ≡ₚ elements X.
Proof. apply merge_sort_Permutation. Qed.

Lemma descending_perm X : descending X ≡ₚ elements X.
Proof. unfold descending. by rewrite reverse_Permutation, ascending_perm. Qed.

Lemma scenario_greedy_run :
  greedy_heuristic SAMPLE_SPOTS ascending sample_catalog 1000 (hours 8) scenario_interests
    = Ret scenario_greedy.
Proof. vm_compute. reflexivity. Qed.

Lemma scenario_brute_run :
  brute_force SAMPLE_SPOTS sample_catalog 1000 (hours 8) scenario_interests
    = Ret scenario_brute.
Proof. vm_compute. reflexivity. Qed.

Lemma sample_fees_nonneg :
  Forall (λ r, (0 ≤ entry_fee (SAMPLE_SPOTS r))%Z) sample_catalog.
Proof. repeat constructor; by vm_compute. Qed.

(** C1 as the specification states it fails: with a budget of -1 both
    planners return the empty itinerary, whose cost 0 is above the budget.
    Nor can negative entry fees be allowed: with fees -60, -50 and 160, the
    second spot listed twice and a budget of 0, the greedy selection takes
    all four entries (cost 0), the route orderer drops the repetition, and
    the itinerary returned costs 50. *)
Lemma C1_counterexample :
  let it_g := Itinerary_init SAMPLE_SPOTS [] "Greedy Heuristic" in
  let it_b := Itinerary_init SAMPLE_SPOTS [] "Brute Force" in
  let it_r := Itinerary_init rebates [1; 2; 3]%positive "Greedy Heuristic" in
  (greedy_heuristic SAMPLE_SPOTS ascending sample_catalog (-1) (hours 8) scenario_interests
     = Ret it_g ∧
   brute_force SAMPLE_SPOTS sample_catalog (-1) (hours 8) scenario_interests = Ret it_b ∧
   total_cost it_g = 0%Z ∧ total_cost it_b = 0%Z ∧
   ¬ (total_cost it_g ≤ -1)%Z ∧ ¬ (total_cost it_b ≤ -1)%Z) ∧
  (greedy_heuristic rebates ascending [1; 2; 2; 3]%positive 0 (hours 10) ∅ = Ret it_r ∧
   total_cost it_r = 50%Z ∧ ¬ (total_cost it_r ≤ 0)%Z).
Proof.
  repeat split; try (vm_compute; reflexivity); simpl; lia.
Qed.

Lemma C1_witness :
  (total_cost scenario_greedy = sum_fees SAMPLE_SPOTS (spots scenario_greedy)
   ∧ (total_cost scenario_greedy ≤ 1000)%Z)
  ∧ (total_cost scenario_brute = sum_fees SAMPLE_SPOTS (spots scenario_brute)
     ∧ (total_cost scenario_brute ≤ 1000)%Z).
Proof.
  split.
  - apply (C1_total_cost_within_budget SAMPLE_SPOTS ascending ascending_perm
             sample_catalog 1000 (hours 8) scenario_interests);
      [lia|exact sample_fees_nonneg|left; exact scenario_greedy_run].
  - apply (C1_total_cost_within_budget SAMPLE_SPOTS ascending ascending_perm
             sample_catalog 1000 (hours 8) scenario_interests);
      [lia|exact sample_fees_nonneg|right; exact scenario_brute_run].
Defined.

Lemma C2_witness :
  (fle (total_time scenario_greedy) (hours 8) = true ∨ spots scenario_greedy = [])
  ∧ (fle (total_time scenario_brute) (hours 8) = true ∨ spots scenario_brute = []).
Proof.
  split.
  - apply (C2_total_time_within_budget SAMPLE_SPOTS ascending ascending_perm
             sample_catalog 1000 (hours 8) scenario_interests).
    left. exact scenario_greedy_run.
  - apply (C2_total_time_within_budget SAMPLE_SPOTS ascending ascending_perm
             sample_catalog 1000 (hours 8) scenario_interests).
    right. exact scenario_brute_run.
Defined.

(** C3 as the specification states it fails: on a one-spot catalog (fee
    50, no tag) with a budget of 100, two hours and the interest
    "nature", the greedy planner rejects the spot (it asks for 2.5 hours)
    and returns the empty itinerary, of score 0, while the brute-force
    planner returns the spot, of score -0.5. *)
Lemma C3_counterexample :
  let I : gset string := {["nature"]} in
  let it_g := Itinerary_init grid [] "Greedy Heuristic" in
  let it_b := Itinerary_init grid [1%positive] "Brute Force" in
  let minus_half := S754_finite true 4503599627370496 (-53) in
  length [1%positive] ≤ 6 ∧
  greedy_heuristic grid ascending [1%positive] 100 (hours 2) I = Ret it_g ∧
  brute_force grid [1%positive] 100 (hours 2) I = Ret it_b ∧
  score grid I it_g = Ret zero ∧
  score grid I it_b = Ret minus_half ∧
  fle zero minus_half = false ∧ flt minus_half zero = true.
Proof. repeat split; try (vm_compute; reflexivity). simpl. lia. Qed.

Lemma C3_witness :
  ∃ s_g s_b, score SAMPLE_SPOTS scenario_interests scenario_greedy = Ret s_g ∧
             score SAMPLE_SPOTS scenario_interests scenario_brute = Ret s_b ∧
             fle s_g s_b = true.
Proof.
  apply (C3_brute_force_not_worse_when_greedy_nonempty SAMPLE_SPOTS ascending
           ascending_perm sample_catalog 1000 (hours 8)).
  - simpl. lia.
  - exact sample_fees_nonneg.
  - exact scenario_greedy_run.
  - exact scenario_brute_run.
  - discriminate.
Defined.

(** C4 fails on the code: with the sample catalog, a budget of 500, eight
    hours and the interest "adventure", the subset made of the first spot
    alone is within both budgets (its score is -1), yet the planner
    returns the empty itinerary. *)
Lemma C4_brute_force_skips_feasible_subsets :
  let I : gset string := {["adventure"]} in
  [1%positive] ∈ subsets sample_catalog ∧
  feasible SAMPLE_SPOTS 500 (hours 8) [1%positive] ∧
  subset_score SAMPLE_SPOTS I [1%positive] = Ret minus_one ∧
  brute_force SAMPLE_SPOTS sample_catalog 500 (hours 8) I
    = Ret (Itinerary_init SAMPLE_SPOTS [] "Brute Force").
Proof.
  repeat split; try (vm_compute; reflexivity).
  - vm_compute. left.
  - by vm_compute.
Qed.

(** C5 as the specification states it fails: spots 2 and 3 are at the
    same distance from spot 1, spot 2 comes first in the input, and when
    the set iterates by decreasing address the route visits spot 3 first;
    with the other iteration order it visits spot 2 first. *)
Lemma C5_counterexample :
  distance_to (grid 1%positive) (grid 2%positive)
    = distance_to (grid 1%positive) (grid 3%positive) ∧
  descending {[2%positive; 3%positive]} = [3%positive; 2%positive] ∧
  _nearest_neighbor grid descending [1; 2; 3]%positive = Ret [1; 3; 2]%positive ∧
  _nearest_neighbor grid ascending [1; 2; 3]%positive = Ret [1; 2; 3]%positive.
Proof. repeat split; vm_compute; reflexivity. Qed.

Lemma C5_witness :
  ∃ nearest before after,
    descending {[2%positive; 3%positive]} = before ++ nearest :: after ∧
    (∀ s, s ∈ before →
       flt (distance_to (grid 1%positive) (grid nearest))
           (distance_to (grid 1%positive) (grid s)) = true) ∧
    (∀ s, s ∈ after →
       fle (distance_to (grid 1%positive) (grid nearest))
           (distance_to (grid 1%positive) (grid s)) = true) ∧
    nn_loop grid descending 2 [1%positive] {[2%positive; 3%positive]} =
      nn_loop grid descending 1 ([1%positive] ++ [nearest])
        ({[2%positive; 3%positive]} ∖ {[nearest]}).
Proof.
  apply (C5_tie_broken_by_set_iteration_order grid descending descending_perm
           1 [1%positive] {[2%positive; 3%positive]} 1%positive).
  - by vm_compute.
  - reflexivity.
  - by split.
  - intros s [Hs|Hs]%elem_of_union; apply elem_of_singleton in Hs as ->; by split.
Defined.

(** C6 as the specification states it fails: with the sample catalog, a
    budget of 1000, eight hours and an empty interest set, the greedy
    planner returns three spots. *)
Lemma C6_counterexample :
  greedy_heuristic SAMPLE_SPOTS ascending sample_catalog 1000 (hours 8) ∅
    = Ret (Itinerary_init SAMPLE_SPOTS [1; 3; 5]%positive "Greedy Heuristic").
Proof. vm_compute. reflexivity. Qed.

Lemma C6_witness :
  greedy_heuristic SAMPLE_SPOTS ascending [] 1000 (hours 8) ∅
    = Ret (Itinerary_init SAMPLE_SPOTS [] "Greedy Heuristic") ∧
  (∀ r, interest_score (SAMPLE_SPOTS r) ∅ = 0%Z) ∧
  (∀ l it, greedy_heuristic SAMPLE_SPOTS ascending l 1000 (hours 8) ∅ = Ret it →
     (spots it = [] ↔
      Forall (λ r, ¬ ((entry_fee (SAMPLE_SPOTS r) ≤ 1000)%Z
                      ∧ fle (fadd two half) (hours 8) = true)) l)).
Proof.
  exact (C6_greedy_empty_cases SAMPLE_SPOTS ascending ascending_perm 1000 (hours 8) ∅).
Defined.

Lemma C7_witness :
  ∃ route, _nearest_neighbor grid descending [1; 2; 3]%positive = Ret route ∧
    route ≡ₚ [1; 2; 3]%positive ∧ NoDup route ∧
    head route = head [1; 2; 3]%positive ∧
    (length [1; 2; 3]%positive ≤ 1 → route = [1; 2; 3]%positive).
Proof.
  apply (C7_nearest_neighbor_permutation grid descending descending_perm).
  apply (bool_decide_unpack (NoDup [1; 2; 3]%positive)). by vm_compute.
Defined.

(** C9 as the specification states it fails: an entry fee of [10^400]
    makes [fee / 100] raise OverflowError in either planner, and with an
    infinite time budget the brute-force planner raises TypeError on a
    pair of spots whose distance overflows. *)
Lemma C9_counterexample :
  greedy_heuristic grid ascending [4%positive] 1000 (hours 8) ∅ = Raise OverflowError ∧
  brute_force grid [4%positive] (10 ^ 401) (hours 8) ∅ = Raise OverflowError ∧
  brute_force grid [1; 5]%positive 1000 inf ∅ = Raise TypeError.
Proof. repeat split; vm_compute; reflexivity. Qed.

Lemma C9_witness :
  ∃ it_g it_b,
    greedy_heuristic SAMPLE_SPOTS ascending sample_catalog 1000 (hours 8)
      scenario_interests = Ret it_g ∧
    brute_force SAMPLE_SPOTS sample_catalog 1000 (hours 8) scenario_interests
      = Ret it_b ∧
    ((∀ route, route ≠ [] → route ⊆+ sample_catalog →
        ¬ ((sum_fees SAMPLE_SPOTS route ≤ 1000)%Z
           ∧ fle (route_time SAMPLE_SPOTS route) (hours 8) = true)) →
     spots it_g = [] ∧ spots it_b = []).
Proof.
  apply (C9_planners_return SAMPLE_SPOTS ascending ascending_perm).
  - reflexivity.
  - repeat constructor; by vm_compute.
Defined.

Lemma sample_store_wf : Imp.wf sample_store.
Proof. intros a Ha. apply lookup_singleton_ne. simpl in Ha. lia. Qed.

Lemma C10_witness :
  ∃ it σ',
    Imp.greedy_heuristic ascending 0 1000 (hours 8) scenario_interests sample_store
      = Ret (it, σ') ∧
    (Imp.objs σ' = Imp.objs sample_store ∧
     ∀ a k, Imp.lists sample_store !! a = Some k → Imp.lists σ' !! a = Some k) ∧
    Imp.spots it ≠ 0 ∧
    ∃ route, Imp.lists σ' !! Imp.spots it = Some route ∧
             ∀ r, r ∈ route → r ∈ sample_catalog.
Proof.
  eexists _, _. split; [vm_compute; reflexivity|].
  apply (proj1 (C10_planners_leave_catalog_untouched ascending ascending_perm
                  sample_store 0 sample_catalog 1000 (hours 8) scenario_interests
                  sample_store_wf eq_refl)).
  vm_compute. reflexivity.
Defined.

(** * Further properties of the code *)

(** ** Floats: signs, distances *)

Lemma binary_round_aux_abs s mx ex lx :
  SFabs (binary_round_aux prec emax s mx ex lx)
  = SFabs (binary_round_aux prec emax false mx ex lx).
Proof.
  unfold binary_round_aux.
  destruct (shr_fexp prec emax mx ex lx) as [mrs' e'].
  destruct (shr_fexp prec emax _ e' loc_Exact) as [mrs'' e''].
  destruct (shr_m mrs''); try done. by destruct (_ <=? _)%Z.
Qed.

Lemma binary_normalize_opp_abs m e :
  SFabs (binary_normalize prec emax (- m) e false)
  = SFabs (binary_normalize prec emax m e false).
Proof.
  destruct m as [|p|p]; simpl; [done| |]; unfold binary_round;
    destruct (shl_align _ _ _) as [mz ez];
    [|symmetry]; apply binary_round_aux_abs.
Qed.

Lemma fsub_swap_abs x y : SFabs (fsub x y) = SFabs (fsub y x).
Proof.
  destruct x as [[]|[]| |sx mx ex], y as [[]|[]| |sy my ey]; try done.
  unfold fsub, SFsub. rewrite (Z.min_comm ey ex).
  rewrite <-binary_normalize_opp_abs. f_equal. f_equal. lia.
Qed.

Lemma fmul_self_abs x : fmul x x = fmul (SFabs x) (SFabs x).
Proof.
  destruct x as [[]|[]| |[] m e]; try done; unfold fmul, SFmul, SFabs; simpl xorb; done.
Qed.

Lemma fsub_self x : is_finite x = true → fsub x x = zero.
Proof.
  destruct x as [[]| | |[] m e]; try done; intros _; unfold fsub, SFsub;
    rewrite Z.min_id; unfold cond_Zopp;
    match goal with |- binary_normalize _ _ (?a - ?a)%Z _ _ = _ =>
      replace (a - a)%Z with 0%Z by lia end; done.
Qed.

Lemma distance_to_self a : finite_coordinates a → distance_to a a = zero.
Proof.
  intros [H1 H2]. unfold distance_to. cbv zeta. by rewrite !fsub_self.
Qed.

Lemma fsqrt_nonneg x : is_nonneg x = true → is_nonneg (fsqrt x) = true.
Proof.
  destruct x as [[]|[]| |[] m e]; try done; intros _. unfold fsqrt, SFsqrt.
  destruct (SFsqrt_core_binary prec emax (Z.pos m) e) as [[mz ez] lz] eqn:Hcore.
  apply binary_round_aux_nonneg.
  unfold SFsqrt_core_binary in Hcore.
  match type of Hcore with context [Z.sqrtrem ?n] =>
    pose proof (Z.sqrtrem_sqrt n) as Hs; destruct (Z.sqrtrem n) as [q r] end.
  simpl in Hs. injection Hcore as <- _ _. subst q. apply Z.sqrt_nonneg.
Qed.

Lemma distance_to_nonneg a b :
  finite_coordinates a → finite_coordinates b → is_nonneg (distance_to a b) = true.
Proof.
  intros [Ha1 Ha2] [Hb1 Hb2]. unfold distance_to.
  apply fsqrt_nonneg, fadd_nonneg; apply fmul_self_nonneg, fsub_not_nan;
    auto using is_finite_not_nan.
Qed.

Lemma is_nonneg_fle_zero x : is_nonneg x = true → fle zero x = true.
Proof. by destruct x as [[]|[]| |[] m e]. Qed.

Lemma float_of_int_nonneg z : (0 ≤ z)%Z → is_nonneg (float_of_int z) = true.
Proof.
  intros Hz. unfold float_of_int. destruct z as [|p|p]; [done| |lia].
  simpl. unfold binary_round. destruct (shl_align _ _ _).
  by apply binary_round_aux_nonneg.
Qed.

Lemma fmul_nonneg_finite x m e :
  is_nonneg x = true → is_nonneg (fmul x (S754_finite false m e)) = true.
Proof.
  destruct x as [[]|[]| |[] mx ex]; try done; intros _.
  unfold fmul, SFmul. simpl xorb. by apply binary_round_aux_nonneg.
Qed.

Lemma two_eq : two = S754_finite false 4503599627370496 (-51).
Proof. by vm_compute. Qed.

Lemma twenty_eq : twenty = S754_finite false 5629499534213120 (-48).
Proof. by vm_compute. Qed.

Lemma is_nonneg_not_nan x : is_nonneg x = true → is_nan x = false.
Proof. by destruct x. Qed.

Lemma fadd_not_nan x y : is_nan x = false → is_finite y = true → is_nan (fadd x y) = false.
Proof.
  intros Hx Hy. destruct y as [sy| | |sy my ey]; try discriminate;
    destruct x as [sx|sx| |sx mx ex]; try discriminate; unfold fadd, SFadd;
    try apply binary_normalize_not_nan; try reflexivity; by destruct sx, sy.
Qed.

(** ** Floats: rounding is monotone *)

Section Monotone.
Local Open Scope Z_scope.

Lemma shr_m_shr_1 r : 0 ≤ shr_m r → shr_m (shr_1 r) = shr_m r / 2.
Proof.
  destruct r as [[|[p|p|]|p] ? ?]; simpl; intros H; try done; try lia.
  - rewrite Pos2Z.inj_xI. Z.to_euclidean_division_equations. lia.
  - rewrite Pos2Z.inj_xO. Z.to_euclidean_division_equations. lia.
Qed.

Lemma pow2_pos n : 0 < 2 ^ Z.pos n.
Proof. apply Z.pow_pos_nonneg; lia. Qed.

Lemma pow2_xI p : 2 ^ Z.pos p~1 = 2 * (2 ^ Z.pos p * 2 ^ Z.pos p).
Proof.
  replace (Z.pos p~1) with (1 + (Z.pos p + Z.pos p)) by lia.
  by rewrite !Z.pow_add_r, Z.pow_1_r by lia.
Qed.

Lemma pow2_xO p : 2 ^ Z.pos p~0 = 2 ^ Z.pos p * 2 ^ Z.pos p.
Proof.
  replace (Z.pos p~0) with (Z.pos p + Z.pos p) by lia.
  by rewrite !Z.pow_add_r by lia.
Qed.

Lemma shr_m_iter_shr_1 p : ∀ r, 0 ≤ shr_m r →
  shr_m (SpecFloat.iter_pos shr_1 p r) = shr_m r / 2 ^ Z.pos p.
Proof.
  induction p as [p IH|p IH|]; intros r Hr; simpl SpecFloat.iter_pos.
  - rewrite IH, IH, shr_m_shr_1 by auto using iter_shr_1_nonneg, shr_1_nonneg.
    pose proof (pow2_pos p).
    rewrite !Z.div_div by lia. by rewrite pow2_xI.
  - rewrite IH, IH by auto using iter_shr_1_nonneg.
    pose proof (pow2_pos p).
    rewrite !Z.div_div by lia. by rewrite pow2_xO.
  - by rewrite shr_m_shr_1.
Qed.

(** What [shr_fexp] leaves of an exact mantissa. *)
Lemma shr_fexp_exact m e :
  0 ≤ m → e ≤ fexp prec emax (Zdigits2 m + e) →
  let e1 := fexp prec emax (Zdigits2 m + e) in
  let r := shr_fexp prec emax m e loc_Exact in
  r.2 = e1 ∧ shr_m r.1 = m / 2 ^ (e1 - e) ∧
  Zdigits2 (shr_m r.1) = Z.max 0 (Zdigits2 m - (e1 - e)) ∧
  (e1 = e → r.1 = Build_shr_record m false false).
Proof.
  intros Hm He. cbv zeta. unfold shr_fexp, shr.
  destruct (fexp prec emax (Zdigits2 m + e) - e) as [|n|n] eqn:Hn; simpl.
  - pose proof (Zdigits2_nonneg m). rewrite Z.div_1_r. repeat split; lia || done.
  - split; [lia|]. rewrite Zdigits2_iter_shr_1, shr_m_iter_shr_1 by done. simpl.
    repeat split; try done. lia.
  - lia.
Qed.

Lemma fexp_mono a b : a ≤ b → fexp prec emax a ≤ fexp prec emax b.
Proof. unfold fexp. lia. Qed.

Lemma fexp_ge_emin a : SpecFloat.emin prec emax ≤ fexp prec emax a.
Proof. unfold fexp. lia. Qed.

(** Rounding a positive mantissa: the result is canonical, its exponent is
    at least the canonical exponent [e1] of the operand, and at that
    exponent its mantissa is at least the operand's truncated one. *)
Lemma binary_round_aux_pos mx ex :
  0 < mx → ex ≤ fexp prec emax (Zdigits2 mx + ex) →
  let e1 := fexp prec emax (Zdigits2 mx + ex) in
  match binary_round_aux prec emax false mx ex loc_Exact with
  | S754_finite false m e =>
      canonical_mantissa prec emax m e = true ∧
      (e1 < e ∨ (e = e1 ∧ mx / 2 ^ (e1 - ex) ≤ Z.pos m))
  | S754_infinity false => True
  | S754_zero _ => Zdigits2 mx + ex ≤ SpecFloat.emin prec emax
  | _ => False
  end.
Proof.
  intros Hm He. cbv zeta. unfold binary_round_aux.
  destruct (shr_fexp_exact mx ex ltac:(lia) He) as (He' & Hm1 & Hd1 & _).
  destruct (shr_fexp prec emax mx ex loc_Exact) as [mrs' e'] eqn:E1. simpl in He', Hm1, Hd1.
  set (e1 := fexp prec emax (Zdigits2 mx + ex)) in *.
  set (D := Zdigits2 mx) in *.
  assert (0 ≤ shr_m mrs') as Hm1pos.
  { rewrite Hm1. apply Z.div_pos; [lia|]. apply Z.pow_pos_nonneg; lia. }
  set (m2 := round_nearest_even (shr_m mrs') (loc_of_shr_record mrs')).
  pose proof (round_nearest_even_bounds (shr_m mrs') (loc_of_shr_record mrs')) as Hm2.
  fold m2 in Hm2.
  assert (Zdigits2 (shr_m mrs') ≤ Zdigits2 m2 ≤ Zdigits2 (shr_m mrs') + 1) as Hd2.
  { split; [apply Zdigits2_mono; lia|].
    etrans; [apply (Zdigits2_mono m2 (shr_m mrs' + 1)); lia|].
    apply Zdigits2_succ. lia. }
  assert (fexp prec emax (Zdigits2 (shr_m mrs') + e') = e') as Hcan1.
  { rewrite Hd1, He'. unfold e1, D, fexp, SpecFloat.emin, prec, emax in *. lia. }
  assert (e' ≤ fexp prec emax (Zdigits2 m2 + e')) as He2.
  { rewrite <-Hcan1 at 1. apply fexp_mono. lia. }
  destruct (shr_fexp_exact m2 e' ltac:(lia) He2) as (He'' & Hm'' & Hd'' & Hsame).
  destruct (shr_fexp prec emax m2 e' loc_Exact) as [mrs'' e''] eqn:E2.
  simpl in He'', Hm'', Hd'', Hsame.
  pose proof (Zdigits2_nonneg (shr_m mrs')) as Hd1nn.
  destruct (shr_m mrs'') as [|m|m] eqn:Hres.
  - (* rounded to zero: the operand is below the least subnormal *)
    simpl in Hd''. 
    assert (Zdigits2 m2 = 0) as Hz.
    { unfold fexp, SpecFloat.emin, prec, emax in *. lia. }
    assert (Zdigits2 (shr_m mrs') = 0) as Hz1 by lia.
    rewrite Hz1 in Hd1. unfold e1, D, fexp, SpecFloat.emin, prec, emax in *. lia.
  - assert (fexp prec emax (Z.pos (digits2_pos m) + e'') = e'') as Hcan.
    { change (Z.pos (digits2_pos m)) with (Zdigits2 (Z.pos m)). rewrite Hd''.
      unfold fexp, SpecFloat.emin, prec, emax in *. lia. }
    destruct (e'' <=? emax - prec) eqn:Hov; [|done].
    split; [unfold canonical_mantissa; by apply Z.eqb_eq|].
    destruct (decide (e'' = e')) as [Heq|Hneq].
    + right. split; [lia|].
      assert (Z.pos m = m2) as ->.
      { rewrite Hm''. rewrite <-He'', Heq, Z.sub_diag. by rewrite Z.div_1_r. }
      fold e1. rewrite <-Hm1. lia.
    + left. unfold fexp, SpecFloat.emin, prec, emax in *. lia.
  - pose proof (Z.div_pos m2 (2 ^ (fexp prec emax (Zdigits2 m2 + e') - e'))
                  ltac:(lia) ltac:(apply Z.pow_pos_nonneg; lia)). lia.
Qed.

Lemma pos_iter_xO m d : Z.pos (Pos.iter xO m d) = Z.pos m * 2 ^ Z.pos d.
Proof.
  induction d as [|d IH] using Pos.peano_ind.
  - simpl. lia.
  - rewrite Pos.iter_succ, Pos2Z.inj_xO, IH, Pos2Z.inj_succ, Z.pow_succ_r by lia. lia.
Qed.

Lemma shl_align_le mx ex ez :
  ez ≤ ex → Z.pos (shl_align mx ex ez).1 = Z.pos mx * 2 ^ (ex - ez).
Proof.
  intros Hle. unfold shl_align.
  destruct (ez - ex) as [|d|d] eqn:Hd; simpl; try lia.
  - replace (ex - ez) with 0 by lia. lia.
  - rewrite pos_iter_xO. f_equal. f_equal. lia.
Qed.

Lemma Zdigits2_shift_le m k p :
  0 < m → 0 ≤ k → m * 2 ^ k ≤ p → Zdigits2 m + k ≤ Zdigits2 p.
Proof.
  intros Hm Hk Hp.
  assert (0 < Zdigits2 m) as Hd by (destruct m; simpl in *; lia).
  pose proof (Zdigits2_pow2_le m (Zdigits2 m - 1) ltac:(lia) ltac:(lia) ltac:(lia)) as Hlo.
  assert (2 ^ (Zdigits2 m - 1 + k) ≤ p) as Hp'.
  { rewrite Z.pow_add_r by lia. etrans; [|exact Hp].
    apply Z.mul_le_mono_nonneg_r; [apply Z.pow_nonneg; lia|done]. }
  pose proof (Zdigits2_ge_pow2 p (Zdigits2 m - 1 + k) ltac:(lia) Hp'). lia.
Qed.

Lemma canonical_exp m e :
  canonical_mantissa prec emax m e = true →
  fexp prec emax (Z.pos (digits2_pos m) + e) = e.
Proof. unfold canonical_mantissa. by intros ?%Z.eqb_eq. Qed.

Lemma fle_finite_le mx ex m e :
  ex < e ∨ (e = ex ∧ Z.pos mx ≤ Z.pos m) →
  fle (S754_finite false mx ex) (S754_finite false m e) = true.
Proof.
  intros H. unfold fle, SFleb, SFcompare.
  destruct (Z.compare_spec ex e) as [Heq|Hlt|Hgt]; [|done|lia].
  destruct H as [?|[_ Hle]]; [lia|].
  change (Pos.compare_cont Eq mx m) with (Pos.compare mx m).
  destruct (Pos.compare_spec mx m) as [?|?|Hlt]; try done.
  apply Pos2Z.pos_lt_pos in Hlt. lia.
Qed.

(** Adding a non-negative amount never shortens a duration. *)
Lemma fadd_duration x y :
  is_duration x = true → is_nonneg y = true →
  fle x (fadd x y) = true ∧ is_duration (fadd x y) = true.
Proof.
  destruct x as [|[]| |[] mx ex]; try done; intros Hx Hy.
  { destruct y as [[]|[]| |[] my ey]; try done. }
  simpl in Hx. pose proof (canonical_exp _ _ Hx) as Hcan.
  assert (fle (S754_finite false mx ex) (S754_finite false mx ex) = true) as Hrefl.
  { apply fle_finite_le. right. split; lia. }
  destruct y as [[]|[]| |[] my ey]; try done.
  unfold fadd, SFadd, cond_Zopp.
  set (ez := Z.min ex ey).
  pose proof (shl_align_le mx ex ez ltac:(lia)) as Hmx.
  change (Z.pos ?a + Z.pos ?b) with (Z.pos (a + b)).
  set (p := ((shl_align mx ex ez).1 + (shl_align my ey ez).1)%positive).
  assert (Z.pos mx * 2 ^ (ex - ez) ≤ Z.pos p) as Hp.
  { unfold p. rewrite Pos2Z.inj_add, Hmx. lia. }
  pose proof (Zdigits2_shift_le (Z.pos mx) (ex - ez) (Z.pos p) ltac:(lia) ltac:(lia) Hp) as Hd.
  simpl binary_normalize. unfold binary_round.
  set (e1 := fexp prec emax (Z.pos (digits2_pos p) + ez)).
  assert (ex ≤ e1) as He1.
  { rewrite <-Hcan. apply fexp_mono. simpl in Hd. lia. }
  assert (shl_align p ez e1 = (p, ez)) as ->.
  { unfold shl_align. destruct (e1 - ez) eqn:?; try done. lia. }
  assert (ez ≤ fexp prec emax (Zdigits2 (Z.pos p) + ez)) as Hez.
  { change (Zdigits2 (Z.pos p)) with (Z.pos (digits2_pos p)). fold e1. lia. }
  pose proof (binary_round_aux_pos (Z.pos p) ez ltac:(lia) Hez) as Hr.
  cbv zeta in Hr. change (Zdigits2 (Z.pos p)) with (Z.pos (digits2_pos p)) in Hr.
  fold e1 in Hr.
  pose proof (fexp_ge_emin (Z.pos (digits2_pos mx) + ex)) as Hemin.
  destruct (binary_round_aux prec emax false (Z.pos p) ez loc_Exact)
    as [s|[]| |[] m e]; try done.
  - (* zero is excluded: the sum is at least [x] *)
    exfalso. simpl in Hd. rewrite Hcan in Hemin. lia.
  - destruct Hr as [Hcanr Hr]. split; [|done].
    apply fle_finite_le. destruct Hr as [Hlt|[-> Hle]]; [left; lia|].
    destruct (decide (e1 = ex)) as [Heq|Hneq]; [right|left; lia].
    split; [done|]. etrans; [|exact Hle]. rewrite Heq.
    apply Z.div_le_lower_bound; [apply Z.pow_pos_nonneg; lia|lia].
Qed.

(** [float(z)] for [z >= 1] is a canonical float not below [1.0], or
    [inf]. *)
Lemma float_of_int_ge_one z :
  1 ≤ z →
  match float_of_int z with
  | S754_finite false m e =>
      canonical_mantissa prec emax m e = true ∧ (-52 < e ∨ (e = -52 ∧ 2 ^ 52 ≤ Z.pos m))
  | S754_infinity false => True
  | _ => False
  end.
Proof.
  intros Hz. destruct z as [|p|p]; try lia. unfold float_of_int. simpl binary_normalize.
  unfold binary_round.
  pose proof (Zdigits2_ge_pow2 (Z.pos p) 0 ltac:(lia) ltac:(simpl; lia)) as HD.
  simpl in HD. rewrite Z.add_0_r.
  set (D := Z.pos (digits2_pos p)) in *.
  assert (fexp prec emax D = D - 53) as He1.
  { unfold fexp, SpecFloat.emin, prec, emax. lia. }
  rewrite He1. unfold shl_align. rewrite Z.sub_0_r.
  destruct (D - 53) as [|n|n] eqn:Hn.
  - pose proof (binary_round_aux_pos (Z.pos p) 0 ltac:(lia)) as Hr.
    cbv zeta in Hr. change (Zdigits2 (Z.pos p)) with D in Hr.
    rewrite Z.add_0_r, He1 in Hr. specialize (Hr ltac:(lia)).
    destruct (binary_round_aux prec emax false (Z.pos p) 0 loc_Exact)
      as [s|[]| |[] m e]; try done;
      try (exfalso; unfold SpecFloat.emin, prec, emax in Hr; lia).
    destruct Hr as [? Hr]. split; [done|]. lia.
  - pose proof (binary_round_aux_pos (Z.pos p) 0 ltac:(lia)) as Hr.
    cbv zeta in Hr. change (Zdigits2 (Z.pos p)) with D in Hr.
    rewrite Z.add_0_r, He1 in Hr. specialize (Hr ltac:(lia)).
    destruct (binary_round_aux prec emax false (Z.pos p) 0 loc_Exact)
      as [s|[]| |[] m e]; try done;
      try (exfalso; unfold SpecFloat.emin, prec, emax in Hr; lia).
    destruct Hr as [? Hr]. split; [done|]. lia.
  - assert (Zdigits2 (Z.pos (Pos.iter xO p n)) = 53) as Hdz.
    { rewrite pos_iter_xO.
      assert (Z.pos p * 2 ^ Z.pos n < 2 ^ 53) as Hhi.
      { assert (Z.pos p < 2 ^ D) as Hp.
        { destruct (Z_lt_le_dec (Z.pos p) (2 ^ D)) as [|Hge]; [done|].
          pose proof (Zdigits2_ge_pow2 (Z.pos p) D ltac:(lia) Hge) as Hc.
          simpl in Hc. fold D in Hc. lia. }
        replace 53 with (D + Z.pos n) by lia. rewrite Z.pow_add_r by lia.
        apply Z.mul_lt_mono_pos_r; [apply Z.pow_pos_nonneg; lia|done]. }
      pose proof (Zdigits2_lt_pow2 (Z.pos p * 2 ^ Z.pos n) 53
                    ltac:(apply Z.mul_pos_pos; [lia|apply pow2_pos]) Hhi) as Hle.
      pose proof (Zdigits2_shift_le (Z.pos p) (Z.pos n) (Z.pos p * 2 ^ Z.pos n)
                    ltac:(lia) ltac:(lia) ltac:(lia)) as Hge.
      change (Zdigits2 (Z.pos p)) with D in Hge. lia. }
    pose proof (binary_round_aux_pos (Z.pos (Pos.iter xO p n)) (Z.neg n) ltac:(lia)) as Hr.
    cbv zeta in Hr. rewrite Hdz in Hr.
    assert (fexp prec emax (53 + Z.neg n) = Z.neg n) as He2.
    { unfold fexp, SpecFloat.emin, prec, emax. lia. }
    rewrite He2, Z.sub_diag, Z.div_1_r in Hr. specialize (Hr ltac:(lia)).
    destruct (binary_round_aux prec emax false (Z.pos (Pos.iter xO p n)) (Z.neg n) loc_Exact)
      as [s|[]| |[] m e]; try done;
      try (exfalso; unfold SpecFloat.emin, prec, emax in Hr; lia).
    destruct Hr as [? Hr]. split; [done|].
    destruct (decide (e = -52)) as [->|]; [right|left; lia]. split; [done|].
    destruct Hr as [?|[Hen Hle]]; [lia|]. etrans; [|exact Hle].
    assert (n = 52%positive) as -> by lia.
    rewrite pos_iter_xO. lia.
Qed.

Lemma canonical_normal m e :
  canonical_mantissa prec emax m e = true → SpecFloat.emin prec emax < e →
  Z.pos (digits2_pos m) = 53.
Proof.
  intros Hc%canonical_exp He. unfold fexp, SpecFloat.emin, prec, emax in *. lia.
Qed.

(** Two hours a spot: at least [2.0], and a duration. *)
Lemma visit_time_duration n :
  1 ≤ n →
  is_duration (fmul (float_of_int n) two) = true ∧
  fle two (fmul (float_of_int n) two) = true.
Proof.
  intros Hn. pose proof (float_of_int_ge_one n Hn) as Hf. rewrite two_eq.
  destruct (float_of_int n) as [|[]| |[] m e]; try done.
  destruct Hf as [Hcan Hge]. unfold fmul, SFmul. simpl xorb.
  pose proof (canonical_normal m e Hcan
                ltac:(unfold SpecFloat.emin, prec, emax; lia)) as Hdm.
  assert (Zdigits2 (Z.pos (m * 4503599627370496)) = 105) as HD.
  { rewrite Pos2Z.inj_mul. change (Z.pos 4503599627370496) with (2 ^ 52).
    assert (Z.pos m < 2 ^ 53) as Hp.
    { destruct (Z_lt_le_dec (Z.pos m) (2 ^ 53)) as [|Hge']; [done|].
      pose proof (Zdigits2_ge_pow2 (Z.pos m) 53 ltac:(lia) Hge') as Hc.
      simpl in Hc. lia. }
    pose proof (Zdigits2_lt_pow2 (Z.pos m * 2 ^ 52) 105 ltac:(lia) ltac:(lia)) as Hle.
    pose proof (Zdigits2_shift_le (Z.pos m) 52 (Z.pos m * 2 ^ 52)
                  ltac:(lia) ltac:(lia) ltac:(lia)) as Hge'.
    simpl Zdigits2 in Hge' at 1. lia. }
  pose proof (binary_round_aux_pos (Z.pos (m * 4503599627370496)) (e + -51) ltac:(lia)) as Hr.
  cbv zeta in Hr. rewrite HD in Hr.
  assert (fexp prec emax (105 + (e + -51)) = e + 1) as He1.
  { unfold fexp, SpecFloat.emin, prec, emax. lia. }
  rewrite He1 in Hr. specialize (Hr ltac:(lia)).
  destruct (binary_round_aux prec emax false (Z.pos (m * 4503599627370496)) (e + -51) loc_Exact)
    as [s|[]| |[] m' e']; try done;
    try (exfalso; unfold SpecFloat.emin, prec, emax in Hr; lia).
  replace (e + 1 - (e + -51)) with 52 in Hr by lia.
  rewrite Pos2Z.inj_mul in Hr. change (Z.pos 4503599627370496) with (2 ^ 52) in Hr.
  rewrite Z.div_mul in Hr by lia.
  destruct Hr as [Hcan' Hr]. split; [done|].
  apply fle_finite_le.
  change (Z.pos 4503599627370496) with (2 ^ 52). lia.
Qed.

End Monotone.

(** ** Sorting *)

Lemma insert_desc_sorted {A} (key : A → float) x l :
  (∀ y, y ∈ x :: l → is_nan (key y) = false) →
  sorted_desc key l → sorted_desc key (insert_desc key x l).
Proof.
  intros Hnan Hs. induction Hs as [|y ys Hs IH Hall]; simpl.
  - repeat constructor.
  - destruct (flt (key x) (key y)) eqn:Hxy.
    + constructor.
      * apply IH. intros z Hz. apply Hnan.
        apply elem_of_cons in Hz as [->|Hz]; [left|right; by right].
      * rewrite insert_desc_perm. constructor; [by apply flt_fle|done].
    + assert (fle (key y) (key x) = true) as Hyx.
      { apply not_flt_fle; [| |done]; apply Hnan; [left|right; left]. }
      constructor; [by constructor|]. constructor; [done|].
      eapply Forall_impl; [exact Hall|]. simpl. intros z Hz. by eapply fle_trans.
Qed.

Lemma sort_desc_sorted {A} (key : A → float) l :
  (∀ y, y ∈ l → is_nan (key y) = false) → sorted_desc key (sort_desc key l).
Proof.
  induction l as [|x l IH]; intros Hnan; [constructor|].
  unfold sort_desc. simpl. apply insert_desc_sorted.
  - intros y Hy. apply Hnan. rewrite <-(sort_desc_perm key l). exact Hy.
  - apply IH. intros y Hy. apply Hnan. by right.
Qed.

Lemma sorted_desc_app_cons {A} (key : A → float) pre x post :
  sorted_desc key (pre ++ x :: post) → ∀ y, y ∈ post → fle (key y) (key x) = true.
Proof.
  intros Hs y Hy. induction pre as [|p pre IH]; simpl in Hs.
  - apply StronglySorted_inv in Hs as [_ Hall]. by eapply Forall_forall in Hall.
  - apply StronglySorted_inv in Hs as [Hs _]. by apply IH.
Qed.

Lemma foldM_ext {A S} (f g : S → A → outcome S) (l : list A) :
  (∀ s x, x ∈ l → f s x = g s x) → ∀ s, foldM f s l = foldM g s l.
Proof.
  induction l as [|x l IH]; intros Hfg s; simpl; [done|].
  rewrite Hfg by left. destruct (g s x); simpl; try done.
  apply IH. intros s' y Hy. apply Hfg. by right.
Qed.

Lemma size_list_to_set_filter (t : list string) (I : gset string) :
  size (list_to_set (C := gset string) t ∩ I)
  = length (remove_dups (filter (λ x, x ∈ I) t)).
Proof.
  assert (list_to_set (C := gset string) t ∩ I
          = list_to_set (remove_dups (filter (λ x, x ∈ I) t))) as ->.
  { apply set_eq. intros x.
    rewrite elem_of_intersection, !elem_of_list_to_set, elem_of_remove_dups,
      list_elem_of_filter. tauto. }
  rewrite size_list_to_set; [done|apply NoDup_remove_dups].
Qed.

Lemma NoDup_of_submseteq {A} (l k : list A) : l ⊆+ k → NoDup k → NoDup l.
Proof.
  intros [k' Hk]%submseteq_Permutation Hnd. rewrite Hk in Hnd.
  by apply NoDup_app in Hnd as [? _].
Qed.

(** ** The planners *)

Section MoreOptimizerFacts.
Variable heap : ref → TouristSpot.
Variable set_order : gset ref → list ref.
Hypothesis set_order_perm : ∀ X, set_order X ≡ₚ elements X.

(** *** The cap of six *)

Lemma subsets_take l : subsets (take 6 l) = subsets l.
Proof.
  destruct (decide (length l ≤ 6)) as [Hle|Hgt]; [by rewrite take_ge|].
  unfold subsets. rewrite length_take.
  replace ((6 `min` length l) `min` 6) with 6 by lia.
  replace (length l `min` 6) with 6 by lia.
  by rewrite take_take.
Qed.

Lemma subsets_from l c : c ∈ subsets l → c `sublist_of` take 6 l.
Proof.
  intros [_ Hc]%elem_of_subsets. etrans; [exact Hc|].
  destruct (decide (length l ≤ 6)) as [Hle|Hgt].
  - by rewrite !take_ge by lia.
  - by replace (length l `min` 6) with 6 by lia.
Qed.

(** *** Interests no spot is tagged with *)

Lemma interest_score_ext s I I' :
  tags s ∩ I = tags s ∩ I' → interest_score s I = interest_score s I'.
Proof. unfold interest_score. by intros ->. Qed.

Lemma sum_interest_ext I I' l :
  (∀ r, r ∈ l → tags (heap r) ∩ I = tags (heap r) ∩ I') →
  sum_interest heap I l = sum_interest heap I' l.
Proof.
  induction l as [|r l IH]; intros H; simpl; [done|].
  rewrite (interest_score_ext _ I I') by (apply H; left).
  rewrite IH; [done|]. intros; apply H; by right.
Qed.

Lemma score_spots_ext I I' l :
  (∀ r, r ∈ l → tags (heap r) ∩ I = tags (heap r) ∩ I') →
  score_spots heap l I = score_spots heap l I'.
Proof.
  induction l as [|r l IH]; intros H; simpl; [done|].
  rewrite (interest_score_ext _ I I') by (apply H; left).
  rewrite IH; [done|]. intros; apply H; by right.
Qed.

Lemma subset_step_ext b t I I' l st c :
  (∀ r, r ∈ l → tags (heap r) ∩ I = tags (heap r) ∩ I') →
  c ∈ subsets l →
  subset_step heap b t I st c = subset_step heap b t I' st c.
Proof.
  intros H Hc. unfold subset_step.
  destruct (bool_decide _); [done|].
  destruct (best_perm_spec heap c) as (_ & Hsome & _).
  destruct (best_perm heap c) as [[p|] mt]; [|done]. simpl in Hsome.
  destruct (Hsome p eq_refl) as [Hperm _].
  rewrite (sum_interest_ext I I' p); [done|].
  intros r Hr. apply H. rewrite Hperm in Hr.
  apply subsets_from in Hc.
  eapply elem_of_submseteq; [exact Hr|].
  etrans; [by apply sublist_submseteq|]. apply sublist_submseteq, sublist_take.
Qed.

(** *** Times are numbers *)

Lemma add_travel_nonneg l : ∀ time,
  (∀ r, r ∈ l → finite_coordinates (heap r)) →
  is_nonneg time = true → is_nonneg (add_travel heap time l) = true.
Proof.
  induction l as [|a [|b l] IH]; intros time Hfin Ht; [done|done|].
  change (is_nonneg (add_travel heap
            (fadd time (fmul (distance_to (heap a) (heap b)) twenty)) (b :: l)) = true).
  apply IH; [intros r Hr; apply Hfin; by right|].
  apply fadd_nonneg; [done|]. rewrite twenty_eq. apply fmul_nonneg_finite.
  apply distance_to_nonneg; apply Hfin; [left|right; left].
Qed.

Lemma route_time_nonneg l :
  (∀ r, r ∈ l → finite_coordinates (heap r)) → is_nonneg (route_time heap l) = true.
Proof.
  intros Hfin. unfold route_time. apply add_travel_nonneg; [done|].
  rewrite two_eq. apply fmul_nonneg_finite, float_of_int_nonneg. lia.
Qed.

(** *** The exhaustive search, subset by subset *)

Lemma subset_step_cases b t I st c st' :
  subset_step heap b t I st c = Ret st' →
  (st' = st ∧
   (¬ feasible heap b t c ∨
    (feasible heap b t c ∧
     ∃ s, subset_score heap I c = Ret s ∧ flt st.2 s = false))) ∨
  (feasible heap b t c ∧
   ∃ p s, (best_perm heap c).1 = Some p ∧ subset_score heap I c = Ret s ∧
          flt st.2 s = true ∧ st' = (Itinerary_init heap p "Brute Force", s)).
Proof.
  unfold subset_step. intros Hstep.
  destruct (bool_decide (sum_fees heap c > b)%Z) eqn:Hcost.
  { injection Hstep as <-. left. split; [done|left].
    apply bool_decide_eq_true in Hcost. intros [? _]. lia. }
  apply bool_decide_eq_false in Hcost.
  destruct (best_perm_spec heap c) as (_ & Hsome & _ & _).
  destruct (best_perm heap c) as [bp mt] eqn:Hbp. simpl in Hsome.
  destruct (fle mt t) eqn:Hfit; cycle 1.
  { injection Hstep as <-. left. split; [done|left].
    intros [_ Hf]. rewrite Hbp in Hf. simpl in Hf. congruence. }
  assert (feasible heap b t c) as Hfeas.
  { split; [lia|]. by rewrite Hbp. }
  destruct bp as [p|]; [|done].
  destruct (Hsome p eq_refl) as [Hperm Hmt].
  apply bind_Ret_inv in Hstep as (pen & Hpen & Hstep).
  set (sc := fsub (float_of_int (sum_interest heap I p)) pen) in *.
  assert (subset_score heap I c = Ret sc) as Hsc.
  { rewrite <-(subset_score_perm heap I c p Hperm). unfold subset_score.
    rewrite (sum_fees_perm heap p c Hperm), Hpen. done. }
  destruct (flt st.2 sc) eqn:Hbetter; injection Hstep as <-.
  - right. split; [done|]. by exists p, sc.
  - left. split; [done|right]. split; [done|]. by exists sc.
Qed.

Lemma subset_step_first b t I done c st st' :
  first_best heap b t I done st →
  subset_step heap b t I st c = Ret st' → first_best heap b t I (done ++ [c]) st'.
Proof.
  intros Hinv Hstep.
  destruct (subset_step_cases b t I st c st' Hstep)
    as [[-> Hkeep]|(Hfeas & p & s & Hp & Hs & Hbetter & ->)].
  - assert (feasible heap b t c →
            ∃ s, subset_score heap I c = Ret s ∧ fle s st.2 = true) as Hc.
    { intros Hfeas. destruct Hkeep as [?|(_ & s & Hs & Hnlt)]; [done|].
      exists s. split; [done|]. apply not_flt_fle; [| |done].
      - destruct Hinv as [[-> _]|(_ & _ & _ & _ & _ & _ & _ & _ & _ & Hgt & _)]; [done|].
        by apply flt_not_nan in Hgt as [_ ?].
      - by eapply subset_score_not_nan. }
    destruct Hinv as [[-> Hall]|(pre & c0 & post & p & -> & ? & ? & ? & ? & ? & Hpre & Hpost)].
    + left. split; [done|].
      intros c' [Hc'|Hc'%list_elem_of_singleton]%elem_of_app Hf; [by apply Hall|].
      subst c'. by apply Hc.
    + right. exists pre, c0, (post ++ [c]), p. rewrite <-app_assoc. simpl.
      repeat (split; [done|]).
      intros c' [Hc'|Hc'%list_elem_of_singleton]%elem_of_app Hf; [by apply Hpost|].
      subst c'. by apply Hc.
  - right. exists done, c, [], p. simpl. repeat (split; [done|]).
    split; [|split; [|by intros c' ?%elem_of_nil]].
    + destruct Hinv as [[-> _]|(_ & _ & _ & _ & _ & _ & _ & _ & _ & Hgt & _)]; [done|].
      by eapply flt_trans.
    + intros c' Hc' Hf.
      destruct Hinv as [[-> Hall]|(pre & c0 & post & p0 & -> & ? & ? & ? & Hs0 & ? & Hpre & Hpost)].
      * destruct (Hall c' Hc' Hf) as (s' & Hs' & Hle). exists s'. split; [done|].
        by eapply fle_flt_trans.
      * apply elem_of_app in Hc' as [Hc'|[->|Hc']%elem_of_cons].
        -- destruct (Hpre c' Hc' Hf) as (s' & Hs' & Hlt). exists s'. split; [done|].
           by eapply flt_trans.
        -- exists st.2. by split.
        -- destruct (Hpost c' Hc' Hf) as (s' & Hs' & Hle). exists s'. split; [done|].
           by eapply fle_flt_trans.
Qed.

Lemma brute_force_first l b t I it :
  brute_force heap l b t I = Ret it →
  ∃ bs, first_best heap b t I (subsets l) (it, bs).
Proof.
  unfold brute_force. intros ([it' bs] & Hfold & [= <-])%bind_Ret_inv.
  exists bs. revert Hfold. apply (foldM_ind _ (first_best heap b t I)).
  - left. split; [done|]. by intros c ?%elem_of_nil.
  - intros done c st st' _ Hinv Hstep. by eapply subset_step_first.
Qed.

(** *** Two hours a spot *)

Lemma add_travel_ge l : ∀ time,
  (∀ r, r ∈ l → finite_coordinates (heap r)) →
  is_duration time = true →
  fle time (add_travel heap time l) = true ∧ is_duration (add_travel heap time l) = true.
Proof.
  induction l as [|a [|b l] IH]; intros time Hfin Ht.
  - split; [|done]. by destruct time as [|[]| |[] m e]; try done; apply fle_finite_le; lia.
  - split; [|done]. by destruct time as [|[]| |[] m e]; try done; apply fle_finite_le; lia.
  - change (add_travel heap time (a :: b :: l)) with
      (add_travel heap (fadd time (fmul (distance_to (heap a) (heap b)) twenty)) (b :: l)).
    destruct (fadd_duration time (fmul (distance_to (heap a) (heap b)) twenty) Ht)
      as [Hle Hd].
    { rewrite twenty_eq. apply fmul_nonneg_finite.
      apply distance_to_nonneg; apply Hfin; [left|right; left]. }
    destruct (IH _ ltac:(intros r Hr; apply Hfin; by right) Hd) as [Hle' Hd'].
    split; [|done]. by eapply fle_trans.
Qed.

(** Two hours a spot is a lower bound of the time of a route. *)
Lemma route_time_ge l :
  l ≠ [] → (∀ r, r ∈ l → finite_coordinates (heap r)) →
  fle (fmul (float_of_int (Z.of_nat (length l))) two) (route_time heap l) = true ∧
  fle two (route_time heap l) = true.
Proof.
  intros Hne Hfin. unfold route_time.
  destruct (visit_time_duration (Z.of_nat (length l))) as [Hd Htwo].
  { destruct l; [done|]. simpl. lia. }
  destruct (add_travel_ge l _ Hfin Hd) as [Hle _].
  split; [done|]. by eapply fle_trans.
Qed.

(** *** The route orderer *)

Lemma nearest_neighbor_tail s0 rest :
  rest ≠ [] →
  ∃ out, _nearest_neighbor heap set_order (s0 :: rest) = Ret (s0 :: out) ∧
         out ≡ₚ elements (list_to_set (C := gset ref) rest).
Proof.
  intros Hne. destruct rest as [|s1 rest]; [done|].
  destruct (nn_loop_spec heap set_order set_order_perm
              (size (list_to_set (C := gset ref) (s1 :: rest))) [s0]
              (list_to_set (s1 :: rest))) as (out & Hout & Hperm); [done|done|].
  exists out. by split.
Qed.

(** Every spot the loop appends is, among the spots not placed before it,
    one nearest to its predecessor. *)
Lemma nn_loop_nearest fuel : ∀ route remaining res,
  route ≠ [] → size remaining ≤ fuel →
  (∀ r, r ∈ route → finite_coordinates (heap r)) →
  (∀ r, r ∈ remaining → finite_coordinates (heap r)) →
  nn_loop heap set_order fuel route remaining = Ret res →
  ∀ pre a b post, res = pre ++ a :: b :: post → length route ≤ S (length pre) →
    ∀ s, s ∈ post →
      fle (distance_to (heap a) (heap b)) (distance_to (heap a) (heap s)) = true.
Proof.
  induction fuel as [|fuel IH]; intros route remaining res Hroute Hsize Hfr Hfrem Hrun
    pre a b post Hres Hlen s Hs.
  - apply Nat.le_0_r, size_empty_iff, leibniz_equiv in Hsize as ->. simpl in Hrun.
    rewrite decide_True in Hrun by done.
    injection Hrun as Hrr. rewrite Hrr, Hres, length_app in Hlen. simpl in Hlen. lia.
  - simpl in Hrun. destruct (decide (remaining = ∅)) as [->|Hne].
    { injection Hrun as Hrr. rewrite Hrr, Hres, length_app in Hlen. simpl in Hlen. lia. }
    destruct (last route) as [current|] eqn:Hlast; [|by apply last_None in Hlast].
    apply bind_Ret_inv in Hrun as (nearest & Hmin & Hrun).
    assert (nearest ∈ remaining) as Hin.
    { apply elem_of_elements. rewrite <-set_order_perm. by eapply min_by_elem. }
    rewrite decide_True in Hrun by done.
    assert (size (remaining ∖ {[nearest]}) ≤ fuel) as Hsize'.
    { assert (size (remaining ∖ {[nearest]}) = size remaining - 1) as ->; [|lia].
      rewrite size_difference; [by rewrite size_singleton|by apply singleton_subseteq_l]. }
    assert (∀ r, r ∈ route ++ [nearest] → finite_coordinates (heap r)) as Hfr'.
    { intros r [?|Hr%list_elem_of_singleton]%elem_of_app; [|subst r]; auto. }
    assert (∀ r, r ∈ remaining ∖ {[nearest]} → finite_coordinates (heap r)) as Hfrem'.
    { intros r [? _]%elem_of_difference. auto. }
    destruct (decide (length route = S (length pre))) as [Heq|Hneq]; cycle 1.
    { eapply (IH (route ++ [nearest]) _ res); try done.
      - by destruct route.
      - rewrite length_app. simpl. lia. }
    destruct (nn_loop_spec heap set_order set_order_perm fuel (route ++ [nearest])
                (remaining ∖ {[nearest]})) as (out & Hout & Hperm);
      [by destruct route|done|].
    rewrite Hrun in Hout. injection Hout as ->.
    apply last_Some in Hlast as [route' ->].
    rewrite length_app in Heq. simpl in Heq.
    rewrite <-!app_assoc in Hres. simpl in Hres.
    apply app_inj_1 in Hres as [<- Hres]; [|lia].
    injection Hres as <- <- <-.
    destruct (min_by_first (λ x, distance_to (heap current) (heap x))
                (set_order remaining) nearest) as (l1 & l2 & Hl & H1 & H2); [|done|].
    { intros y Hy. apply distance_to_not_nan.
      - apply Hfr. apply elem_of_app. right. left.
      - apply Hfrem, elem_of_elements. by rewrite <-set_order_perm. }
    assert (s ∈ set_order remaining) as Hsr.
    { rewrite set_order_perm. apply elem_of_elements.
      rewrite Hperm in Hs. apply elem_of_elements in Hs.
      by apply elem_of_difference in Hs as [? _]. }
    rewrite Hl in Hsr. apply elem_of_app in Hsr as [Hs1|[->|Hs2]%elem_of_cons].
    + apply flt_fle. by apply H1.
    + apply fle_refl, distance_to_not_nan.
      * apply Hfr. apply elem_of_app. right. left.
      * by apply Hfrem.
    + by apply H2.
Qed.

(** *** The greedy selection *)

Lemma score_spots_total_score I l scored :
  score_spots heap l I = Ret scored →
  Forall2 (λ r p, p.2 = r ∧ total_score heap I r = Ret p.1) l scored.
Proof.
  revert scored. induction l as [|x l IH]; intros scored; simpl.
  - intros [= <-]. constructor.
  - intros (c & Hc & H)%bind_Ret_inv. apply bind_Ret_inv in H as (sc & Hsc & [= <-]).
    constructor; [|by apply IH]. simpl. split; [done|]. unfold total_score. by rewrite Hc.
Qed.

Lemma total_score_not_nan I r s : total_score heap I r = Ret s → is_nan s = false.
Proof.
  unfold total_score. intros (c & Hc & [= <-])%bind_Ret_inv.
  apply fadd_not_nan; [apply float_of_int_not_nan|by eapply int_truediv_finite].
Qed.

Lemma select_first_pick sorted budget time_available :
  first_pick heap budget time_available sorted (select heap sorted budget time_available).
Proof.
  unfold select.
  apply (foldl_ind _ (first_pick heap budget time_available)).
  - left. repeat split; try done. by intros q ?%elem_of_nil.
  - intros done [sc spot] st Hinv. unfold select_step. simpl.
    destruct (bool_decide _ && fle _ _) eqn:Hacc.
    + apply andb_true_iff in Hacc as [Hfee%bool_decide_eq_true Htime].
      destruct Hinv as [(Hsel & Hb & Ht & Hall)|(pre & p & post & -> & Hhd & Hp & Hpre)].
      * right. exists done, (sc, spot), []. simpl. rewrite Hsel in *. simpl in *.
        rewrite Ht in Htime. rewrite Hb in Hfee.
        split; [done|]. split; [done|]. split; [done|].
        intros q Hq Hfee'. by apply (Hall q Hq).
      * right. exists pre, p, (post ++ [(sc, spot)]). simpl.
        rewrite <-app_assoc. simpl. split; [done|]. split; [|done].
        by destruct (selected st).
    + destruct Hinv as [(Hsel & Hb & Ht & Hall)|(pre & p & post & -> & Hhd & Hp & Hpre)].
      * left. repeat split; try done.
        intros q [Hq|Hq%list_elem_of_singleton]%elem_of_app; [by apply Hall|subst q].
        simpl. rewrite Hsel, Hb, Ht in Hacc. simpl in Hacc.
        intros [Hfee Htime]. rewrite Htime, bool_decide_eq_true_2 in Hacc; done.
      * right. exists pre, p, (post ++ [(sc, spot)]). by rewrite <-app_assoc.
Qed.

Lemma repair_head fuel cur t it :
  length cur ≤ fuel → repair heap set_order fuel cur t = Ret it →
  spots it = [] ∨ head (spots it) = head cur.
Proof.
  intros Hlen Hit.
  destruct (repair_spec heap set_order set_order_perm fuel cur t Hlen)
    as (it' & Hit' & _ & Hcases).
  rewrite Hit in Hit'. injection Hit' as <-.
  destruct Hcases as [?|(pre & [k ->] & Hne & Hnn & _)]; [by left|right].
  destruct (nearest_neighbor_spec heap set_order set_order_perm pre)
    as (route & Hnn' & Hhead & _).
  rewrite Hnn in Hnn'. injection Hnn' as <-. rewrite Hhead. by destruct pre.
Qed.

(** The exhaustive search returns when every subset has an ordering of
    finite time and a cost whose hundredth is a float. *)
Lemma brute_force_returns l b t I :
  (∀ c, c ∈ subsets l → (best_perm heap c).1 ≠ None) →
  (∀ c, c ∈ subsets l → ∃ f, int_truediv (sum_fees heap c) 100 = Ret f) →
  ∃ it, brute_force heap l b t I = Ret it.
Proof.
  intros Hperm Hdiv. unfold brute_force.
  destruct (foldM_Ret (subset_step heap b t I) (subsets l)) with
    (s := (Itinerary_init heap [] "Brute Force", minus_one)) as (st & ->); [|simpl; eauto].
  intros st c Hc. unfold subset_step.
  destruct (bool_decide _); [eauto|].
  specialize (Hperm c Hc).
  destruct (best_perm heap c) as [bp mt]. simpl in Hperm.
  destruct (fle mt t) eqn:Hfit; [|eauto].
  destruct bp as [p|]; [|done].
  destruct (Hdiv c Hc) as (f & ->). simpl. destruct (flt _ _); eauto.
Qed.

Lemma planner_time_bound l b t I it :
  greedy_heuristic heap set_order l b t I = Ret it ∨ brute_force heap l b t I = Ret it →
  spots it ≠ [] →
  spots it ⊆+ l ∧ fle (route_time heap (spots it)) t = true.
Proof.
  intros [Hg|Hb] Hne.
  - destruct (greedy_spec heap set_order set_order_perm l b t I it Hg)
      as (Hinit & Hsub & Htime & _).
    split; [done|]. specialize (Htime Hne).
    apply (f_equal total_time) in Hinit. simpl in Hinit.
    rewrite Hinit, calculate_time_nonempty in Htime; done.
  - destruct (brute_force_first l b t I it Hb) as (bs & [[Hst _]|H]).
    { injection Hst as -> _. done. }
    destruct H as (pre & c & post & p & Hsplit & [_ Hfit] & Hp & Hinit & _).
    simpl in Hinit. assert (spots it = p) as Hsp by (by rewrite Hinit).
    destruct (best_perm_spec heap c) as (_ & Hsome & _).
    destruct (Hsome p Hp) as [Hperm Hmt]. rewrite Hsp. split.
    + rewrite Hperm.
      assert (c ∈ subsets l) as Hc by (rewrite Hsplit; apply elem_of_app; right; left).
      apply subsets_from in Hc.
      etrans; [by apply sublist_submseteq|]. apply sublist_submseteq, sublist_take.
    + by rewrite <-Hmt.
Qed.

End MoreOptimizerFacts.

Lemma sample_penalties :
  Forall (λ r, ∃ f, int_truediv (- entry_fee (SAMPLE_SPOTS r)) 100 = Ret f) sample_catalog.
Proof. repeat constructor; eexists; vm_compute; reflexivity. Qed.

Lemma sample_subsets_ordered :
  forallb (λ c, match (best_perm SAMPLE_SPOTS c).1, int_truediv (sum_fees SAMPLE_SPOTS c) 100 with
                | Some _, Ret _ => true
                | _, _ => false
                end) (subsets sample_catalog) = true.
Proof. vm_compute. reflexivity. Qed.

(** ** The properties *)

(** X1. [interest_score] is ten points for each tag of the spot that is
    among the interests: never negative, at most ten times the number of
    tags and of interests, zero exactly when no tag is an interest, and
    not smaller for a larger interest set.  A tag given twice to
    [TouristSpot] counts once, the constructor keeps the tags as a set. *)
Theorem X1_interest_score_counts_shared_tags s I :
  (0 ≤ interest_score s I ≤ 10 * Z.of_nat (size (tags s)))%Z ∧
  (interest_score s I ≤ 10 * Z.of_nat (size I))%Z ∧
  (interest_score s I = 0%Z ↔ tags s ## I) ∧
  (∀ I', I ⊆ I' → (interest_score s I ≤ interest_score s I')%Z) ∧
  (∀ n lat lon fee opens closes t,
     interest_score (Examples.spot n lat lon fee opens closes t) I
     = (Z.of_nat (length (remove_dups (filter (λ x, x ∈ I) t))) * 10)%Z).
Proof.
  unfold interest_score. split; [|split; [|split; [|split]]].
  - pose proof (subseteq_size (tags s ∩ I) (tags s) (intersection_subseteq_l _ _)). lia.
  - pose proof (subseteq_size (tags s ∩ I) I (intersection_subseteq_r _ _)). lia.
  - split.
    + intros H. assert (size (tags s ∩ I) = 0) as H0%size_empty_inv by lia.
      by apply disjoint_intersection.
    + intros H%disjoint_intersection. apply leibniz_equiv in H.
      by rewrite H, size_empty.
  - intros I' HI.
    pose proof (subseteq_size (tags s ∩ I) (tags s ∩ I')) as Hle.
    assert (tags s ∩ I ⊆ tags s ∩ I') as Hsub.
    { intros x [? ?]%elem_of_intersection. apply elem_of_intersection. split; [done|].
      by apply HI. }
    specialize (Hle Hsub). lia.
  - intros n lat lon fee opens closes t. simpl. by rewrite size_list_to_set_filter.
Qed.

(** X2. The distance between two spots does not depend on the direction:
    [a.distance_to(b)] and [b.distance_to(a)] are the same float, whatever
    the coordinates. *)
Theorem X2_distance_symmetric a b : distance_to a b = distance_to b a.
Proof.
  unfold distance_to. cbv zeta.
  rewrite (fmul_self_abs (fsub (latitude a) (latitude b))),
          (fmul_self_abs (fsub (longitude a) (longitude b))),
          (fmul_self_abs (fsub (latitude b) (latitude a))),
          (fmul_self_abs (fsub (longitude b) (longitude a))).
  by rewrite (fsub_swap_abs (latitude a)), (fsub_swap_abs (longitude a)).
Qed.

(** X3. Between spots with finite coordinates the distance is a number
    (not NaN) that is not negative, and the distance of a spot to itself
    is [0.0]. *)
Theorem X3_distance_nonnegative a b :
  finite_coordinates a → finite_coordinates b →
  is_nan (distance_to a b) = false ∧ fle zero (distance_to a b) = true ∧
  distance_to a a = zero.
Proof.
  intros Ha Hb. split; [by apply distance_to_not_nan|].
  split; [by apply is_nonneg_fle_zero, distance_to_nonneg|by apply distance_to_self].
Qed.

Section MoreProperties.
Variable heap : ref → TouristSpot.
Variable set_order : gset ref → list ref.
Hypothesis set_order_perm : ∀ X, set_order X ≡ₚ elements X.

(** X4. An itinerary without spots takes [0.0] hours and costs nothing.
    One with [n >= 1] spots of finite coordinates takes at least two hours
    a spot: [n * 2.0 <= total_time], so at least [2.0]. *)
Theorem X4_total_time_at_least_two_hours_a_spot l alg :
  (∀ r, r ∈ l → finite_coordinates (heap r)) →
  let it := Itinerary_init heap l alg in
  (l = [] → total_time it = zero ∧ total_cost it = 0%Z) ∧
  (l ≠ [] →
     fle (fmul (float_of_int (Z.of_nat (length l))) two) (total_time it) = true ∧
     fle two (total_time it) = true).
Proof.
  intros Hfin. simpl. split; [by intros ->|].
  intros Hne. rewrite calculate_time_nonempty by done. by apply route_time_ge.
Qed.

(** X5. Either planner returns [n >= 1] spots only when two hours a spot
    fit the time budget, [n * 2.0 <= time_available]; with a time budget
    that is not at least [2.0] the itinerary is empty.  Coordinates are
    finite. *)
Theorem X5_planners_need_two_hours_a_spot l b t I it :
  (∀ r, r ∈ l → finite_coordinates (heap r)) →
  greedy_heuristic heap set_order l b t I = Ret it ∨ brute_force heap l b t I = Ret it →
  (spots it ≠ [] →
     fle (fmul (float_of_int (Z.of_nat (length (spots it)))) two) t = true) ∧
  (fle two t = false → spots it = []).
Proof.
  intros Hfin Hrun.
  assert (spots it ≠ [] →
          fle (fmul (float_of_int (Z.of_nat (length (spots it)))) two) t = true ∧
          fle two t = true) as Hboth.
  { intros Hne. destruct (planner_time_bound heap set_order set_order_perm l b t I it Hrun Hne) as [Hsub Hfit].
    destruct (route_time_ge heap (spots it) Hne) as [H1 H2].
    { intros r Hr. apply Hfin. by eapply elem_of_submseteq. }
    split; by eapply fle_trans. }
  split; [by intros Hne; apply Hboth|].
  intros Hlt. destruct (spots it) eqn:Hsp; [done|].
  destruct Hboth as [_ H]; [done|]. congruence.
Qed.

(** X6. From a catalog that lists no spot twice, either planner returns an
    itinerary that visits no spot twice. *)
Theorem X6_no_spot_visited_twice l b t I it :
  NoDup l →
  greedy_heuristic heap set_order l b t I = Ret it ∨ brute_force heap l b t I = Ret it →
  NoDup (spots it).
Proof.
  intros Hnd Hrun. destruct (spots it) eqn:Hsp; [constructor|]. rewrite <-Hsp.
  destruct (planner_time_bound heap set_order set_order_perm l b t I it Hrun) as [Hsub _]; [by rewrite Hsp|].
  by eapply NoDup_of_submseteq.
Qed.

(** X7. The exhaustive planner reads the first six spots of the catalog
    only: it returns on the whole catalog what it returns on its first
    six spots, so an itinerary of at most six spots, each taken from
    those six (and no more often than it occurs there). *)
Theorem X7_brute_force_reads_first_six l b t I :
  brute_force heap l b t I = brute_force heap (take 6 l) b t I ∧
  ∀ it, brute_force heap l b t I = Ret it →
    spots it ⊆+ take 6 l ∧ length (spots it) ≤ 6.
Proof.
  split.
  - unfold brute_force. by rewrite subsets_take.
  - intros it Hit. destruct (brute_force_first heap l b t I it Hit) as (bs & [[Hst _]|H]).
    { injection Hst as -> _. simpl. split; [apply submseteq_nil_l|lia]. }
    destruct H as (pre & c & post & p & Hsplit & _ & Hp & Hinit & _).
    simpl in Hinit. assert (spots it = p) as -> by (by rewrite Hinit).
    destruct (best_perm_spec heap c) as (_ & Hsome & _).
    destruct (Hsome p Hp) as [Hperm _].
    assert (c ∈ subsets l) as Hc by (rewrite Hsplit; apply elem_of_app; right; left).
    apply subsets_from in Hc. rewrite Hperm. split; [by apply sublist_submseteq|].
    apply sublist_length in Hc. rewrite length_take in Hc. lia.
Qed.

(** X8. The exhaustive planner returns its spots in an order of least
    total time: no other order of the same spots is faster.  Coordinates
    are finite. *)
Theorem X8_brute_force_route_is_fastest_order l b t I it :
  (∀ r, r ∈ l → finite_coordinates (heap r)) →
  brute_force heap l b t I = Ret it →
  ∀ q, q ≡ₚ spots it → fle (total_time it) (_calculate_time heap q) = true.
Proof.
  intros Hfin Hit q Hq.
  destruct (brute_force_first heap l b t I it Hit) as (bs & [[Hst _]|H]).
  { injection Hst as -> _. simpl in Hq. apply Permutation_nil_r in Hq as ->. done. }
  destruct H as (pre & c & post & p & Hsplit & _ & Hp & Hinit & _).
  simpl in Hinit. assert (spots it = p) as Hsp by (by rewrite Hinit).
  destruct (best_perm_spec heap c) as (_ & Hsome & _ & Hmin).
  destruct (Hsome p Hp) as [Hperm Hmt].
  assert (p ≠ []) as Hne.
  { assert (c ∈ subsets l) as [Hc _]%elem_of_subsets
      by (rewrite Hsplit; apply elem_of_app; right; left).
    intros ->. by apply Permutation_nil_l in Hperm. }
  assert (q ≠ []) as Hqne.
  { intros ->. rewrite Hsp in Hq. symmetry in Hq. by apply Permutation_nil_r in Hq. }
  rewrite Hinit. simpl. rewrite !calculate_time_nonempty by done. rewrite <-Hmt.
  apply Hmin; [by rewrite Hq, Hsp|].
  apply is_nonneg_not_nan, route_time_nonneg. intros r Hr. apply Hfin.
  rewrite Hq, Hsp, Hperm in Hr.
  assert (c ∈ subsets l) as Hc by (rewrite Hsplit; apply elem_of_app; right; left).
  apply subsets_from in Hc.
  eapply elem_of_submseteq; [exact Hr|].
  etrans; [by apply sublist_submseteq|]. apply sublist_submseteq, sublist_take.
Qed.

(** X9. Among the subsets within the budget and the time budget, the
    exhaustive planner keeps the first one of greatest score in the order
    of its loops (fewer spots first, then catalog positions): every such
    subset visited before the one returned scores strictly less, every
    later one scores no more. *)
Theorem X9_brute_force_keeps_first_best_subset l b t I it :
  brute_force heap l b t I = Ret it → spots it ≠ [] →
  ∃ pre c post bs,
    subsets l = pre ++ c :: post ∧ spots it ≡ₚ c ∧ feasible heap b t c ∧
    subset_score heap I c = Ret bs ∧
    (∀ c', c' ∈ pre → feasible heap b t c' →
       ∃ s, subset_score heap I c' = Ret s ∧ flt s bs = true) ∧
    (∀ c', c' ∈ post → feasible heap b t c' →
       ∃ s, subset_score heap I c' = Ret s ∧ fle s bs = true).
Proof.
  intros Hit Hne.
  destruct (brute_force_first heap l b t I it Hit) as (bs & [[Hst _]|H]).
  { injection Hst as -> _. done. }
  destruct H as (pre & c & post & p & Hsplit & Hfeas & Hp & Hinit & Hsc & _ & Hpre & Hpost).
  simpl in *. exists pre, c, post, bs.
  destruct (best_perm_spec heap c) as (_ & Hsome & _).
  destruct (Hsome p Hp) as [Hperm _].
  assert (spots it = p) as -> by (by rewrite Hinit). done.
Qed.

(** X10. A larger budget and a longer time budget never make the
    exhaustive planner do worse: if it returns a non-empty itinerary
    under [b] and [t], then under [b' >= b] and [t' >= t] it returns a
    non-empty itinerary whose score is at least as high. *)
Theorem X10_brute_force_monotone_in_budgets l b b' t t' I it it' :
  (b ≤ b')%Z → fle t t' = true →
  brute_force heap l b t I = Ret it → brute_force heap l b' t' I = Ret it' →
  spots it ≠ [] →
  spots it' ≠ [] ∧
  ∃ s s', score heap I it = Ret s ∧ score heap I it' = Ret s' ∧ fle s s' = true.
Proof.
  intros Hb Ht Hit Hit' Hne.
  destruct (brute_force_first heap l b t I it Hit) as (bs & [[Hst _]|H]).
  { injection Hst as -> _. done. }
  destruct H as (pre & c & post & p & Hsplit & [Hcost Hfit] & Hp & Hinit & Hsc & Hgt & _).
  simpl in *.
  destruct (best_perm_spec heap c) as (_ & Hsome & _).
  destruct (Hsome p Hp) as [Hperm _].
  assert (c ∈ subsets l) as Hc by (rewrite Hsplit; apply elem_of_app; right; left).
  assert (feasible heap b' t' c) as Hfeas'.
  { split; [lia|]. by eapply fle_trans. }
  destruct (brute_force_inv heap l b' t' I it' Hit') as (bs' & [_ _ Hbest Hmax]).
  simpl in *. destruct (Hmax c Hc Hfeas') as (s & Hs & Hle).
  rewrite Hsc in Hs. injection Hs as <-.
  destruct Hbest as [[_ ->]|(c' & Hc' & Hne' & _ & Hbp' & Hinit' & Hsc' & _)].
  { exfalso. apply fle_not_flt in Hle. congruence. }
  destruct (best_perm_spec heap c') as (_ & Hsome' & _).
  destruct (Hsome' _ Hbp') as [Hperm' _].
  assert (spots it' ≠ []) as Hne''.
  { intros Hnil. rewrite Hnil in Hperm'. by apply Permutation_nil_l in Hperm'. }
  split; [done|]. exists bs, bs'. split; [|split; [|done]].
  - rewrite Hinit at 1. assert (spots it = p) as Hsp by (by rewrite Hinit).
    rewrite score_init by (by rewrite <-Hsp).
    by rewrite (subset_score_perm heap I c p Hperm).
  - rewrite Hinit', score_init by done.
    by rewrite (subset_score_perm heap I c' _ Hperm').
Qed.

(** X11. Both planners depend on the interest set only through the
    interests that some spot of the catalog is tagged with: two interest
    sets that share the same tags with every spot give the same result.
    In particular an interest that no spot has changes nothing. *)
Theorem X11_unmatched_interests_change_nothing l b t I I' :
  (∀ r, r ∈ l → tags (heap r) ∩ I = tags (heap r) ∩ I') →
  greedy_heuristic heap set_order l b t I = greedy_heuristic heap set_order l b t I' ∧
  brute_force heap l b t I = brute_force heap l b t I'.
Proof.
  intros H. split.
  - unfold greedy_heuristic. by rewrite (score_spots_ext heap I I' l H).
  - unfold brute_force. f_equal.
    rewrite (foldM_ext _ (subset_step heap b t I')); [done|].
    intros st c Hc. by apply (subset_step_ext heap b t I I' l).
Qed.

(** X12. Given a list of two spots or more in which spots may repeat, the
    route orderer returns the first spot followed by every distinct spot
    of the rest exactly once: repetitions in the rest are dropped, and
    the first spot is visited again when it occurs in the rest. *)
Theorem X12_nearest_neighbor_with_duplicates s0 rest :
  rest ≠ [] →
  ∃ out, _nearest_neighbor heap set_order (s0 :: rest) = Ret (s0 :: out) ∧
    NoDup out ∧ (∀ x, x ∈ out ↔ x ∈ rest) ∧
    length out = size (list_to_set (C := gset ref) rest).
Proof.
  intros Hne. destruct (nearest_neighbor_tail heap set_order set_order_perm s0 rest Hne)
    as (out & Hout & Hperm).
  exists out. split; [done|]. split; [|split].
  - rewrite Hperm. apply NoDup_elements.
  - intros x. by rewrite Hperm, elem_of_elements, elem_of_list_to_set.
  - by rewrite Hperm.
Qed.

(** X13. In the route the orderer returns, every spot after the first is,
    among the spots that come after its predecessor, one nearest to that
    predecessor.  Coordinates are finite. *)
Theorem X13_nearest_neighbor_steps_to_nearest l route :
  (∀ r, r ∈ l → finite_coordinates (heap r)) →
  _nearest_neighbor heap set_order l = Ret route →
  ∀ pre a b post, route = pre ++ a :: b :: post →
    ∀ s, s ∈ post →
      fle (distance_to (heap a) (heap b)) (distance_to (heap a) (heap s)) = true.
Proof.
  intros Hfin Hrun pre a b post Hroute s Hs.
  destruct l as [|s0 [|s1 rest]];
    [injection Hrun as <-; by destruct pre as [|? [|? ?]]..|].
  unfold _nearest_neighbor in Hrun.
  eapply (nn_loop_nearest heap set_order set_order_perm _ [s0] _ route);
    [done|done| | |exact Hrun|exact Hroute| |exact Hs].
  - intros r ->%list_elem_of_singleton. apply Hfin. left.
  - intros r Hr%elem_of_list_to_set. apply Hfin. by right.
  - simpl. lia.
Qed.

(** X14. A non-empty greedy itinerary starts at a best affordable spot:
    its first spot has an entry fee within the budget, and no spot of the
    catalog with an entry fee within the budget has a greater total score
    (interest score minus a hundredth of the fee). *)
Theorem X14_greedy_starts_at_best_affordable l b t I it r :
  greedy_heuristic heap set_order l b t I = Ret it →
  head (spots it) = Some r →
  r ∈ l ∧ (entry_fee (heap r) ≤ b)%Z ∧
  ∃ s, total_score heap I r = Ret s ∧
    ∀ r', r' ∈ l → (entry_fee (heap r') ≤ b)%Z →
      ∃ s', total_score heap I r' = Ret s' ∧ fle s' s = true.
Proof.
  unfold greedy_heuristic. intros (scored & Hsc & Hit)%bind_Ret_inv Hhead.
  pose proof (score_spots_total_score heap I l scored Hsc) as Hall.
  assert (∀ p, p ∈ scored → p.2 ∈ l ∧ total_score heap I p.2 = Ret p.1) as Hscored.
  { intros p Hp. apply list_elem_of_lookup in Hp as [i Hi].
    destruct (Forall2_lookup_r _ _ _ _ _ Hall Hi) as (x & Hx & <- & Hts).
    split; [|done]. by eapply list_elem_of_lookup_2. }
  assert (∀ r', r' ∈ l → ∃ p, p ∈ scored ∧ p.2 = r') as Hl.
  { intros r' Hr'. apply list_elem_of_lookup in Hr' as [i Hi].
    destruct (Forall2_lookup_l _ _ _ _ _ Hall Hi) as (p & Hp & Hp2 & _).
    exists p. split; [|done]. by eapply list_elem_of_lookup_2. }
  set (sorted := sort_desc fst scored) in *.
  assert (∀ p, p ∈ sorted ↔ p ∈ scored) as Hmem.
  { intros p. unfold sorted. by rewrite sort_desc_perm. }
  assert (sorted_desc fst sorted) as Hsorted.
  { apply sort_desc_sorted. intros p Hp.
    destruct (Hscored p Hp) as [_ Hts]. by eapply (total_score_not_nan heap). }
  pose proof (select_first_pick heap sorted b t) as Hpick.
  destruct (selected (select heap sorted b t)) as [|s0 sel] eqn:Hsel.
  { injection Hit as <-. done. }
  destruct Hpick as [(Hnil & _)|(pre & p & post & Hsplit & Hhd & Hfee & Hpre)];
    [by rewrite Hsel in Hnil|].
  rewrite Hsel in Hhd. injection Hhd as ->.
  destruct (repair_head heap set_order set_order_perm _ _ _ _ (Nat.le_refl _) Hit) as [Hnil|Hh];
    [by rewrite Hnil in Hhead|].
  rewrite Hhead in Hh. injection Hh as ->.
  assert (p ∈ sorted) as Hp by (rewrite Hsplit; apply elem_of_app; right; left).
  destruct (Hscored p) as [Hpl Hpts]; [by apply Hmem|].
  split; [done|]. split; [done|]. exists p.1. split; [done|].
  intros r' Hr' Hfee'. destruct (Hl r' Hr') as (q & Hq & <-).
  destruct (Hscored q Hq) as [_ Hqts]. exists q.1. split; [done|].
  apply Hmem in Hq. rewrite Hsplit in Hq.
  apply elem_of_app in Hq as [Hq|[->|Hq]%elem_of_cons].
  - by apply Hpre in Hq.
  - apply fle_refl. by eapply (total_score_not_nan heap).
  - rewrite Hsplit in Hsorted. by eapply (sorted_desc_app_cons fst) in Hsorted.
Qed.

(** X17. The exhaustive planner returns the empty itinerary exactly when
    every subset within the budget and the time budget scores at most -1
    (none at all being such a case). *)
Theorem X17_brute_force_empty_exactly_when_no_score_above_minus_one l b t I it :
  brute_force heap l b t I = Ret it →
  (spots it = [] ↔
   ∀ c, c ∈ subsets l → feasible heap b t c →
     ∃ s, subset_score heap I c = Ret s ∧ fle s minus_one = true).
Proof.
  intros Hit.
  destruct (brute_force_first heap l b t I it Hit) as (bs & [[Hst Hall]|H]).
  { injection Hst as -> _. done. }
  destruct H as (pre & c & post & p & Hsplit & Hfeas & Hp & Hinit & Hsc & Hgt & _).
  simpl in *.
  destruct (best_perm_spec heap c) as (_ & Hsome & _).
  destruct (Hsome p Hp) as [Hperm _].
  assert (c ∈ subsets l) as Hc by (rewrite Hsplit; apply elem_of_app; right; left).
  split.
  - intros Hnil. exfalso. rewrite Hinit in Hnil. simpl in Hnil. subst p.
    apply elem_of_subsets in Hc as [Hne _]. by apply Permutation_nil_l in Hperm.
  - intros Hall. exfalso. destruct (Hall c Hc Hfeas) as (s & Hs & Hle).
    rewrite Hsc in Hs. injection Hs as <-. apply fle_not_flt in Hle. congruence.
Qed.

End MoreProperties.

(** X15. On the catalog built into the program neither planner raises an
    exception, whatever the budget, the time budget (infinite or NaN
    included) and the interest set: both return an itinerary. *)
Theorem X15_planners_return_on_builtin_catalog (set_order : gset ref → list ref) b t I :
  (∀ X, set_order X ≡ₚ elements X) →
  ∃ it_g it_b,
    greedy_heuristic Examples.SAMPLE_SPOTS set_order Examples.sample_catalog b t I
      = Ret it_g ∧
    brute_force Examples.SAMPLE_SPOTS Examples.sample_catalog b t I = Ret it_b.
Proof.
  intros Hperm.
  destruct (greedy_total SAMPLE_SPOTS set_order Hperm sample_catalog b t I) as (it_g & Hg).
  { intros r Hr. pose proof sample_penalties as H. rewrite Forall_forall in H. by apply H. }
  pose proof sample_subsets_ordered as Hall. rewrite forallb_forall in Hall.
  destruct (brute_force_returns SAMPLE_SPOTS sample_catalog b t I) as (it_b & Hb).
  - intros c Hc%list_elem_of_In. specialize (Hall c Hc).
    by destruct (best_perm SAMPLE_SPOTS c).1.
  - intros c Hc%list_elem_of_In. specialize (Hall c Hc).
    destruct (best_perm SAMPLE_SPOTS c).1; [|done].
    destruct (int_truediv _ _); try done. eauto.
  - eauto.
Qed.

Section StoreProperties.
Variable set_order : gset ref → list ref.
Hypothesis set_order_perm : ∀ X, set_order X ≡ₚ elements X.

(** X16. For a list of at most one spot the route orderer returns the
    list object it was given, not a copy: appending to the result appends
    to the argument.  For a longer list it returns a new list object, and
    appending to the result leaves the argument as it was. *)
Theorem X16_route_orderer_returns_short_lists_themselves σ a l x σ' r :
  Imp.wf σ → Imp.lists σ !! a = Some l →
  Imp._nearest_neighbor set_order a σ = Ret (x, σ') →
  ∃ σ'', Imp.append x r σ' = Ret (tt, σ'') ∧
    (length l ≤ 1 → x = a ∧ σ' = σ ∧ Imp.lists σ'' !! a = Some (l ++ [r])) ∧
    (2 ≤ length l →
       x ≠ a ∧ Imp.lists σ !! x = None ∧ Imp.lists σ'' !! a = Some l).
Proof.
  intros Hwf Ha Hrun. rewrite (Imp_nearest_neighbor_run set_order a l σ Ha) in Hrun.
  destruct (nearest_neighbor_spec (Imp.objs σ) set_order set_order_perm l)
    as (route & Hnn & _).
  rewrite Hnn in Hrun. pose proof (wf_lookup σ a l Hwf Ha) as Hlt.
  destruct l as [|s0 [|s1 rest]]; injection Hrun as <- <-.
  - exists (Imp.set_list a ([] ++ [r]) σ). rewrite (run_append a [] r σ Ha).
    split; [done|]. split; [|simpl; lia]. intros _. by rewrite lookup_set_list.
  - exists (Imp.set_list a ([s0] ++ [r]) σ). rewrite (run_append a [s0] r σ Ha).
    split; [done|]. split; [|simpl; lia]. intros _. by rewrite lookup_set_list.
  - exists (Imp.set_list (Imp.next σ) (route ++ [r]) (Imp.new_list route σ)).
    rewrite (run_append (Imp.next σ) route r) by apply lookup_new_list.
    split; [done|]. split; [simpl; lia|]. intros _.
    split; [lia|]. split; [by apply Hwf|].
    unfold Imp.set_list, Imp.new_list. simpl.
    rewrite !lookup_insert_ne by lia. done.
Qed.

End StoreProperties.

(** ** The further properties on concrete inputs *)

Lemma sample_finite_coordinates r : finite_coordinates (SAMPLE_SPOTS r).
Proof. unfold SAMPLE_SPOTS. repeat (destruct r as [r|r|]; try by split). Qed.

Lemma grid_finite_coordinates r : finite_coordinates (grid r).
Proof. unfold grid. repeat (destruct r as [r|r|]; try by split). Qed.

Lemma sample_catalog_NoDup : NoDup sample_catalog.
Proof. apply (bool_decide_unpack (NoDup sample_catalog)). by vm_compute. Qed.

Lemma X3_witness :
  is_nan (distance_to (SAMPLE_SPOTS 1%positive) (SAMPLE_SPOTS 2%positive)) = false ∧
  fle zero (distance_to (SAMPLE_SPOTS 1%positive) (SAMPLE_SPOTS 2%positive)) = true ∧
  distance_to (SAMPLE_SPOTS 1%positive) (SAMPLE_SPOTS 1%positive) = zero.
Proof. apply X3_distance_nonnegative; apply sample_finite_coordinates. Defined.

Lemma X4_witness :
  let l := [1; 5; 2]%positive in
  let it := Itinerary_init SAMPLE_SPOTS l "Brute Force" in
  (l = [] → total_time it = zero ∧ total_cost it = 0%Z) ∧
  (l ≠ [] →
     fle (fmul (float_of_int (Z.of_nat (length l))) two) (total_time it) = true ∧
     fle two (total_time it) = true).
Proof.
  apply (X4_total_time_at_least_two_hours_a_spot SAMPLE_SPOTS [1; 5; 2]%positive).
  intros r _. apply sample_finite_coordinates.
Defined.

Lemma X5_witness :
  (spots scenario_greedy ≠ [] →
     fle (fmul (float_of_int (Z.of_nat (length (spots scenario_greedy)))) two) (hours 8)
       = true) ∧
  (fle two (hours 8) = false → spots scenario_greedy = []).
Proof.
  apply (X5_planners_need_two_hours_a_spot SAMPLE_SPOTS ascending ascending_perm
           sample_catalog 1000 (hours 8) scenario_interests).
  - intros r _. apply sample_finite_coordinates.
  - left. exact scenario_greedy_run.
Defined.

Lemma X6_witness : NoDup (spots scenario_brute).
Proof.
  apply (X6_no_spot_visited_twice SAMPLE_SPOTS ascending ascending_perm
           sample_catalog 1000 (hours 8) scenario_interests).
  - exact sample_catalog_NoDup.
  - right. exact scenario_brute_run.
Defined.

Lemma X8_witness :
  fle (total_time scenario_brute) (_calculate_time SAMPLE_SPOTS [5; 1; 2]%positive) = true.
Proof.
  apply (X8_brute_force_route_is_fastest_order SAMPLE_SPOTS
           sample_catalog 1000 (hours 8) scenario_interests scenario_brute).
  - intros r _. apply sample_finite_coordinates.
  - exact scenario_brute_run.
  - apply perm_swap.
Defined.

Lemma X9_witness :
  ∃ pre c post bs,
    subsets sample_catalog = pre ++ c :: post ∧ spots scenario_brute ≡ₚ c ∧
    feasible SAMPLE_SPOTS 1000 (hours 8) c ∧
    subset_score SAMPLE_SPOTS scenario_interests c = Ret bs ∧
    (∀ c', c' ∈ pre → feasible SAMPLE_SPOTS 1000 (hours 8) c' →
       ∃ s, subset_score SAMPLE_SPOTS scenario_interests c' = Ret s ∧ flt s bs = true) ∧
    (∀ c', c' ∈ post → feasible SAMPLE_SPOTS 1000 (hours 8) c' →
       ∃ s, subset_score SAMPLE_SPOTS scenario_interests c' = Ret s ∧ fle s bs = true).
Proof.
  apply (X9_brute_force_keeps_first_best_subset SAMPLE_SPOTS
           sample_catalog 1000 (hours 8) scenario_interests scenario_brute).
  - exact scenario_brute_run.
  - discriminate.
Defined.

Lemma X10_witness :
  ∃ it it',
    brute_force SAMPLE_SPOTS sample_catalog 300 (hours 4) scenario_interests = Ret it ∧
    brute_force SAMPLE_SPOTS sample_catalog 1000 (hours 8) scenario_interests = Ret it' ∧
    spots it' ≠ [] ∧
    ∃ s s', score SAMPLE_SPOTS scenario_interests it = Ret s ∧
            score SAMPLE_SPOTS scenario_interests it' = Ret s' ∧ fle s s' = true.
Proof.
  eexists _, _. split; [vm_compute; reflexivity|]. split; [vm_compute; reflexivity|].
  apply (X10_brute_force_monotone_in_budgets SAMPLE_SPOTS sample_catalog
           300 1000 (hours 4) (hours 8) scenario_interests).
  - lia.
  - vm_compute. reflexivity.
  - vm_compute. reflexivity.
  - vm_compute. reflexivity.
  - discriminate.
Defined.

Lemma X11_witness :
  let I : gset string := {["culture"]} in
  let I' : gset string := {["culture"; "shopping"]} in
  greedy_heuristic SAMPLE_SPOTS ascending sample_catalog 1000 (hours 8) I
    = greedy_heuristic SAMPLE_SPOTS ascending sample_catalog 1000 (hours 8) I' ∧
  brute_force SAMPLE_SPOTS sample_catalog 1000 (hours 8) I
    = brute_force SAMPLE_SPOTS sample_catalog 1000 (hours 8) I'.
Proof.
  apply (X11_unmatched_interests_change_nothing SAMPLE_SPOTS ascending).
  intros r Hr.
  repeat (apply elem_of_cons in Hr as [->|Hr]; [vm_compute; reflexivity|]).
  by apply elem_of_nil in Hr.
Defined.

Lemma X12_witness :
  ∃ out, _nearest_neighbor grid descending [1; 2; 2; 1]%positive = Ret (1%positive :: out) ∧
    NoDup out ∧ (∀ x, x ∈ out ↔ x ∈ [2; 2; 1]%positive) ∧
    length out = size (list_to_set (C := gset ref) [2; 2; 1]%positive).
Proof.
  by apply (X12_nearest_neighbor_with_duplicates grid descending descending_perm).
Defined.

Lemma X13_witness :
  fle (distance_to (grid 1%positive) (grid 3%positive))
      (distance_to (grid 1%positive) (grid 2%positive)) = true.
Proof.
  apply (X13_nearest_neighbor_steps_to_nearest grid descending descending_perm
           [1; 2; 3]%positive [1; 3; 2]%positive
           (λ r _, grid_finite_coordinates r) ltac:(vm_compute; reflexivity)
           [] 1%positive 3%positive [2%positive] eq_refl).
  left.
Defined.

Lemma X14_witness :
  5%positive ∈ sample_catalog ∧ (entry_fee (SAMPLE_SPOTS 5%positive) ≤ 1000)%Z ∧
  ∃ s, total_score SAMPLE_SPOTS scenario_interests 5%positive = Ret s ∧
    ∀ r', r' ∈ sample_catalog → (entry_fee (SAMPLE_SPOTS r') ≤ 1000)%Z →
      ∃ s', total_score SAMPLE_SPOTS scenario_interests r' = Ret s' ∧ fle s' s = true.
Proof.
  apply (X14_greedy_starts_at_best_affordable SAMPLE_SPOTS ascending ascending_perm
           sample_catalog 1000 (hours 8) scenario_interests scenario_greedy).
  - exact scenario_greedy_run.
  - reflexivity.
Defined.

Lemma X15_witness :
  ∃ it_g it_b,
    greedy_heuristic SAMPLE_SPOTS ascending sample_catalog 1000 inf ∅ = Ret it_g ∧
    brute_force SAMPLE_SPOTS sample_catalog 1000 inf ∅ = Ret it_b.
Proof. apply (X15_planners_return_on_builtin_catalog ascending), ascending_perm. Defined.

Lemma X16_witness :
  ∃ x σ',
    Imp._nearest_neighbor ascending 0 sample_store = Ret (x, σ') ∧
    ∃ σ'', Imp.append x 6%positive σ' = Ret (tt, σ'') ∧
      (length sample_catalog ≤ 1 →
         x = 0 ∧ σ' = sample_store ∧
         Imp.lists σ'' !! 0 = Some (sample_catalog ++ [6%positive])) ∧
      (2 ≤ length sample_catalog →
         x ≠ 0 ∧ Imp.lists sample_store !! x = None ∧
         Imp.lists σ'' !! 0 = Some sample_catalog).
Proof.
  eexists _, _. split; [vm_compute; reflexivity|].
  apply (X16_route_orderer_returns_short_lists_themselves ascending ascending_perm
           sample_store 0 sample_catalog _ _ 6%positive sample_store_wf eq_refl).
  vm_compute. reflexivity.
Defined.

Lemma adventure_brute_run :
  brute_force SAMPLE_SPOTS sample_catalog 500 (hours 8) {["adventure"]}
    = Ret (Itinerary_init SAMPLE_SPOTS [] "Brute Force").
Proof. vm_compute. reflexivity. Qed.

Lemma X17_witness :
  spots (Itinerary_init SAMPLE_SPOTS [] "Brute Force") = [] ↔
  ∀ c, c ∈ subsets sample_catalog → feasible SAMPLE_SPOTS 500 (hours 8) c →
    ∃ s, subset_score SAMPLE_SPOTS {["adventure"]} c = Ret s ∧ fle s minus_one = true.
Proof.
  apply (X17_brute_force_empty_exactly_when_no_score_above_minus_one SAMPLE_SPOTS
           sample_catalog 500 (hours 8) {["adventure"]}).
  exact adventure_brute_run.
Defined.
